(** * Particle-life simulator: the linked-list grid engine

    A shallow embedding of the simulation core of the repository:
    - [src/linkedList/construct.wgsl]  the Grid Builder compute shader,
    - [src/linkedList/sim.wgsl]        the Force Integrator compute shader,
    - [src/linkedList/main.ts]         the engine that owns the buffers and
                                       issues the two dispatches per frame.

    Integers are [Z] with the 32-bit wrap-around written out.  The shader
    functions are written once, over an interface [Scalar] of the [f32]
    operations they use, and read in two ways: [F32] is IEEE-754 binary32
    (every operation correctly rounded, through [SpecFloat] at precision 24),
    [Exact] is exact rational arithmetic, the arithmetic in which the
    specification's formulas are written. *)

From Stdlib Require Import ZArith QArith Qround Qabs Qpower Bool Lia Lqa.
From Stdlib Require Import Floats.SpecFloat.
From stdpp Require Import base list.

Open Scope Z_scope.

(** ** 32-bit integers *)

Definition u32_max : Z := 4294967295.
Definition i32_min : Z := -2147483648.
Definition i32_max : Z := 2147483647.

(** Wrap-around of [u32] and [i32] arithmetic; [i32_wrap] is also WGSL's
    [i32(e)] for [e : u32] (the bits are kept). *)
Definition u32_wrap (z : Z) : Z := z mod 4294967296.
Definition i32_wrap (z : Z) : Z := (z + 2147483648) mod 4294967296 - 2147483648.

(** Saturation, as WGSL converts a float to an integer: the value is
    truncated towards zero and clamped to the range of the target type. *)
Definition u32_sat (z : Z) : Z := Z.max 0 (Z.min u32_max z).
Definition i32_sat (z : Z) : Z := Z.max i32_min (Z.min i32_max z).

(** ** The [f32] operations used by the shaders *)

Class Scalar (F : Type) := {
  f_lit   : Z -> positive -> F;   (* the literal n/d *)
  f_add   : F -> F -> F;
  f_sub   : F -> F -> F;
  f_mul   : F -> F -> F;
  f_div   : F -> F -> F;
  f_neg   : F -> F;
  f_abs   : F -> F;
  f_lt    : F -> F -> bool;
  f_floor : F -> F;
  f_ceil  : F -> F;
  f_u32   : F -> Z;               (* u32(e) *)
  f_i32   : F -> Z;               (* i32(e) *)
}.

Class ScalarSqrt (F : Type) := { f_sqrt : F -> F }.

Declare Scope scalar_scope.
Delimit Scope scalar_scope with F.
Infix "+" := f_add : scalar_scope.
Infix "-" := f_sub : scalar_scope.
Infix "*" := f_mul : scalar_scope.
Infix "/" := f_div : scalar_scope.
Notation "- a" := (f_neg a) : scalar_scope.
Infix "<?" := f_lt : scalar_scope.
Notation "a >? b" := (f_lt b a) : scalar_scope.

Section Vectors.
Context {F : Type} `{Scalar F}.

Definition F0 : F := f_lit 0 1.
Definition F1 : F := f_lit 1 1.
Definition F2 : F := f_lit 2 1.

(** WGSL: [max(e1,e2)] is [e2] if [e1 < e2] and [e1] otherwise; [min(e1,e2)]
    is [e2] if [e2 < e1] and [e1] otherwise; [clamp(e,low,high)] is
    [min(max(e,low),high)]. *)
Definition f_max (e1 e2 : F) : F := if (e1 <? e2)%F then e2 else e1.
Definition f_min (e1 e2 : F) : F := if (e2 <? e1)%F then e2 else e1.
Definition clamp (e low high : F) : F := f_min (f_max e low) high.

Record vec2 := Vec2 { vx : F; vy : F }.
Record vec4 := Vec4 { x4 : F; y4 : F; z4 : F; w4 : F }.

Definition xy (v : vec4) : vec2 := Vec2 (x4 v) (y4 v).
Definition zw (v : vec4) : vec2 := Vec2 (z4 v) (w4 v).
Definition vec4_of (a b : vec2) : vec4 := Vec4 (vx a) (vy a) (vx b) (vy b).

Definition vadd (a b : vec2) : vec2 := Vec2 (vx a + vx b)%F (vy a + vy b)%F.
Definition vsub (a b : vec2) : vec2 := Vec2 (vx a - vx b)%F (vy a - vy b)%F.
Definition vscale (a : vec2) (k : F) : vec2 := Vec2 (vx a * k)%F (vy a * k)%F.
Definition vdiv (a : vec2) (k : F) : vec2 := Vec2 (vx a / k)%F (vy a / k)%F.
Definition dot (a b : vec2) : F := (vx a * vx b + vy a * vy b)%F.

(** [struct Sim], the 40-byte parameter record of both shaders. *)
Record Sim := {
  colours   : Z;
  r         : F;
  force     : F;
  friction  : F;
  beta      : F;
  delta     : F;
  avoidance : F;
  worldSize : F;
  border    : Z;
  vortex    : Z;
}.

(** [struct Particle]: xy = position, zw = velocity. *)
Record Particle := { pos : vec4 }.
End Vectors.

Arguments vec2 F : clear implicits.
Arguments vec4 F : clear implicits.
Arguments Sim F : clear implicits.
Arguments Particle F : clear implicits.

(** ** IEEE-754 binary32 *)

Module F32.
Definition prec : Z := 24.
Definition emax : Z := 128.
Definition f32 : Type := spec_float.

Definition of_Z (z : Z) : f32 := binary_normalize prec emax z 0 false.

(** Largest integer not above the finite value [(-1)^s * m * 2^e]. *)
Definition floor_Z (s : bool) (m : positive) (e : Z) : Z :=
  Z.shiftl (cond_Zopp s (Zpos m)) e.

(** The value truncated towards zero. *)
Definition trunc_Z (s : bool) (m : positive) (e : Z) : Z :=
  cond_Zopp s (Z.shiftl (Zpos m) e).

Definition floor (a : f32) : f32 :=
  match a with
  | S754_finite s m e =>
      if 0 <=? e then a
      else let z := floor_Z s m e in
           if z =? 0 then S754_zero s else of_Z z
  | _ => a
  end.

Definition ceil (a : f32) : f32 := SFopp (floor (SFopp a)).

Definition to_u32 (a : f32) : Z :=
  match a with
  | S754_finite s m e => u32_sat (trunc_Z s m e)
  | S754_infinity s => if s then 0 else u32_max
  | _ => 0
  end.

Definition to_i32 (a : f32) : Z :=
  match a with
  | S754_finite s m e => i32_sat (trunc_Z s m e)
  | S754_infinity s => if s then i32_min else i32_max
  | _ => 0
  end.

#[export] Instance scalar : Scalar f32 := {
  f_lit n d := SFdiv prec emax (of_Z n) (of_Z (Zpos d));
  f_add := SFadd prec emax;
  f_sub := SFsub prec emax;
  f_mul := SFmul prec emax;
  f_div := SFdiv prec emax;
  f_neg := SFopp;
  f_abs := SFabs;
  f_lt := SFltb;
  f_floor := floor;
  f_ceil := ceil;
  f_u32 := to_u32;
  f_i32 := to_i32;
}.

#[export] Instance scalar_sqrt : ScalarSqrt f32 := {
  f_sqrt := SFsqrt prec emax;
}.

(** A number of the format: a zero, an infinity, a NaN, or a finite number
    in canonical form. *)
Definition valid (a : f32) : bool := valid_binary prec emax a.

(** The rational value of a finite number. *)
Definition to_Q (a : f32) : Q :=
  match a with
  | S754_finite s m e => (inject_Z (cond_Zopp s (Zpos m)) * 2 ^ e)%Q
  | _ => 0%Q
  end.
End F32.

(** ** Exact rational arithmetic *)

Module Exact.
Definition trunc (q : Q) : Z := Z.quot (Qnum q) (Zpos (Qden q)).

#[export] Instance scalar : Scalar Q := {
  f_lit n d := Qmake n d;
  f_add := Qplus;
  f_sub := Qminus;
  f_mul := Qmult;
  f_div := Qdiv;
  f_neg := Qopp;
  f_abs := Qabs;
  f_lt a b := negb (Qle_bool b a);
  f_floor q := inject_Z (Qfloor q);
  f_ceil q := inject_Z (Qceiling q);
  f_u32 q := u32_sat (trunc q);
  f_i32 q := i32_sat (trunc q);
}.
End Exact.

(** Out-of-range accesses.  WGSL leaves a load outside a buffer
    indeterminate (any value of the buffer or zero); it is read here as the
    given default, and no property below depends on the value.  A store or an
    atomic exchange outside a buffer has no defined effect: the thread is then
    stuck ([None]). *)
Definition load {A : Type} (d : A) (l : list A) (i : Z) : A :=
  if i <? 0 then d else default d (l !! Z.to_nat i).

(** A JavaScript array read [a[i]]: [undefined] outside the array. *)
Definition index {A : Type} (a : list A) (i : Z) : option A :=
  if i <? 0 then None else a !! Z.to_nat i.

(** ** construct.wgsl: the Grid Builder *)

Module construct_wgsl.
Section Shader.
Context {F : Type} `{Scalar F}.

(** Grid dimensions derived from worldSize and interaction radius r. *)
Definition gridDim (sim_ : Sim F) : Z :=
  u32_wrap (f_u32 (f_ceil (worldSize sim_ * F2 / r sim_)%F) + 1).

(** Map a world-space coordinate component to a grid cell index along one
    axis. *)
Definition cellCoord (v : F) (sim_ : Sim F) : Z :=
  let half := worldSize sim_ in
  let clamped := clamp v (- half)%F half in
  let norm := ((clamped + half) / r sim_)%F in
  f_u32 (f_floor norm).

(** FNV-1a-inspired hash for a 2-D cell coordinate. *)
Definition hash2u (x y : Z) : Z :=
  let h := 2166136261 in
  let h := Z.lxor h x in
  let h := u32_wrap (h * 16777619) in
  let h := Z.lxor h y in
  let h := u32_wrap (h * 16777619) in
  h.

Definition cellIndex (cx cy dim : Z) : Z := u32_wrap (cy * dim + cx).

(** The cell of a particle, as [main] computes it. *)
Definition cellOf (sim : Sim F) (p : Particle F) : Z :=
  let dim := gridDim sim in
  let cx := cellCoord (x4 (pos p)) sim in
  let cy := cellCoord (y4 (pos p)) sim in
  cellIndex cx cy dim.
End Shader.

Section Main.
Context {F : Type} `{Scalar F}.

(** The two read-write bindings: [heads] (binding 2), one atomic [i32] per
    cell, and [linked] (binding 3), one node per particle. *)
Record Grid := { heads : list Z; linked : list Z }.

Variable sim : Sim F.                       (* binding 0 *)
Variable particles : list (Particle F).     (* binding 1, read-only *)

(** One invocation of [main], [gid] being [global_invocation_id.x].  The
    exchange on [heads[cell]] is atomic; the store to [linked[idx]] touches
    the slot that only this invocation writes, so the invocation is one
    step of the serialized execution. *)
Definition main (gid : nat) (g : Grid) : option Grid :=
  let idx := gid in
  let count := length particles in
  if decide (count <= idx)%nat then Some g
  else
    p ← particles !! idx;
    let cell := cellOf sim p in
    (* let prev = atomicExchange(&heads[cell], i32(idx)); *)
    prev ← heads g !! Z.to_nat cell;
    let heads' := <[Z.to_nat cell := i32_wrap (Z.of_nat idx)]> (heads g) in
    (* atomicStore(&linked[idx].next, prev); *)
    if decide (idx < length (linked g))%nat
    then Some {| heads := heads'; linked := <[idx := prev]> (linked g) |}
    else None.

(** A dispatch, its invocations serialized in the order [order]. *)
Fixpoint dispatch (order : list nat) (g : Grid) : option Grid :=
  match order with
  | [] => Some g
  | gid :: rest => g' ← main gid g; dispatch rest g'
  end.
End Main.

(** Reading a cell back: follow [head -> next -> ...] to the sentinel, as the
    Force Integrator's [while j >= 0] does. *)
Fixpoint chain (fuel : nat) (linked : list Z) (j : Z) : option (list nat) :=
  match fuel with
  | O => None
  | S fuel' =>
      if j <? 0 then Some []
      else cons (Z.to_nat j) <$> chain fuel' linked (load 0 linked j)
  end.

Definition chains (fuel : nat) (g : Grid) : option (list (list nat)) :=
  mapM (fun h => chain fuel (linked g) h) (heads g).
End construct_wgsl.

(** ** sim.wgsl: the Force Integrator *)

Module sim_wgsl.
Section Shader.
Context {F : Type} `{Scalar F} `{ScalarSqrt F}.

(** Replicate helpers from construct shader. *)
Definition gridDim (sim_ : Sim F) : Z :=
  u32_wrap (f_u32 (f_ceil (worldSize sim_ * F2 / r sim_)%F) + 1).

Definition cellCoord (v : F) (sim_ : Sim F) : Z :=
  let half := worldSize sim_ in
  let clamped := clamp v (- half)%F half in
  f_i32 (f_floor ((clamped + half) / r sim_)%F).

Definition cellIndex (cx cy dim : Z) : Z := i32_wrap (cy * dim + cx).

(** Attraction / repulsion force curve: the signed force along the axis
    between two particles. *)
Definition forceCurve (dist beta coeff : F) : F :=
  if (dist <? beta)%F then
    (* Short-range repulsion (independent of coeff) *)
    (dist / beta - F1)%F
  else if (dist <? F1)%F then
    (* Mid-range attraction / repulsion controlled by coeff *)
    (coeff * (F1 - f_abs (F2 * dist - F1 - beta) / (F1 - beta)))%F
  else F0.

(** Shortest-path wrap of one component of a displacement. *)
Definition wrapDiff (half d : F) : F :=
  let d := if (d >? half)%F then (d - half * F2)%F else d in
  let d := if (d <? - half)%F then (d + half * F2)%F else d in
  d.

(** The displacement from [pos] to [q], wrap-corrected when
    [sim.border == 1u]. *)
Definition displacement (sim : Sim F) (from : vec2 F) (q : Particle F) : vec2 F :=
  let diff := vsub (xy (pos q)) from in
  if border sim =? 1 then
    let half := worldSize sim in
    Vec2 (wrapDiff half (vx diff)) (wrapDiff half (vy diff))
  else diff.

(** The guard of the pairwise force. *)
Definition inRange (sim : Sim F) (distSq : F) : bool :=
  (distSq >? F0)%F && (distSq <? r sim * r sim)%F.

Section Thread.
Variable sim : Sim F.                      (* binding 0 *)
Variable particles : list (Particle F).    (* binding 1, read-only *)
Variable matrix : list F.                  (* binding 3, read-only *)
Variable heads : list Z.                   (* binding 4, read-only *)
Variable linked : list Z.                  (* binding 5, read-only *)
Variable colourIdx : list Z.               (* binding 6, read-only *)

Definition zeroParticle : Particle F := {| pos := Vec4 F0 F0 F0 F0 |}.

(** What neighbour [j] adds to the accumulator: [None] when the guard
    [distSq > 0.0 && distSq < r * r] rejects the pair. *)
Definition pairForce (pos : vec2 F) (myColour : Z) (j : Z) : option (vec2 F) :=
  let q := load zeroParticle particles j in
  let diff := displacement sim pos q in
  let distSq := dot diff diff in
  if inRange sim distSq then
    let dist := f_sqrt distSq in
    let normD := (dist / r sim)%F in
    let dir := vdiv diff dist in
    let theirColour := load 0 colourIdx j in
    let coeff := load F0 matrix (u32_wrap (myColour * colours sim + theirColour)) in
    let f := forceCurve normD (beta sim) coeff in
    (* Close-range avoidance boost *)
    let avoidF := if (dist <? avoidance sim)%F
                  then (- (avoidance sim / dist - F1) * f_lit 1 2)%F
                  else F0 in
    Some (vscale dir (f + avoidF)%F)
  else None.

(** [distSq] for neighbour [j]: the squared wrap-corrected
    displacement from [from] to it. *)
Definition distSqTo (from : vec2 F) (j : Z) : F :=
  let diff := displacement sim from (load zeroParticle particles j) in
  dot diff diff.

(** The body of [while j >= 0] for one [j]. *)
Definition visit (idx : nat) (pos : vec2 F) (myColour : Z) (j : Z)
    (acc : vec2 F) : vec2 F :=
  if u32_wrap j =? Z.of_nat idx then acc
  else match pairForce pos myColour j with
       | Some df => vadd acc df
       | None => acc
       end.

Fixpoint walk (fuel : nat) (idx : nat) (pos : vec2 F) (myColour : Z)
    (j : Z) (acc : vec2 F) : option (vec2 F) :=
  match fuel with
  | O => None
  | S fuel' =>
      if j <? 0 then Some acc
      else walk fuel' idx pos myColour (load 0 linked j)
             (visit idx pos myColour j acc)
  end.

(** One cell of the 3x3 neighbourhood. *)
Definition neighbourCell (fuel : nat) (idx : nat) (pos : vec2 F)
    (myColour : Z) (cx cy dim : Z) (dx dy : Z) (acc : vec2 F)
    : option (vec2 F) :=
  let nx := i32_wrap (cx + dx) in
  let ny := i32_wrap (cy + dy) in
  if (nx <? 0) || (ny <? 0) || (dim <=? nx) || (dim <=? ny) then Some acc
  else
    let cell := cellIndex nx ny dim in
    walk fuel idx pos myColour (load 0 heads cell) acc.

(** [(dx, dy)] in the order of the two [for] loops. *)
Definition neighbourhood : list (Z * Z) :=
  dy ← [-1; 0; 1]; dx ← [-1; 0; 1]; [(dx, dy)].

Fixpoint accumulate (fuel : nat) (idx : nat) (pos : vec2 F) (myColour : Z)
    (cx cy dim : Z) (cells : list (Z * Z)) (acc : vec2 F)
    : option (vec2 F) :=
  match cells with
  | [] => Some acc
  | (dx, dy) :: rest =>
      acc' ← neighbourCell fuel idx pos myColour cx cy dim dx dy acc;
      accumulate fuel idx pos myColour cx cy dim rest acc'
  end.

(** Scale acceleration and add the optional vortex. *)
Definition acceleration (vel acc : vec2 F) : vec2 F :=
  let acc := vscale acc (force sim * r sim)%F in
  if vortex sim =? 1
  then vadd acc (vscale (Vec2 (- vy vel)%F (vx vel)) (f_lit 1 100))
  else acc.

(** Integrate: the new position and velocity before border handling. *)
Definition integrate (pos vel acc : vec2 F) : vec2 F * vec2 F :=
  let vel := vadd (vscale vel (F1 - friction sim)%F) (vscale acc (delta sim)) in
  let pos := vadd pos (vscale vel (delta sim)) in
  (pos, vel).

(** Toroidal wrap of one axis. *)
Definition wrapAxis (half p : F) : F :=
  let p := if (p >? half)%F then (p - half * F2)%F else p in
  let p := if (p <? - half)%F then (p + half * F2)%F else p in
  p.

(** Reflection off the two walls of one axis: position and velocity. *)
Definition reflectAxis (half p v : F) : F * F :=
  let '(p, v) := if (p >? half)%F then (half, (- f_abs v)%F) else (p, v) in
  let '(p, v) := if (p <? - half)%F then ((- half)%F, f_abs v) else (p, v) in
  (p, v).

(** Border handling. *)
Definition borderHandling (pos vel : vec2 F) : vec2 F * vec2 F :=
  let half := worldSize sim in
  if border sim =? 1 then
    (Vec2 (wrapAxis half (vx pos)) (wrapAxis half (vy pos)), vel)
  else
    let '(px, velx) := reflectAxis half (vx pos) (vx vel) in
    let '(py, vely) := reflectAxis half (vy pos) (vy vel) in
    (Vec2 px py, Vec2 velx vely).

(** The force that the 3x3 neighbourhood of particle [idx] accumulates
    in [acc]. *)
Definition forceSum (fuel : nat) (idx : nat) : option (vec2 F) :=
  let p := load zeroParticle particles (Z.of_nat idx) in
  let pos := xy (pos p) in
  let myColour := load 0 colourIdx (Z.of_nat idx) in
  let dim := i32_wrap (gridDim sim) in
  let cx := cellCoord (vx pos) sim in
  let cy := cellCoord (vy pos) sim in
  accumulate fuel idx pos myColour cx cy dim neighbourhood (Vec2 F0 F0).

(** Position and velocity of particle [idx] after the force loop and the
    integration, before border handling. *)
Definition integrated (fuel : nat) (idx : nat) : option (vec2 F * vec2 F) :=
  let p := load zeroParticle particles (Z.of_nat idx) in
  let vel := zw (pos p) in
  let pos := xy (pos p) in
  acc ← forceSum fuel idx;
  Some (integrate pos vel (acceleration vel acc)).

(** The record that invocation [idx] stores in [output[idx]]. *)
Definition simulate (fuel : nat) (idx : nat) : option (Particle F) :=
  '(pos, vel) ← integrated fuel idx;
  let '(pos, vel) := borderHandling pos vel in
  Some {| pos := vec4_of pos vel |}.

(** One invocation of [main] on the read-write binding [output]
    (binding 2). *)
Definition main (fuel : nat) (gid : nat) (output : list (Particle F))
    : option (list (Particle F)) :=
  let idx := gid in
  let count := length particles in
  if decide (count <= idx)%nat then Some output
  else
    p' ← simulate fuel idx;
    if decide (idx < length output)%nat
    then Some (<[idx := p']> output)
    else None.

Fixpoint dispatch (fuel : nat) (order : list nat)
    (output : list (Particle F)) : option (list (Particle F)) :=
  match order with
  | [] => Some output
  | gid :: rest => o ← main fuel gid output; dispatch fuel rest o
  end.
End Thread.
End Shader.
End sim_wgsl.

(** ** main.ts: the engine *)

Module LinkedListEngine.
Section Engine.
Context {F : Type} `{Scalar F} `{ScalarSqrt F}.

(** [options.ts]: the number of particles, a launch-time constant. *)
Variable PARTICLE_COUNT : nat.

(** The GPU buffers the engine holds, by content, and the ping-pong
    index. *)
Record Engine := {
  simBuffer : Sim F;
  matrixBuffer : list F;
  colourBuffer : list Z;
  particleBuffers : list (Particle F) * list (Particle F);
  headsBuffer : list Z;
  headsInitBuffer : list Z;
  linkedBuffer : list Z;
  step : Z;
}.

(** [particleBuffers[i]]. *)
Definition particleBuffer (e : Engine) (i : Z) : option (list (Particle F)) :=
  if i =? 0 then Some (fst (particleBuffers e))
  else if i =? 1 then Some (snd (particleBuffers e))
  else None.

(** A write to [particleBuffers[i]]. *)
Definition setParticleBuffer (e : Engine) (i : Z) (b : list (Particle F))
    : option (list (Particle F) * list (Particle F)) :=
  if i =? 0 then Some (b, snd (particleBuffers e))
  else if i =? 1 then Some (fst (particleBuffers e), b)
  else None.

(** [createAccelerationBuffers]: the head table is sized once, for
    [maxCells] cells. *)
Definition maxDim : Z := 6 * 2 * 2 + 2.
Definition maxCells : Z := maxDim * maxDim * 4.

Definition constructor (simBuffer : Sim F) (matrixBuffer : list F)
    (colourBuffer : list Z) (particleBufferA particleBufferB : list (Particle F))
    : Engine :=
  {| simBuffer := simBuffer;
     matrixBuffer := matrixBuffer;
     colourBuffer := colourBuffer;
     particleBuffers := (particleBufferA, particleBufferB);
     headsBuffer := replicate (Z.to_nat maxCells) 0;
     headsInitBuffer := replicate (Z.to_nat maxCells) (-1);
     linkedBuffer := replicate PARTICLE_COUNT 0;
     step := 0 |}.

(** [createBindGroups]: which particle buffer each bind group reads
    ([particlesIn]) and, for the sim pass, writes ([particlesOut]). *)
Definition constructBindGroups : list Z := [0; 1].
Definition simBindGroups : list (Z * Z) := [(0, 1); (1, 0)].

(** [dispatchWorkgroups(Math.ceil(PARTICLE_COUNT / 64))] with
    [@workgroup_size(64)]: the number of invocations. *)
Definition invocations : nat := 64 * ((PARTICLE_COUNT + 63) / 64).

(** Per-frame tick.  [constructOrder] and [simOrder] are the orders in which
    the invocations of the two dispatches are serialized, [fuel] bounds the
    list traversals of the sim pass. *)
Definition tick (fuel : nat) (constructOrder simOrder : list nat)
    (e : Engine) : option Engine :=
  let s := step e in
  (* 1. Reset heads buffer to -1 *)
  let heads0 := headsInitBuffer e in
  (* 2. Construct pass *)
  cIn ← index constructBindGroups s;
  particlesIn ← particleBuffer e cIn;
  g ← construct_wgsl.dispatch (simBuffer e) particlesIn constructOrder
         {| construct_wgsl.heads := heads0;
            construct_wgsl.linked := linkedBuffer e |};
  (* 3. Sim pass *)
  '(sIn, sOut) ← index simBindGroups s;
  particlesIn ← particleBuffer e sIn;
  particlesOut ← particleBuffer e sOut;
  out ← sim_wgsl.dispatch (simBuffer e) particlesIn (matrixBuffer e)
           (construct_wgsl.heads g) (construct_wgsl.linked g)
           (colourBuffer e) fuel simOrder particlesOut;
  buffers ← setParticleBuffer e sOut out;
  (* Advance ping-pong *)
  Some {| simBuffer := simBuffer e;
          matrixBuffer := matrixBuffer e;
          colourBuffer := colourBuffer e;
          particleBuffers := buffers;
          headsBuffer := construct_wgsl.heads g;
          headsInitBuffer := headsInitBuffer e;
          linkedBuffer := construct_wgsl.linked g;
          step := 1 - s |}.

(** Index of the buffer that holds the most recently written particle
    data (as documented). *)
Definition currentBufferIndex (e : Engine) : Z := 1 - step e.

(** The buffer the sim pass of a tick from state [e] writes. *)
Definition writtenBuffer (e : Engine) : option Z :=
  snd <$> index simBindGroups (step e).
End Engine.
End LinkedListEngine.

(** ** main.ts: the frame loop *)

Module main_ts.
Section Frame.
Context {F : Type} `{Scalar F} `{ScalarSqrt F}.

(** One render bind group per particle buffer: the particle buffer that
    binding 0 of [makeRenderBG(particleBufferA)] and of
    [makeRenderBG(particleBufferB)] holds. *)
Definition renderBindGroups : list Z := [0; 1].

(** [frame]: the compute passes of the tick, then the render pass, which
    draws one instance per record of the particle buffer of
    [renderBindGroups[currentBuf]].  The result is the engine after the
    frame and the records the render pass draws. *)
Definition frame (fuel : nat) (constructOrder simOrder : list nat)
    (engine : LinkedListEngine.Engine)
    : option (LinkedListEngine.Engine * list (Particle F)) :=
  (* engine.tick(encoder); *)
  engine' ← LinkedListEngine.tick fuel constructOrder simOrder engine;
  let currentBuf := LinkedListEngine.currentBufferIndex engine' in
  particleBuffer ← index renderBindGroups currentBuf;
  drawn ← LinkedListEngine.particleBuffer engine' particleBuffer;
  Some (engine', drawn).
End Frame.
End main_ts.


(** * Specification-side definitions *)

Module GridSpec.
Import construct_wgsl.

(** [Walk linked j l]: following [next] links from [j] visits exactly the
    particles [l], in this order, and then reaches a negative index. *)
Inductive Walk (linked : list Z) : Z -> list nat -> Prop :=
| Walk_end j : j < 0 -> Walk linked j []
| Walk_next i j l :
    linked !! i = Some j -> Walk linked j l ->
    Walk linked (Z.of_nat i) (i :: l).

(** The particles among [done] whose cell is [c], last processed first. *)
Definition bucket (cell : nat -> nat) (done : list nat) (c : nat) : list nat :=
  reverse (filter (fun i => cell i = c) done).


(** The normalised coordinate [norm] of [cellCoord]. *)
Definition normalised {F : Type} `{Scalar F} (sim : Sim F) (v : F) : F :=
  ((clamp v (- worldSize sim) (worldSize sim) + worldSize sim) / r sim)%F.

Section Invariant.
Context {F : Type} `{Scalar F}.
Variable sim : Sim F.
Variable particles : list (Particle F).
Variable nCells : nat.

Definition cellN (i : nat) : nat :=
  match particles !! i with
  | Some p => Z.to_nat (cellOf sim p)
  | None => O
  end.

Definition GridInv (done : list nat) (g : Grid) : Prop :=
  length (heads g) = nCells /\
  length (linked g) = length particles /\
  forall c, (c < nCells)%nat ->
    exists h, heads g !! c = Some h /\ Walk (linked g) h (bucket cellN done c).
End Invariant.

(** Every list the sim pass can start to walk ends within [n] steps. *)
Definition GridWf (heads linked : list Z) (n : nat) : Prop :=
  (forall c h, heads !! c = Some h ->
     exists l, Walk linked h l /\ (length l <= n)%nat) /\
  (exists l, Walk linked 0 l /\ (length l <= n)%nat).
End GridSpec.

(** Order and class predicates on binary32 numbers. *)
Module F32Spec.
Import F32.

(** [0.0 < a]. *)
Definition is_pos (a : f32) : Prop := SFltb F0 a = true.
(** [a < 0.0]. *)
Definition is_neg (a : f32) : Prop := SFltb a F0 = true.
(** [0.0 <= a]: not negative and not a NaN. *)
Definition is_nonneg (a : f32) : Prop := SFleb F0 a = true.
(** [a] is one of the two zeros. *)
Definition is_zero (a : f32) : Prop := exists s, a = S754_zero s.
(** [a] is a zero or a finite number: neither a NaN nor an infinity. *)
Definition is_finite (a : f32) : Prop :=
  match a with S754_zero _ | S754_finite _ _ _ => True | _ => False end.
End F32Spec.

(** The integration step as the claim words it: the vortex term joins the
    pairwise sum before the sum is scaled by [force * r]. *)
Module AsClaimed.
Section Integration.
Context {F : Type} `{Scalar F}.

Definition integrate (sim : Sim F) (pos vel sum : vec2 F) : vec2 F * vec2 F :=
  let f := if vortex sim =? 1
           then vadd sum (vscale (Vec2 (- vy vel)%F (vx vel)) (f_lit 1 100))
           else sum in
  let f := vscale f (force sim * r sim)%F in
  let vel' := vadd (vscale vel (F1 - friction sim)%F) (vscale f (delta sim)) in
  let pos' := vadd pos (vscale vel' (delta sim)) in
  (pos', vel').
End Integration.
End AsClaimed.

(** ** Rounding to binary32

    What it means for a number of the format to be the rounding of a
    non-negative rational, in the terms of [SpecFloat]'s shift records. *)

Module RoundSpec.
(** [2 ^ e] as a rational. *)
Definition pow2 (e : Z) : Q := (2 ^ e)%Q.

(** The shift record [mrs] places [x] on the grid of step [2 ^ e]:
    [shr_m] is the integer part of [x / 2 ^ e], the round bit tells whether
    the fraction reaches one half and the sticky bit whether anything is
    left below. *)
Definition Located (x : Q) (e : Z) (mrs : shr_record) : Prop :=
  (0 <= shr_m mrs)%Z /\
  match shr_r mrs, shr_s mrs with
  | false, false => x == inject_Z (shr_m mrs) * pow2 e
  | false, true =>
      inject_Z (shr_m mrs) * pow2 e < x /\
      x < (inject_Z (shr_m mrs) + (1 # 2)) * pow2 e
  | true, false => x == (inject_Z (shr_m mrs) + (1 # 2)) * pow2 e
  | true, true =>
      (inject_Z (shr_m mrs) + (1 # 2)) * pow2 e < x /\
      x < (inject_Z (shr_m mrs) + 1) * pow2 e
  end%Q.

Definition fexp32 (d : Z) : Z := fexp F32.prec F32.emax d.

(** A mantissa of at most 24 digits at the exponent the format gives
    it. *)
Definition Canon (m e : Z) : Prop :=
  (0 <= m)%Z /\ (Zdigits2 m <= F32.prec)%Z /\ fexp32 (Zdigits2 m + e) = e.

(** Round to nearest, ties to even, of the located value. *)
Definition rne (mrs : shr_record) : Z :=
  round_nearest_even (shr_m mrs) (loc_of_shr_record mrs).

(** The end of [binary_round_aux]: renormalise after the rounding and
    test for overflow. *)
Definition finish (n e : Z) : spec_float :=
  let '(mrs, e') := shr_fexp F32.prec F32.emax n e loc_Exact in
  match shr_m mrs with
  | Z0 => S754_zero false
  | Zpos p => if e' <=? F32.emax - F32.prec then S754_finite false p e'
              else S754_infinity false
  | Zneg _ => S754_nan
  end.

(** The float of a canonical mantissa and exponent. *)
Definition mk (n e : Z) : spec_float :=
  match n with
  | Z0 => S754_zero false
  | Zpos p => if e <=? F32.emax - F32.prec then S754_finite false p e
              else S754_infinity false
  | Zneg _ => S754_nan
  end.

(** [f] is the binary32 rounding to nearest-even of the non-negative
    rational [x]. *)
Definition Rounds (x : Q) (f : spec_float) : Prop :=
  exists e mrs,
    Located x e mrs /\ Canon (shr_m mrs) e /\ f = finish (rne mrs) e.

(** A zero or a finite number, not negative. *)
Definition fin (a : spec_float) : Prop :=
  match a with
  | S754_zero false | S754_finite false _ _ => True
  | _ => False
  end.
End RoundSpec.

Module NeighbourSpec.
Import GridSpec.

(** The particles the Force Integrator meets in the cell at offset [d] of
    the cell [(cx, cy)]: none outside the grid, else the chain of that
    cell. *)
Definition visitedCell (cell : nat -> nat) (done : list nat)
    (cx cy dim : Z) (d : Z * Z) : list nat :=
  let nx := cx + d.1 in
  let ny := cy + d.2 in
  if (nx <? 0) || (ny <? 0) || (dim <=? nx) || (dim <=? ny) then []
  else bucket cell done (Z.to_nat (ny * dim + nx)).

(** All of them, in the order of the two [for] loops. *)
Definition visited (cell : nat -> nat) (done : list nat)
    (cx cy dim : Z) : list nat :=
  sim_wgsl.neighbourhood ≫= visitedCell cell done cx cy dim.
End NeighbourSpec.

Module SignedRoundSpec.
Import RoundSpec.

(** [f] is the binary32 rounding to nearest-even of the rational [x] of
    either sign: of [x] itself when it is not negative, and the opposite of
    the rounding of [- x] otherwise. *)
Definition RoundsS (x : Q) (f : spec_float) : Prop :=
  (0 <= x /\ Rounds x f)%Q \/ (x <= 0 /\ Rounds (- x) (SFopp f))%Q.
End SignedRoundSpec.


(** * Sample inputs *)

Module Examples.
Import F32.

Definition lit (n : Z) (d : positive) : f32 := f_lit n d.

(** [defaultOptions] of [options.ts], with two colours. *)
Definition defaultSim : Sim f32 :=
  {| colours := 2; r := lit 15 1; force := lit 1 1; friction := lit 4 100;
     beta := lit 3 10; delta := lit 2 100; avoidance := lit 4 1;
     worldSize := lit 6 1; border := 1; vortex := 0 |}.

Definition withRadius (radius : f32) (s : Sim f32) : Sim f32 :=
  {| colours := colours s; r := radius; force := force s;
     friction := friction s; beta := beta s; delta := delta s;
     avoidance := avoidance s; worldSize := worldSize s;
     border := border s; vortex := vortex s |}.

Definition withBorder (b : Z) (s : Sim f32) : Sim f32 :=
  {| colours := colours s; r := r s; force := force s;
     friction := friction s; beta := beta s; delta := delta s;
     avoidance := avoidance s; worldSize := worldSize s;
     border := b; vortex := vortex s |}.

Definition withVortex (v : Z) (s : Sim f32) : Sim f32 :=
  {| colours := colours s; r := r s; force := force s;
     friction := friction s; beta := beta s; delta := delta s;
     avoidance := avoidance s; worldSize := worldSize s;
     border := border s; vortex := v |}.

Definition particle (x y velx vely : f32) : Particle f32 :=
  {| pos := Vec4 x y velx vely |}.

Definition atRest (x y : f32) : Particle f32 :=
  particle x y (lit 0 1) (lit 0 1).

(** Same-colour attraction only. *)
Definition identityMatrix : list f32 := [lit 1 1; lit 0 1; lit 0 1; lit 1 1].

(** Four particles at rest on a grid of cells of side 4: two of them share
    a cell. *)
Definition sim4 : Sim f32 := withRadius (lit 4 1) defaultSim.
Definition four : list (Particle f32) :=
  [atRest (lit (-6) 1) (lit (-6) 1); atRest (lit 0 1) (lit 0 1);
   atRest (lit 6 1) (lit 6 1); atRest (lit 1 2) (lit 1 2)].
Definition fourColours : list Z := [0; 1; 0; 1].

(** A particle alone, at rest, exactly on the wall [x = +worldSize]. *)
Definition onTheWall : list (Particle f32) := [atRest (lit 6 1) (lit 0 1)].

(** A particle alone, moving along [y]. *)
Definition moving : list (Particle f32) :=
  [particle (lit 0 1) (lit 0 1) (lit 0 1) (lit 1 1)].

(** A particle alone, about to cross the wall [x = +worldSize]. *)
Definition crossing : list (Particle f32) :=
  [particle (lit 599 100) (lit 0 1) (lit 5 1) (lit 0 1)].

(** The order in which the 64 invocations of one workgroup run here. *)
Definition backwards : list nat := reverse (seq 0 64).

Definition engineOf (count : nat) (s : Sim f32) (colourIdx : list Z)
    (ps : list (Particle f32)) : LinkedListEngine.Engine :=
  LinkedListEngine.constructor count s identityMatrix colourIdx ps ps.


(** The smallest radius of the user interface. *)
Definition unitRadius : Sim f32 := withRadius (lit 1 1) defaultSim.
End Examples.

(** * The Grid Builder *)

Section GridLemmas.
Import construct_wgsl GridSpec.

Lemma Walk_chain linked j l :
  Walk linked j l -> forall fuel, (length l < fuel)%nat ->
  chain fuel linked j = Some l.
Proof.
  induction 1 as [j Hj | i j l Hi _ IH]; intros fuel Hf.
  - destruct fuel as [|fuel]; [simpl in Hf; lia|].
    simpl. destruct (Z.ltb_spec j 0); [done | lia].
  - destruct fuel as [|fuel]; [simpl in Hf; lia|].
    simpl in *. destruct (Z.ltb_spec (Z.of_nat i) 0); [lia|].
    unfold load. destruct (Z.ltb_spec (Z.of_nat i) 0); [lia|].
    rewrite Nat2Z.id, Hi. simpl. rewrite IH by lia. done.
Qed.

Lemma Walk_frame linked j l i v :
  Walk linked j l -> i ∉ l -> Walk (<[i := v]> linked) j l.
Proof.
  induction 1 as [j Hj | k j l Hk _ IH]; intros Hi.
  - by constructor.
  - apply not_elem_of_cons in Hi as [Hne Hi].
    econstructor; [|by apply IH].
    rewrite list_lookup_insert_ne; done.
Qed.

Lemma bucket_snoc_eq cell done i :
  bucket cell (done ++ [i]) (cell i) = i :: bucket cell done (cell i).
Proof.
  unfold bucket. rewrite filter_app, reverse_app. simpl.
  rewrite filter_cons_True by done. done.
Qed.

Lemma bucket_snoc_ne cell done i c :
  cell i ≠ c -> bucket cell (done ++ [i]) c = bucket cell done c.
Proof.
  intros Hc. unfold bucket. rewrite filter_app, reverse_app. simpl.
  rewrite filter_cons_False by done. done.
Qed.

Lemma elem_of_bucket cell done c i :
  i ∈ bucket cell done c <-> i ∈ done /\ cell i = c.
Proof.
  unfold bucket. rewrite elem_of_reverse, list_elem_of_filter. tauto.
Qed.

Lemma buckets_Permutation cell done n :
  concat (bucket cell done <$> seq 0 n) ≡ₚ filter (fun i => (cell i < n)%nat) done.
Proof.
  induction n as [|n IH].
  - simpl. induction done as [|a done IHd]; [done|].
    rewrite filter_cons_False by lia. done.
  - rewrite seq_S, fmap_app, concat_app, IH. simpl. rewrite app_nil_r.
    unfold bucket. rewrite reverse_Permutation.
    clear IH. induction done as [|a done IHd]; [done|].
    destruct (decide (cell a < n)%nat).
    + rewrite (filter_cons_True (fun i => (cell i < n)%nat)) by done.
      rewrite (filter_cons_False (fun i => cell i = n)) by lia.
      rewrite (filter_cons_True (fun i => (cell i < S n)%nat)) by lia.
      simpl. by rewrite IHd.
    + rewrite (filter_cons_False (fun i => (cell i < n)%nat)) by done.
      destruct (decide (cell a = n)).
      * rewrite (filter_cons_True (fun i => cell i = n)) by done.
        rewrite (filter_cons_True (fun i => (cell i < S n)%nat)) by lia.
        rewrite <- Permutation_middle. by rewrite IHd.
      * rewrite (filter_cons_False (fun i => cell i = n)) by done.
        rewrite (filter_cons_False (fun i => (cell i < S n)%nat)) by lia.
        done.
Qed.
End GridLemmas.

Section GridBuild.
Import construct_wgsl GridSpec.
Context {F : Type} `{Scalar F}.
Variable sim : Sim F.
Variable particles : list (Particle F).
Variable nCells : nat.

Local Abbreviation cellN := (GridSpec.cellN sim particles).
Local Abbreviation GridInv := (GridSpec.GridInv sim particles nCells).

Lemma main_skip gid g :
  (length particles <= gid)%nat -> main sim particles gid g = Some g.
Proof. intros Hge. unfold main. by rewrite decide_True. Qed.

Lemma main_insert i done g :
  (i < length particles)%nat -> Z.of_nat (length particles) <= 2147483648 ->
  i ∉ done -> (cellN i < nCells)%nat -> GridInv done g ->
  exists g', main sim particles i g = Some g' /\ GridInv (done ++ [i]) g'.
Proof.
  intros Hi HN Hnew Hc (Hlh & Hll & Hw).
  destruct (lookup_lt_is_Some_2 particles i Hi) as [p Hp].
  destruct (Hw _ Hc) as (h & Hh & Hwalk).
  unfold main. rewrite decide_False by lia. rewrite Hp. simpl.
  assert (Hcell : Z.to_nat (cellOf sim p) = cellN i) by (unfold cellN; by rewrite Hp).
  rewrite Hcell, Hh. simpl. rewrite decide_True by lia.
  eexists; split; [done|].
  assert (Hw32 : i32_wrap (Z.of_nat i) = Z.of_nat i).
  { unfold i32_wrap. rewrite Z.mod_small by lia. lia. }
  rewrite Hw32.
  split; [|split]; simpl; rewrite ?length_insert; try done.
  intros c Hcn. destruct (decide (c = cellN i)) as [-> | Hne].
  - exists (Z.of_nat i). split; [by rewrite list_lookup_insert_eq by lia|].
    rewrite bucket_snoc_eq. econstructor.
    + by rewrite list_lookup_insert_eq by lia.
    + apply Walk_frame; [done|]. rewrite elem_of_bucket. tauto.
  - destruct (Hw _ Hcn) as (h' & Hh' & Hwalk').
    exists h'. split; [by rewrite list_lookup_insert_ne|].
    rewrite bucket_snoc_ne by done.
    apply Walk_frame; [done|]. rewrite elem_of_bucket. tauto.
Qed.

Lemma dispatch_inv order : forall done g,
  Z.of_nat (length particles) <= 2147483648 ->
  NoDup order -> (forall i, i ∈ order -> i ∉ done) ->
  (forall i, (i < length particles)%nat -> (cellN i < nCells)%nat) ->
  GridInv done g ->
  exists g', dispatch sim particles order g = Some g' /\
    GridInv (done ++ filter (fun i => (i < length particles)%nat) order) g'.
Proof.
  induction order as [|gid order IH]; intros done g HN Hnd Hfresh Hcells Hinv.
  - exists g. by rewrite filter_nil, app_nil_r.
  - apply NoDup_cons in Hnd as [Hgid Hnd]. simpl.
    destruct (decide (gid < length particles)%nat) as [Hlt | Hge].
    + destruct (main_insert gid done g) as (g1 & -> & Hinv1); auto.
      { apply Hfresh. left. }
      simpl. destruct (IH (done ++ [gid]) g1) as (g' & Hd & Hinv'); auto.
      { intros i Hi. rewrite elem_of_app, list_elem_of_singleton.
        intros [Hd | ->]; [|done]. eapply Hfresh; [right|]; done. }
      exists g'. split; [done|].
      rewrite filter_cons_True by done. by rewrite cons_middle, app_assoc.
    + rewrite main_skip by lia. simpl.
      destruct (IH done g) as (g' & Hd & Hinv'); auto.
      { intros i Hi. apply Hfresh. by right. }
      exists g'. split; [done|]. by rewrite filter_cons_False.
Qed.

Lemma GridInv_init linked0 :
  length linked0 = length particles ->
  GridInv [] {| heads := replicate nCells (-1); linked := linked0 |}.
Proof.
  intros Hl. split; [|split]; simpl; [by rewrite length_replicate | done |].
  intros c Hc. exists (-1). split; [by apply lookup_replicate_2|].
  constructor. lia.
Qed.

Lemma filter_all {A} (P : A -> Prop) `{forall x, Decision (P x)} (l : list A) :
  Forall P l -> filter P l = l.
Proof.
  induction 1 as [|a l Ha _ IH]; [done|].
  rewrite filter_cons_True by done. by rewrite IH.
Qed.

Lemma filter_lt_seq (n t : nat) :
  (n <= t)%nat -> filter (fun i => (i < n)%nat) (seq 0 t) = seq 0 n.
Proof.
  induction t as [|t IH]; intros Hnt.
  - by replace n with O by lia.
  - rewrite seq_S, filter_app. simpl.
    destruct (decide (n <= t)%nat) as [Hle | Hgt].
    + rewrite IH by done. rewrite filter_cons_False by lia.
      by rewrite filter_nil, app_nil_r.
    + replace n with (S t) by lia. rewrite filter_cons_True by lia.
      rewrite filter_nil, filter_all, seq_S; [done|].
      apply Forall_forall. intros i Hi%elem_of_seq. lia.
Qed.

(** A complete construct pass, from a head table of sentinels. *)
Lemma construct_pass (order : list nat) (nThreads : nat) (linked0 : list Z) :
  Z.of_nat (length particles) <= 2147483648 ->
  length linked0 = length particles ->
  (forall p, p ∈ particles -> cellOf sim p < Z.of_nat nCells) ->
  (length particles <= nThreads)%nat ->
  order ≡ₚ seq 0 nThreads ->
  exists g done,
    dispatch sim particles order
      {| heads := replicate nCells (-1); linked := linked0 |} = Some g /\
    GridInv done g /\
    done ≡ₚ seq 0 (length particles) /\
    forall i, (i < length particles)%nat -> (cellN i < nCells)%nat.
Proof.
  intros HN Hl0 Hcells HT Hperm.
  assert (HcellN : forall i, (i < length particles)%nat -> (cellN i < nCells)%nat).
  { intros i Hi. destruct (lookup_lt_is_Some_2 particles i Hi) as [p Hp].
    unfold GridSpec.cellN. rewrite Hp.
    specialize (Hcells p (list_elem_of_lookup_2 _ _ _ Hp)).
    assert (0 <= cellOf sim p) by (apply Z.mod_pos_bound; lia). lia. }
  destruct (dispatch_inv order [] {| heads := replicate nCells (-1); linked := linked0 |})
    as (g & Hd & Hinv); auto.
  { rewrite Hperm. apply NoDup_seq. }
  { intros i _. apply not_elem_of_nil. }
  { by apply GridInv_init. }
  simpl in Hinv. eexists g, _. split; [done|]. split; [done|]. split; [|done].
  rewrite Hperm. by rewrite filter_lt_seq.
Qed.
End GridBuild.

(** * Facts about the two arithmetics *)

Section F32Facts.
Import F32 F32Spec sim_wgsl.

Lemma F0_eq : F0 = S754_zero false.
Proof. reflexivity. Qed.

Lemma F1_eq : F1 = S754_finite false 8388608 (-23).
Proof. reflexivity. Qed.

Lemma F2_eq : F2 = S754_finite false 8388608 (-22).
Proof. reflexivity. Qed.

Lemma SFcompare_refl a : SFcompare a a = Some Eq \/ a = S754_nan.
Proof.
  destruct a as [s | s | | s m e]; simpl; auto.
  - destruct s; auto.
  - rewrite Z.compare_refl, Pos.compare_cont_refl. destruct s; auto.
Qed.

Lemma SFltb_irrefl a : SFltb a a = false.
Proof.
  unfold SFltb. destruct (SFcompare_refl a) as [-> | ->]; reflexivity.
Qed.

Lemma SFcompare_antisym a b :
  SFcompare b a = option_map CompOpp (SFcompare a b).
Proof.
  destruct a as [s1 | s1 | | s1 m1 e1], b as [s2 | s2 | | s2 m2 e2];
    simpl; try reflexivity;
    try (destruct s1; reflexivity); try (destruct s2; reflexivity);
    try (destruct s1, s2; reflexivity).
  assert (Hm : Pos.compare_cont Eq m2 m1 = CompOpp (Pos.compare_cont Eq m1 m2))
    by (rewrite Pos.compare_cont_antisym; reflexivity).
  rewrite (Z.compare_antisym e1 e2), Hm.
  destruct s1, s2; simpl; try reflexivity;
    destruct (e1 ?= e2); simpl; try reflexivity;
    destruct (Pos.compare_cont Eq m1 m2); reflexivity.
Qed.

Lemma SFleb_not_ltb a b : SFleb a b = true -> SFltb b a = false.
Proof.
  unfold SFleb, SFltb. rewrite (SFcompare_antisym a b).
  destruct (SFcompare a b) as [[| |]|]; simpl; congruence.
Qed.

Lemma SFltb_asym a b : SFltb a b = true -> SFltb b a = false.
Proof.
  unfold SFltb. rewrite (SFcompare_antisym a b).
  destruct (SFcompare a b) as [[| |]|]; simpl; congruence.
Qed.

Lemma is_pos_nonneg a : is_pos a -> is_nonneg a.
Proof.
  unfold is_pos, is_nonneg, SFltb, SFleb.
  destruct (SFcompare F0 a) as [[| |]|]; congruence.
Qed.

Lemma SFleb_refl_pos h : is_pos h -> SFleb h h = true.
Proof.
  intros Hh. unfold SFleb.
  destruct (SFcompare_refl h) as [-> | ->]; [reflexivity | discriminate].
Qed.

Lemma SFleb_opp_pos h : is_pos h -> SFleb (SFopp h) h = true.
Proof. destruct h as [s | s | | s m e]; try destruct s; try discriminate; reflexivity. Qed.

Lemma nonneg_not_lt_opp h : is_nonneg h -> SFltb h (SFopp h) = false.
Proof. destruct h as [s | s | | s m e]; try destruct s; simpl; try reflexivity; discriminate. Qed.

Lemma above_not_below h p :
  is_nonneg h -> SFltb p (SFopp h) = true -> SFltb h p = false.
Proof.
  destruct h as [s | s | | s m e]; try destruct s; try discriminate;
    destruct p as [s' | s' | | s' m' e']; try destruct s'; simpl; try reflexivity; try discriminate.
Qed.

Lemma SFmul_zero_l a b : is_zero a -> is_finite b -> is_zero (SFmul prec emax a b).
Proof.
  intros [s ->] Hb. destruct b as [s' | s' | | s' m e]; try done; eexists; reflexivity.
Qed.

Lemma SFadd_zero_zero a b : is_zero a -> is_zero b -> is_zero (SFadd prec emax a b).
Proof. intros [s ->] [s' ->]. destruct s, s'; eexists; reflexivity. Qed.

Lemma SFadd_zero_r a b : is_pos a -> is_zero b -> SFadd prec emax a b = a.
Proof.
  intros Ha [s ->]. destruct a as [s' | s' | | s' m e]; try destruct s'; try discriminate; reflexivity.
Qed.

Lemma wrapAxis_boundary half : is_nonneg half -> wrapAxis half half = half.
Proof.
  intros Hh. unfold wrapAxis. cbn.
  rewrite SFltb_irrefl. rewrite nonneg_not_lt_opp by done. reflexivity.
Qed.

Lemma reflectAxis_high half p v :
  is_nonneg half -> SFltb half p = true ->
  reflectAxis half p v = (half, SFopp (SFabs v)).
Proof.
  intros Hh Hp. unfold reflectAxis. cbn. rewrite Hp.
  rewrite nonneg_not_lt_opp by done. reflexivity.
Qed.

Lemma reflectAxis_low half p v :
  is_nonneg half -> SFltb p (SFopp half) = true ->
  reflectAxis half p v = (SFopp half, SFabs v).
Proof.
  intros Hh Hp. unfold reflectAxis. cbn.
  rewrite (above_not_below half p) by done. rewrite Hp. reflexivity.
Qed.

Lemma opp_abs_positive v :
  is_pos v -> SFopp (SFabs v) = SFopp v /\ SFltb (SFopp v) F0 = true.
Proof. destruct v as [s | s | | s m e]; try destruct s; try discriminate; split; reflexivity. Qed.

Lemma abs_negative v :
  SFltb v F0 = true -> SFabs v = SFopp v /\ is_pos (SFopp v).
Proof. destruct v as [s | s | | s m e]; try destruct s; try discriminate; split; reflexivity. Qed.

(** forceCurve, first and third boundary values *)
Lemma forceCurve_at_zero s b c :
  is_pos b -> forceCurve (S754_zero s) b c = SFopp F1.
Proof.
  intros Hb. unfold forceCurve. cbn.
  destruct b as [s' | s' | | s' m e]; try destruct s'; try discriminate; destruct s; reflexivity.
Qed.

Lemma forceCurve_at_one b c :
  SFltb b F1 = true -> forceCurve F1 b c = F0.
Proof.
  intros Hb. unfold forceCurve.
  change (f_lt F1 b) with (SFltb F1 b). rewrite (SFltb_asym _ _ Hb).
  reflexivity.
Qed.
End F32Facts.

Section ExactFacts.
Import Exact sim_wgsl.
Local Open Scope Q_scope.

Lemma f_lt_spec (a b : Q) : f_lt a b = true <-> a < b.
Proof.
  cbn. rewrite negb_true_iff. split.
  - intros Hb. apply Qnot_le_lt. intros Hle. apply Qle_bool_iff in Hle. congruence.
  - intros Hlt. destruct (Qle_bool b a) eqn:E; [|reflexivity].
    apply Qle_bool_iff in E. lra.
Qed.

Lemma f_lt_false (a b : Q) : f_lt a b = false <-> b <= a.
Proof.
  split.
  - intros Hf. apply Qnot_lt_le. intros Hlt. apply f_lt_spec in Hlt. congruence.
  - intros Hle. destruct (f_lt a b) eqn:E; [|reflexivity].
    apply f_lt_spec in E. lra.
Qed.

Lemma forceCurve_exact (b c : Q) :
  0 < b -> b < 1 ->
  forceCurve 0 b c == -1 /\ forceCurve b b c == 0 /\
  forceCurve 1 b c == 0 /\ forceCurve ((1 + b) / 2) b c == c.
Proof.
  intros Hb0 Hb1. unfold forceCurve.
  change (@F0 Q scalar) with 0. change (@F1 Q scalar) with 1.
  change (@F2 Q scalar) with 2.
  assert (H1 : f_lt 0 b = true) by (by apply f_lt_spec).
  assert (H2 : f_lt b b = false) by (apply f_lt_false; lra).
  assert (H3 : f_lt b 1 = true) by (by apply f_lt_spec).
  assert (H4 : f_lt 1 b = false) by (apply f_lt_false; lra).
  assert (H5 : f_lt 1 1 = false) by (apply f_lt_false; lra).
  assert (H6 : f_lt ((1 + b) / 2) b = false).
  { apply f_lt_false. apply Qle_shift_div_l; lra. }
  assert (H7 : f_lt ((1 + b) / 2) 1 = true).
  { apply f_lt_spec. apply Qlt_shift_div_r; lra. }
  rewrite H1, H2, H3, H4, H5, H6, H7.
  cbv [f_add f_sub f_mul f_div f_abs f_neg scalar].
  split; [|split; [|split]].
  - field. lra.
  - assert (Ha : Qabs (2 * b - 1 - b) == 1 - b).
    { rewrite Qabs_neg by lra. lra. }
    rewrite Ha. field. lra.
  - reflexivity.
  - assert (Ha : Qabs (2 * ((1 + b) / 2) - 1 - b) == 0).
    { assert (E : 2 * ((1 + b) / 2) - 1 - b == 0) by field.
      rewrite E. reflexivity. }
    rewrite Ha. field. lra.
Qed.
End ExactFacts.


(** * Correct rounding of the binary32 operations

    The operations of [SpecFloat] round to nearest, ties to even; rounding
    is monotone, which is what the bound on the cell coordinate needs. *)

Section Rounding.
Import RoundSpec.
Local Open Scope Q_scope.

Lemma pow2_pos e : 0 < pow2 e.
Proof. unfold pow2. apply Qpower_0_lt. reflexivity. Qed.

Lemma pow2_add a b : pow2 (a + b) == pow2 a * pow2 b.
Proof. unfold pow2. apply Qpower_plus. discriminate. Qed.

Lemma pow2_succ e : pow2 (e + 1) == 2 * pow2 e.
Proof. rewrite pow2_add. unfold pow2 at 2. simpl. lra. Qed.

Lemma pow2_Z (k : Z) : (0 <= k)%Z -> pow2 k == inject_Z (2 ^ k).
Proof. intros Hk. unfold pow2. rewrite Zpower_Qpower by done. reflexivity. Qed.

Lemma inject_Z_xO p : inject_Z (Zpos p~0) == 2 * inject_Z (Zpos p).
Proof. rewrite <- (inject_Z_mult 2). reflexivity. Qed.

Lemma inject_Z_xI p : inject_Z (Zpos p~1) == 2 * inject_Z (Zpos p) + 1.
Proof.
  change (Zpos p~1) with (2 * Zpos p + 1)%Z.
  rewrite inject_Z_plus, inject_Z_mult. reflexivity.
Qed.

Lemma Located_shr_1 x e mrs :
  Located x e mrs -> Located x (e + 1) (shr_1 mrs).
Proof.
  destruct mrs as [m r s]. unfold Located. simpl.
  intros [Hm Hloc]. pose proof (pow2_pos e) as HP.
  pose proof (pow2_succ e) as HS.
  destruct m as [|p|p]; [| |lia].
  - (* m = 0 *)
    split; [simpl; lia|].
    destruct r, s; cbn [shr_m shr_r shr_s orb] in *;
      change (inject_Z 0) with 0 in *; rewrite ?HS; lra.
  - destruct p as [p|p|].
    + (* 2p+1 *)
      split; [simpl; lia|].
      pose proof (inject_Z_xI p) as HI.
      destruct r, s; cbn [shr_m shr_r shr_s orb] in *; rewrite ?HS;
        rewrite HI in Hloc; lra.
    + split; [simpl; lia|].
      pose proof (inject_Z_xO p) as HO.
      destruct r, s; cbn [shr_m shr_r shr_s orb] in *; rewrite ?HS;
        rewrite HO in Hloc; lra.
    + split; [simpl; lia|].
      destruct r, s; cbn [shr_m shr_r shr_s orb] in *;
        change (inject_Z 0) with 0 in *; change (inject_Z 1) with 1 in *;
        rewrite ?HS; lra.
Qed.

Lemma Located_iter n : forall x e mrs,
  Located x e mrs -> Located x (e + Zpos n) (SpecFloat.iter_pos shr_1 n mrs).
Proof.
  induction n as [n IH | n IH |]; intros x e mrs Hl; simpl.
  - replace (e + Zpos n~1)%Z with (e + 1 + Zpos n + Zpos n)%Z by lia.
    apply IH, IH. by apply Located_shr_1.
  - replace (e + Zpos n~0)%Z with (e + Zpos n + Zpos n)%Z by lia.
    by apply IH, IH.
  - by apply Located_shr_1.
Qed.

Lemma shr_m_shr_1 mrs :
  (0 <= shr_m mrs)%Z -> shr_m (shr_1 mrs) = (shr_m mrs / 2)%Z.
Proof.
  destruct mrs as [m r s]. simpl. intros Hm.
  rewrite <- Z.div2_div. destruct m as [|[p|p|]|p]; simpl; try reflexivity; lia.
Qed.

Lemma shr_m_iter n : forall mrs,
  (0 <= shr_m mrs)%Z ->
  shr_m (SpecFloat.iter_pos shr_1 n mrs) = (shr_m mrs / 2 ^ Zpos n)%Z.
Proof.
  assert (Hnn : forall mrs, (0 <= shr_m mrs)%Z -> (0 <= shr_m (shr_1 mrs))%Z).
  { intros mrs Hm. rewrite shr_m_shr_1 by done. by apply Z.div_pos. }
  induction n as [n IH | n IH |]; intros mrs Hm; simpl.
  - rewrite IH, IH, shr_m_shr_1; try done.
    + rewrite !Z.div_div by lia. f_equal.
      replace (Zpos n~1) with (1 + Zpos n + Zpos n)%Z by lia.
      rewrite !Z.pow_add_r by lia. lia.
    + by apply Hnn.
    + rewrite IH by (by apply Hnn). apply Z.div_pos; [by apply Hnn | lia].
  - rewrite IH, IH; try done.
    + rewrite !Z.div_div by lia. f_equal.
      replace (Zpos n~0) with (Zpos n + Zpos n)%Z by lia.
      rewrite !Z.pow_add_r by lia. lia.
    + rewrite IH by done. apply Z.div_pos; [done | lia].
  - rewrite shr_m_shr_1 by done. done.
Qed.

Lemma shr_spec x e mrs n :
  Located x e mrs ->
  Located x (snd (shr mrs e n)) (fst (shr mrs e n)) /\
  snd (shr mrs e n) = (e + Z.max 0 n)%Z /\
  shr_m (fst (shr mrs e n)) = (shr_m mrs / 2 ^ Z.max 0 n)%Z.
Proof.
  intros Hl. destruct n as [|n|n]; simpl.
  - split; [done|]. split; [lia|]. by rewrite Z.div_1_r.
  - split; [by apply Located_iter|]. split; [lia|].
    apply shr_m_iter. apply Hl.
  - split; [done|]. split; [lia|]. by rewrite Z.div_1_r.
Qed.

(** Digits. *)
Lemma digits2_size p : digits2_pos p = Pos.size p.
Proof. induction p; simpl; congruence. Qed.

Lemma Zdigits2_log2 m : (0 < m)%Z -> Zdigits2 m = (Z.log2 m + 1)%Z.
Proof.
  destruct m as [|p|p]; try lia. intros _. simpl. rewrite digits2_size.
  destruct p; simpl; lia.
Qed.

Lemma Zdigits2_bounds m :
  (0 < m)%Z -> (2 ^ (Zdigits2 m - 1) <= m < 2 ^ Zdigits2 m)%Z.
Proof.
  intros Hm. rewrite Zdigits2_log2 by done.
  replace (Z.log2 m + 1 - 1)%Z with (Z.log2 m) by lia.
  pose proof (Z.log2_spec m Hm). lia.
Qed.

Lemma Zdigits2_nonneg m : (0 <= Zdigits2 m)%Z.
Proof. destruct m; simpl; lia. Qed.

Lemma Zdigits2_unique m d :
  (0 < m)%Z -> (2 ^ (d - 1) <= m < 2 ^ d)%Z -> Zdigits2 m = d.
Proof.
  intros Hm Hd. rewrite Zdigits2_log2 by done.
  assert (0 <= d - 1)%Z.
  { destruct (Z.le_gt_cases 0 (d - 1)) as [|Hneg]; [done|].
    assert (2 ^ d <= 1)%Z; [|lia].
    destruct (Z.le_gt_cases 0 d) as [Hd0|Hd0].
    - replace d with 0%Z by lia. simpl. lia.
    - rewrite Z.pow_neg_r by lia. lia. }
  rewrite (Z.log2_unique m (d - 1)); [lia | done |].
  replace (Z.succ (d - 1)) with d by lia. done.
Qed.

Lemma Zdigits2_div_pow2 m n :
  (0 < m)%Z -> (0 <= n < Zdigits2 m)%Z ->
  Zdigits2 (m / 2 ^ n) = (Zdigits2 m - n)%Z.
Proof.
  intros Hm Hn. pose proof (Zdigits2_bounds m Hm) as [Hlo Hhi].
  set (d := Zdigits2 m) in *.
  assert (Hp : (0 < 2 ^ n)%Z) by (apply Z.pow_pos_nonneg; lia).
  assert (Hlo' : (2 ^ (d - n - 1) <= m / 2 ^ n)%Z).
  { apply Z.div_le_lower_bound; [done|].
    rewrite <- Z.pow_add_r by lia. replace (n + (d - n - 1))%Z with (d - 1)%Z by lia.
    done. }
  assert (Hhi' : (m / 2 ^ n < 2 ^ (d - n))%Z).
  { apply Z.div_lt_upper_bound; [done|].
    rewrite <- Z.pow_add_r by lia. replace (n + (d - n))%Z with d by lia. done. }
  apply Zdigits2_unique.
  - assert (0 < 2 ^ (d - n - 1))%Z by (apply Z.pow_pos_nonneg; lia). lia.
  - replace (d - n - 1)%Z with (d - n - 1)%Z by lia. split; [|done].
    replace (d - n - 1)%Z with (d - n - 1)%Z in Hlo' by lia. exact Hlo'.
Qed.

Lemma fexp32_eq d : fexp32 d = Z.max (d - 24) (-149).
Proof. reflexivity. Qed.

Lemma shr_m_record_of_loc m l : shr_m (shr_record_of_loc m l) = m.
Proof. destruct l as [|[| |]]; reflexivity. Qed.

Lemma binary_round_aux_finish m e l :
  binary_round_aux F32.prec F32.emax false m e l =
    finish (rne (fst (shr_fexp F32.prec F32.emax m e l)))
           (snd (shr_fexp F32.prec F32.emax m e l)).
Proof.
  unfold binary_round_aux, finish, rne.
  destruct (shr_fexp F32.prec F32.emax m e l) as [mrs' e']. reflexivity.
Qed.

Lemma shr_fexp_spec x m e l :
  (0 <= m)%Z -> Located x e (shr_record_of_loc m l) ->
  (e <= fexp32 (Zdigits2 m + e))%Z ->
  let res := shr_fexp F32.prec F32.emax m e l in
  Located x (snd res) (fst res) /\ Canon (shr_m (fst res)) (snd res).
Proof.
  intros Hm Hl He res. unfold res, shr_fexp.
  fold (fexp32 (Zdigits2 m + e)).
  set (n := (fexp32 (Zdigits2 m + e) - e)%Z).
  destruct (shr_spec x e (shr_record_of_loc m l) n Hl) as (Hl' & He' & Hm').
  split; [done|]. rewrite He', Hm', shr_m_record_of_loc.
  rewrite Z.max_r by lia. unfold n in *. clear Hl' He' Hm' res Hl.
  replace (e + (fexp32 (Zdigits2 m + e) - e))%Z with (fexp32 (Zdigits2 m + e)) by lia.
  rewrite fexp32_eq in *. unfold Canon. rewrite fexp32_eq.
  change F32.prec with 24%Z.
  set (e1 := Z.max (Zdigits2 m + e - 24) (-149)) in *.
  split; [apply Z.div_pos; [done | apply Z.pow_pos_nonneg; lia]|].
  destruct (Z.eq_dec m 0%Z) as [-> | Hm0].
  - rewrite Z.div_0_l by (apply Z.pow_nonzero; lia). simpl in *. lia.
  - assert (Hmp : (0 < m)%Z) by lia.
    pose proof (Zdigits2_bounds m Hmp) as [Hlo Hhi].
    pose proof (Zdigits2_nonneg m).
    destruct (Z.lt_ge_cases (e1 - e) (Zdigits2 m)) as [Hlt | Hge].
    + rewrite Zdigits2_div_pow2 by lia. lia.
    + rewrite Z.div_small.
      * simpl. lia.
      * split; [lia|]. eapply Z.lt_le_trans; [exact Hhi|].
        apply Z.pow_le_mono_r; lia.
Qed.

Lemma Located_bracket x e mrs :
  Located x e mrs ->
  inject_Z (shr_m mrs) * pow2 e <= x /\
  x < (inject_Z (shr_m mrs) + 1) * pow2 e.
Proof.
  destruct mrs as [m r s]. unfold Located. cbn [shr_m shr_r shr_s].
  intros [_ Hl]. pose proof (pow2_pos e).
  destruct r, s; lra.
Qed.

Lemma rne_cases mrs : rne mrs = shr_m mrs \/ rne mrs = (shr_m mrs + 1)%Z.
Proof.
  destruct mrs as [m [|] [|]]; unfold rne; simpl; auto.
  destruct (Z.even m); auto.
Qed.

Lemma finish_mk n e : fexp32 (Zdigits2 n + e) = e -> finish n e = mk n e.
Proof.
  intros He. unfold finish, shr_fexp. fold (fexp32 (Zdigits2 n + e)).
  rewrite He, Z.sub_diag. reflexivity.
Qed.

Lemma Zdigits2_pow2 k : (0 <= k)%Z -> Zdigits2 (2 ^ k) = (k + 1)%Z.
Proof.
  intros Hk. apply Zdigits2_unique.
  - apply Z.pow_pos_nonneg; lia.
  - replace (k + 1 - 1)%Z with k by lia. split; [lia|].
    apply Z.pow_lt_mono_r; lia.
Qed.

Lemma Zdigits2_succ m :
  (0 <= m)%Z ->
  Zdigits2 (m + 1) = Zdigits2 m \/
  (m + 1 = 2 ^ Zdigits2 m)%Z.
Proof.
  intros Hm. destruct (Z.eq_dec m 0%Z) as [-> | Hm0]; [right; reflexivity|].
  assert (Hmp : (0 < m)%Z) by lia.
  pose proof (Zdigits2_bounds m Hmp) as [Hlo Hhi].
  destruct (Z.eq_dec (m + 1)%Z (2 ^ Zdigits2 m)%Z) as [Heq | Hne]; [by right|].
  left. apply Zdigits2_unique; lia.
Qed.

(** The result of the rounding, in canonical form. *)
Lemma finish_spec m e n :
  Canon m e -> n = m \/ n = (m + 1)%Z ->
  exists n' e',
    Canon n' e' /\ (n = 0%Z <-> n' = 0%Z) /\
    inject_Z n' * pow2 e' == inject_Z n * pow2 e /\
    finish n e = mk n' e'.
Proof.
  intros (Hm & Hd & He) Hn. rewrite fexp32_eq in He.
  change F32.prec with 24%Z in Hd.
  pose proof (Zdigits2_nonneg m) as Hd0.
  assert (Hsame : Zdigits2 n = Zdigits2 m ->
    exists n' e', Canon n' e' /\ (n = 0%Z <-> n' = 0%Z) /\
      inject_Z n' * pow2 e' == inject_Z n * pow2 e /\ finish n e = mk n' e').
  { intros Hdn. exists n, e. split; [|split; [done|split; [reflexivity|]]].
    - split; [lia|]. rewrite Hdn. split; [done|]. by rewrite fexp32_eq.
    - apply finish_mk. by rewrite Hdn, fexp32_eq. }
  destruct Hn as [-> | ->]; [by apply Hsame|].
  destruct (Zdigits2_succ m Hm) as [Hs | Hs]; [by apply Hsame|].
  destruct (Z.eq_dec (Zdigits2 m) 24%Z) as [H24 | H24].
  - (* the mantissa carries into a 25th digit *)
    exists (2 ^ 23)%Z, (e + 1)%Z. rewrite Hs, H24.
    assert (He1 : (-149 <= e)%Z) by lia.
    split; [|split; [|split]].
    + split; [lia|]. rewrite Zdigits2_pow2 by lia. split; [done|].
      rewrite fexp32_eq. lia.
    + split; intros Hz; discriminate Hz.
    + rewrite pow2_succ. change (inject_Z (2 ^ 23)) with (8388608 # 1).
      change (inject_Z (2 ^ 24)) with (16777216 # 1). ring.
    + unfold finish, shr_fexp. fold (fexp32 (Zdigits2 (2 ^ 24) + e)).
      rewrite fexp32_eq. change (Zdigits2 (2 ^ 24)) with 25%Z.
      replace (Z.max (25 + e - 24) (-149) - e)%Z with 1%Z by lia.
      reflexivity.
  - (* a subnormal mantissa grows by one digit *)
    assert (He1 : e = (-149)%Z) by lia.
    exists (m + 1)%Z, e. split; [|split; [done|split; [reflexivity|]]].
    + split; [lia|]. rewrite Hs, Zdigits2_pow2 by lia.
      change F32.prec with 24%Z. split; [lia|].
      rewrite fexp32_eq. lia.
    + apply finish_mk. rewrite Hs, Zdigits2_pow2 by lia.
      rewrite fexp32_eq. lia.
Qed.

Lemma pow2_le a b : (a <= b)%Z -> pow2 a <= pow2 b.
Proof.
  intros Hab. replace b with (a + (b - a))%Z by lia.
  rewrite pow2_add, (pow2_Z (b - a)) by lia.
  pose proof (pow2_pos a).
  assert (1 <= inject_Z (2 ^ (b - a))).
  { change 1 with (inject_Z 1). rewrite <- Zle_Qle.
    assert (0 < 2 ^ (b - a))%Z by (apply Z.pow_pos_nonneg; lia). lia. }
  nra.
Qed.

Lemma pow2_shift (k e : Z) :
  (0 <= k)%Z -> pow2 (k + e) == inject_Z (2 ^ k) * pow2 e.
Proof. intros Hk. by rewrite pow2_add, pow2_Z. Qed.

Lemma Canon_lt m e : Canon m e -> (m < 2 ^ 24)%Z.
Proof.
  intros (Hm & Hd & _). change F32.prec with 24%Z in Hd.
  destruct (Z.eq_dec m 0%Z) as [-> | Hm0]; [done|].
  pose proof (Zdigits2_bounds m ltac:(lia)) as [_ Hhi].
  eapply Z.lt_le_trans; [exact Hhi|]. apply Z.pow_le_mono_r; lia.
Qed.

Lemma Canon_normal m e : Canon m e -> (-149 < e)%Z -> (2 ^ 23 <= m)%Z.
Proof.
  intros (Hm & Hd & He) Hn. rewrite fexp32_eq in He.
  destruct (Z.eq_dec m 0%Z) as [-> | Hm0]; [simpl in He; lia|].
  pose proof (Zdigits2_bounds m ltac:(lia)) as [Hlo _].
  replace (Zdigits2 m) with 24%Z in Hlo by lia. exact Hlo.
Qed.

Lemma Canon_emin m e : Canon m e -> (-149 <= e)%Z.
Proof. intros (_ & _ & He). rewrite fexp32_eq in He. lia. Qed.

(** Rounding to nearest is monotone. *)
Lemma rne_mono x y ex ey rx ry :
  Located x ex rx -> Canon (shr_m rx) ex ->
  Located y ey ry -> Canon (shr_m ry) ey ->
  x <= y ->
  inject_Z (rne rx) * pow2 ex <= inject_Z (rne ry) * pow2 ey.
Proof.
  intros Hlx Hcx Hly Hcy Hxy.
  pose proof (Located_bracket _ _ _ Hlx) as [Hx1 Hx2].
  pose proof (Located_bracket _ _ _ Hly) as [Hy1 Hy2].
  pose proof (pow2_pos ex) as HPx. pose proof (pow2_pos ey) as HPy.
  pose proof (Canon_lt _ _ Hcx) as Hmx. pose proof (Canon_lt _ _ Hcy) as Hmy.
  assert (Hmx0 : (0 <= shr_m rx)%Z) by apply Hcx.
  assert (Hmy0 : (0 <= shr_m ry)%Z) by apply Hcy.
  assert (Hrx : (shr_m rx <= rne rx <= shr_m rx + 1)%Z)
    by (destruct (rne_cases rx); lia).
  assert (Hry : (shr_m ry <= rne ry <= shr_m ry + 1)%Z)
    by (destruct (rne_cases ry); lia).
  assert (Qx : inject_Z (rne rx) <= 16777216).
  { change 16777216 with (inject_Z 16777216). rewrite <- Zle_Qle. lia. }
  assert (Qy : inject_Z (shr_m ry) <= inject_Z (rne ry))
    by (rewrite <- Zle_Qle; lia).
  destruct (Z.lt_trichotomy ex ey) as [Hlt | [Heq | Hgt]].
  - (* [x] lies in a lower binade *)
    pose proof (Canon_normal _ _ Hcy) as Hn.
    pose proof (Canon_emin _ _ Hcx).
    assert (Qn : 8388608 <= inject_Z (shr_m ry)).
    { change 8388608 with (inject_Z (2 ^ 23)). rewrite <- Zle_Qle. lia. }
    pose proof (pow2_le (24 + ex) (23 + ey) ltac:(lia)) as Hp.
    rewrite (pow2_shift 24 ex), (pow2_shift 23 ey) in Hp by lia.
    change (inject_Z (2 ^ 24)) with 16777216 in Hp.
    change (inject_Z (2 ^ 23)) with 8388608 in Hp.
    nra.
  - (* same exponent *)
    subst ey.
    assert (Hm : (shr_m rx <= shr_m ry)%Z).
    { assert (inject_Z (shr_m rx) < inject_Z (shr_m ry) + 1) by nra.
      change 1 with (inject_Z 1) in H. rewrite <- inject_Z_plus in H.
      rewrite <- Zlt_Qlt in H. lia. }
    destruct (Z.eq_dec (shr_m rx) (shr_m ry)) as [Hmeq | Hmne].
    + assert (Hr : (rne rx <= rne ry)%Z).
      { clear Qx Qy Hrx Hry Hx1 Hx2 Hy1 Hy2.
        destruct rx as [mx bx sx], ry as [my by_ sy].
        unfold rne, Located in *. cbn [shr_m shr_r shr_s] in *. subst my.
        destruct Hlx as [_ Hlx], Hly as [_ Hly].
        destruct bx, sx, by_, sy; simpl; try lia;
          try (destruct (Z.even mx); lia);
          exfalso; lra. }
      assert (inject_Z (rne rx) <= inject_Z (rne ry)) by (by rewrite <- Zle_Qle).
      nra.
    + assert (inject_Z (rne rx) <= inject_Z (rne ry)) by (rewrite <- Zle_Qle; lia).
      nra.
  - (* impossible: [y] would lie in a lower binade than [x] *)
    exfalso.
    pose proof (Canon_normal _ _ Hcx) as Hn.
    pose proof (Canon_emin _ _ Hcy).
    assert (Qn : 8388608 <= inject_Z (shr_m rx)).
    { change 8388608 with (inject_Z (2 ^ 23)). rewrite <- Zle_Qle. lia. }
    assert (Qm : inject_Z (shr_m ry) + 1 <= 16777216).
    { change 1 with (inject_Z 1). rewrite <- inject_Z_plus.
      change 16777216 with (inject_Z 16777216). rewrite <- Zle_Qle. lia. }
    pose proof (pow2_le (24 + ey) (23 + ex) ltac:(lia)) as Hp.
    rewrite (pow2_shift 24 ey), (pow2_shift 23 ex) in Hp by lia.
    change (inject_Z (2 ^ 24)) with 16777216 in Hp.
    change (inject_Z (2 ^ 23)) with 8388608 in Hp.
    nra.
Qed.

Lemma mk_finite n e :
  Canon n e -> (0 < n)%Z -> (e <= 104)%Z ->
  mk n e = S754_finite false (Z.to_pos n) e /\
  F32.valid (mk n e) = true /\
  F32.to_Q (mk n e) == inject_Z n * pow2 e.
Proof.
  intros (Hn & Hd & He) Hpos Hle.
  destruct n as [|p|p]; try lia. unfold mk.
  change (F32.emax - F32.prec)%Z with 104%Z.
  destruct (Z.leb_spec e 104); [|lia].
  split; [reflexivity|]. split; [|reflexivity].
  unfold F32.valid, valid_binary, bounded, canonical_mantissa.
  change (fexp F32.prec F32.emax) with fexp32. simpl in He. rewrite He.
  rewrite Z.eqb_refl. simpl. apply Z.leb_le. exact Hle.
Qed.

Lemma mk_overflow n e :
  Canon n e -> (0 < n)%Z -> (104 < e)%Z ->
  mk n e = S754_infinity false /\ pow2 128 <= inject_Z n * pow2 e.
Proof.
  intros Hc Hpos Hgt. pose proof (Canon_normal _ _ Hc ltac:(lia)) as Hn.
  destruct n as [|p|p]; try lia. unfold mk.
  change (F32.emax - F32.prec)%Z with 104%Z.
  destruct (Z.leb_spec e 104); [lia|]. split; [reflexivity|].
  pose proof (pow2_le 128 (23 + e) ltac:(lia)) as Hp.
  rewrite (pow2_shift 23 e) in Hp by lia.
  change (inject_Z (2 ^ 23)) with 8388608 in Hp.
  assert (8388608 <= inject_Z (Zpos p)).
  { change 8388608 with (inject_Z (2 ^ 23)). by rewrite <- Zle_Qle. }
  pose proof (pow2_pos e). nra.
Qed.

Lemma mk_below n e :
  Canon n e -> (e <= 104)%Z -> inject_Z n * pow2 e < pow2 128.
Proof.
  intros Hc Hle. pose proof (Canon_lt _ _ Hc) as Hlt.
  assert (inject_Z n + 1 <= 16777216).
  { change 1 with (inject_Z 1). rewrite <- inject_Z_plus.
    change 16777216 with (inject_Z 16777216). rewrite <- Zle_Qle. lia. }
  pose proof (pow2_le (24 + e) 128 ltac:(lia)) as Hp.
  rewrite (pow2_shift 24 e) in Hp by lia.
  change (inject_Z (2 ^ 24)) with 16777216 in Hp.
  pose proof (pow2_pos e). nra.
Qed.

(** What a rounding can be. *)
Lemma Rounds_result x f :
  Rounds x f ->
  exists v,
    0 <= v /\
    ((f = S754_infinity false /\ pow2 128 <= v) \/
     (fin f /\ F32.valid f = true /\ F32.to_Q f == v /\ v < pow2 128)) /\
    forall y g, Rounds y g -> x <= y ->
      exists w, v <= w /\
        ((g = S754_infinity false /\ pow2 128 <= w) \/
         (fin g /\ F32.valid g = true /\ F32.to_Q g == w /\ w < pow2 128)).
Proof.
  assert (Hkind : forall x f e mrs,
    Located x e mrs -> Canon (shr_m mrs) e -> f = finish (rne mrs) e ->
    let v := inject_Z (rne mrs) * pow2 e in
    0 <= v /\
    ((f = S754_infinity false /\ pow2 128 <= v) \/
     (fin f /\ F32.valid f = true /\ F32.to_Q f == v /\ v < pow2 128))).
  { clear. intros x f e mrs Hl Hc -> v.
    destruct (finish_spec _ e (rne mrs) Hc (rne_cases mrs))
      as (n' & e' & Hc' & Hz & Hv & ->).
    pose proof (pow2_pos e). pose proof (pow2_pos e').
    assert (Hn0 : (0 <= rne mrs)%Z).
    { destruct (rne_cases mrs) as [-> | ->]; destruct Hc; lia. }
    assert (0 <= inject_Z (rne mrs)).
    { change 0 with (inject_Z 0). by rewrite <- Zle_Qle. }
    split; [unfold v; nra|]. unfold v. rewrite <- Hv.
    destruct (Z.eq_dec n' 0%Z) as [-> | Hn'].
    - right. simpl. split; [done|]. split; [done|].
      pose proof (pow2_pos 128).
      split; [change (inject_Z 0) with 0; lra|].
      change (inject_Z 0) with 0. lra.
    - assert (0 < n')%Z by (destruct Hc'; lia).
      destruct (Z.le_gt_cases e' 104) as [Hle | Hgt].
      + right. destruct (mk_finite _ _ Hc') as (Hmk & Hval & Hq); try done.
        split; [by rewrite Hmk|]. split; [done|]. split; [done|].
        by apply mk_below.
      + left. apply mk_overflow; [done | done | lia]. }
  intros (e & mrs & Hl & Hc & Hf).
  exists (inject_Z (rne mrs) * pow2 e).
  destruct (Hkind x f e mrs Hl Hc Hf) as [Hv0 Hv]. split; [done|]. split; [done|].
  intros y g (e2 & mrs2 & Hl2 & Hc2 & Hg) Hxy.
  exists (inject_Z (rne mrs2) * pow2 e2). split.
  - by eapply rne_mono.
  - by apply (Hkind y g e2 mrs2).
Qed.

(** Binary32 rounding is monotone: a larger value does not round to a
    smaller number. *)
Lemma Rounds_mono x y f g :
  Rounds x f -> Rounds y g -> x <= y ->
  g = S754_infinity false \/
  (fin f /\ fin g /\ F32.to_Q f <= F32.to_Q g).
Proof.
  intros Hf Hg Hxy.
  destruct (Rounds_result x f Hf) as (v & Hv0 & Hv & Hnext).
  destruct (Hnext y g Hg Hxy) as (w & Hvw & Hw).
  destruct Hw as [[-> _] | (Hfg & _ & Hqg & Hlt)]; [by left|]. right.
  destruct Hv as [[_ Hov] | (Hff & _ & Hqf & _)]; [lra|].
  split; [done|]. split; [done|]. lra.
Qed.

Lemma Rounds_valid x f :
  Rounds x f -> F32.valid f = true /\ (fin f \/ f = S754_infinity false).
Proof.
  intros Hf. destruct (Rounds_result x f Hf) as (v & _ & Hv & _).
  destruct Hv as [[-> _] | (Hff & Hval & _)]; [split; [done | by right]|].
  split; [done | by left].
Qed.

(** [binary_round_aux] rounds the value it is given the location of. *)
Lemma binary_round_aux_Rounds x m e l :
  (0 <= m)%Z -> Located x e (shr_record_of_loc m l) ->
  (e <= fexp32 (Zdigits2 m + e))%Z ->
  Rounds x (binary_round_aux F32.prec F32.emax false m e l).
Proof.
  intros Hm Hl He. rewrite binary_round_aux_finish.
  destruct (shr_fexp_spec x m e l Hm Hl He) as [Hl' Hc].
  eexists _, _. split; [exact Hl'|]. split; [exact Hc | reflexivity].
Qed.

Lemma Located_exact m e :
  (0 <= m)%Z ->
  Located (inject_Z m * pow2 e) e (shr_record_of_loc m loc_Exact).
Proof. intros Hm. split; [done|]. simpl. reflexivity. Qed.

Lemma Located_proper x y e mrs : x == y -> Located x e mrs -> Located y e mrs.
Proof.
  intros Hxy [Hm Hl]. split; [done|].
  destruct (shr_r mrs), (shr_s mrs); rewrite <- Hxy; exact Hl.
Qed.

Lemma Rounds_proper x y f : x == y -> Rounds x f -> Rounds y f.
Proof.
  intros Hxy (e & mrs & Hl & Hc & Hf). exists e, mrs.
  split; [by eapply Located_proper|]. done.
Qed.

Lemma Rounds_zero : Rounds 0 (S754_zero false).
Proof.
  exists (-149)%Z, (Build_shr_record 0 false false).
  split; [|split].
  - split; [simpl; lia|]. simpl. change (inject_Z 0) with 0. ring.
  - split; [simpl; lia|]. split; [simpl; discriminate | reflexivity].
  - reflexivity.
Qed.

(** A finite number of the format is the rounding of its own value. *)
Lemma valid_Canon s m e :
  F32.valid (S754_finite s m e) = true -> Canon (Zpos m) e /\ (e <= 104)%Z.
Proof.
  unfold F32.valid, valid_binary, bounded, canonical_mantissa.
  intros Hv. apply andb_true_iff in Hv as [Hc Hb].
  apply Z.eqb_eq in Hc. apply Z.leb_le in Hb.
  change (fexp F32.prec F32.emax) with fexp32 in Hc.
  split; [|exact Hb]. split; [lia|]. split; [|exact Hc].
  rewrite fexp32_eq in Hc. change F32.prec with 24%Z. simpl. lia.
Qed.

Lemma valid_Rounds m e :
  F32.valid (S754_finite false m e) = true ->
  Rounds (F32.to_Q (S754_finite false m e)) (S754_finite false m e).
Proof.
  intros Hv. destruct (valid_Canon _ _ _ Hv) as [Hc He].
  exists e, (Build_shr_record (Zpos m) false false).
  split; [|split; [exact Hc|]].
  - split; [simpl; lia|]. simpl. reflexivity.
  - unfold rne. simpl. rewrite finish_mk by apply Hc.
    unfold mk. change (F32.emax - F32.prec)%Z with 104%Z.
    destruct (Z.leb_spec e 104); [reflexivity | lia].
Qed.

(** [shl_align]. *)
Lemma Pos_iter_xO m d : Zpos (Pos.iter xO m d) = (Zpos m * 2 ^ Zpos d)%Z.
Proof.
  induction d as [|d IH] using Pos.peano_ind.
  - simpl. lia.
  - rewrite Pos.iter_succ, Pos2Z.inj_succ, Z.pow_succ_r by lia.
    change (Zpos (Pos.iter xO m d)~0) with (2 * Zpos (Pos.iter xO m d))%Z.
    rewrite IH. lia.
Qed.

Lemma shl_align_spec m e e' :
  let res := shl_align m e e' in
  snd res = Z.min e e' /\
  Zpos (fst res) = (Zpos m * 2 ^ (e - Z.min e e'))%Z.
Proof.
  unfold shl_align. destruct (e' - e)%Z as [|d|d] eqn:Hd; simpl.
  - split; [lia|]. replace (e - Z.min e e')%Z with 0%Z by lia. lia.
  - split; [lia|]. replace (e - Z.min e e')%Z with 0%Z by lia. lia.
  - split; [lia|]. rewrite Pos_iter_xO. f_equal. f_equal. lia.
Qed.

Lemma inject_pow2_shift (m : Z) (e e' : Z) :
  (e' <= e)%Z ->
  inject_Z (m * 2 ^ (e - e')) * pow2 e' == inject_Z m * pow2 e.
Proof.
  intros Hle. rewrite inject_Z_mult.
  replace e with ((e - e') + e')%Z at 2 by lia.
  rewrite (pow2_shift (e - e') e') by lia. ring.
Qed.

Lemma Zdigits2_mul_pow2 m k :
  (0 < m)%Z -> (0 <= k)%Z -> Zdigits2 (m * 2 ^ k) = (Zdigits2 m + k)%Z.
Proof.
  intros Hm Hk. pose proof (Zdigits2_bounds m Hm) as [Hlo Hhi].
  pose proof (Zdigits2_nonneg m).
  assert (0 < 2 ^ k)%Z by (apply Z.pow_pos_nonneg; lia).
  assert (0 < Zdigits2 m)%Z by (destruct m; simpl in *; lia).
  apply Zdigits2_unique; [lia|].
  replace (Zdigits2 m + k - 1)%Z with ((Zdigits2 m - 1) + k)%Z by lia.
  rewrite !Z.pow_add_r by lia. nia.
Qed.

Lemma binary_round_Rounds (p : positive) e :
  Rounds (inject_Z (Zpos p) * pow2 e) (binary_round F32.prec F32.emax false p e).
Proof.
  unfold binary_round.
  pose proof (shl_align_spec p e (fexp F32.prec F32.emax (Zpos (digits2_pos p) + e)))
    as [He' Hm'].
  destruct (shl_align p e _) as [mz ez]. simpl in He', Hm'.
  change (fexp F32.prec F32.emax) with fexp32 in *.
  change (Zpos (digits2_pos p)) with (Zdigits2 (Zpos p)) in *.
  apply binary_round_aux_Rounds; [lia | |].
  - eapply Located_proper; [|apply Located_exact; lia].
    rewrite Hm', He'. apply inject_pow2_shift. lia.
  - rewrite Hm', Zdigits2_mul_pow2 by lia. subst ez.
    replace (Zdigits2 (Zpos p) + (e - Z.min e (fexp32 (Zdigits2 (Zpos p) + e))) +
             Z.min e (fexp32 (Zdigits2 (Zpos p) + e)))%Z
      with (Zdigits2 (Zpos p) + e)%Z by lia.
    lia.
Qed.

Lemma binary_normalize_Rounds (m e : Z) :
  (0 <= m)%Z ->
  Rounds (inject_Z m * pow2 e) (binary_normalize F32.prec F32.emax m e false).
Proof.
  intros Hm. destruct m as [|p|p]; [| |lia].
  - simpl. eapply Rounds_proper; [|apply Rounds_zero].
    change (inject_Z 0) with 0. ring.
  - apply binary_round_Rounds.
Qed.

Lemma to_Q_finite s m e :
  F32.to_Q (S754_finite s m e) = inject_Z (cond_Zopp s (Zpos m)) * pow2 e.
Proof. reflexivity. Qed.

Lemma inject_Z_cond_Zopp s z :
  inject_Z (cond_Zopp s z) == if s then - inject_Z z else inject_Z z.
Proof. destruct s; cbn [cond_Zopp]; [rewrite inject_Z_opp|]; reflexivity. Qed.

(** Addition of two finite numbers whose sum is not negative. *)
Lemma SFadd_Rounds sa ma ea sb mb eb :
  let a := S754_finite sa ma ea in
  let b := S754_finite sb mb eb in
  0 <= F32.to_Q a + F32.to_Q b ->
  Rounds (F32.to_Q a + F32.to_Q b) (SFadd F32.prec F32.emax a b).
Proof.
  intros a b Hsum. unfold a, b, SFadd.
  set (ez := Z.min ea eb).
  destruct (shl_align_spec ma ea ez) as [_ Ha].
  destruct (shl_align_spec mb eb ez) as [_ Hb].
  replace (Z.min ea ez) with ez in Ha by (unfold ez; lia).
  replace (Z.min eb ez) with ez in Hb by (unfold ez; lia).
  set (S := (cond_Zopp sa (Zpos (fst (shl_align ma ea ez))) +
             cond_Zopp sb (Zpos (fst (shl_align mb eb ez))))%Z).
  assert (HS : inject_Z S * pow2 ez == F32.to_Q a + F32.to_Q b).
  { unfold S, a, b. rewrite !to_Q_finite, inject_Z_plus, Ha, Hb.
    rewrite !inject_Z_cond_Zopp.
    pose proof (inject_pow2_shift (Zpos ma) ea ez ltac:(unfold ez; lia)) as Ea.
    pose proof (inject_pow2_shift (Zpos mb) eb ez ltac:(unfold ez; lia)) as Eb.
    destruct sa, sb; lra. }
  eapply Rounds_proper; [exact HS|]. apply binary_normalize_Rounds.
  assert (0 <= inject_Z S).
  { pose proof (pow2_pos ez). rewrite <- HS in Hsum.
    destruct (Qlt_le_dec (inject_Z S) 0) as [Hneg|]; [|done]. nra. }
  change 0 with (inject_Z 0) in H. by rewrite <- Zle_Qle in H.
Qed.

(** Doubling. *)
Lemma SFmul_two_Rounds m e :
  F32.valid (S754_finite false m e) = true ->
  Rounds (F32.to_Q (S754_finite false m e) * 2)
         (SFmul F32.prec F32.emax (S754_finite false m e)
            (S754_finite false 8388608 (-22))).
Proof.
  intros Hv. destruct (valid_Canon _ _ _ Hv) as [(_ & Hd & He) _].
  unfold SFmul. simpl xorb.
  apply binary_round_aux_Rounds; [lia | |].
  - eapply Located_proper; [|apply Located_exact; lia].
    rewrite to_Q_finite. simpl cond_Zopp.
    change (Zpos (m * 8388608)) with (Zpos m * 2 ^ 23)%Z.
    rewrite inject_Z_mult.
    replace e with (22 + (e + -22))%Z at 2 by lia.
    rewrite (pow2_shift 22 (e + -22)) by lia.
    change (inject_Z (2 ^ 23)) with 8388608.
    change (inject_Z (2 ^ 22)) with 4194304. ring.
  - change (Zpos (m * 8388608)) with (Zpos m * 2 ^ 23)%Z.
    rewrite Zdigits2_mul_pow2 by lia.
    rewrite fexp32_eq in *. lia.
Qed.

Lemma new_location_eq d r :
  new_location d r =
    if (r =? 0)%Z then loc_Exact
    else if Z.even d then loc_Inexact (2 * r ?= d)%Z
    else loc_Inexact match (2 * r + 1 ?= d)%Z with Gt => Gt | _ => Lt end.
Proof.
  unfold new_location, new_location_even, new_location_odd.
  change IntDef.Z.even with Z.even. change IntDef.Z.eqb with Z.eqb.
  change IntDef.Z.compare with Z.compare. change IntDef.Z.mul with Z.mul.
  change IntDef.Z.add with Z.add.
  by destruct (Z.even d), (r =? 0)%Z.
Qed.

(** The remainder of a division locates the quotient. *)
Lemma new_location_Located x q r d e :
  (0 <= q)%Z -> (0 < d)%Z -> (0 <= r < d)%Z ->
  x == (inject_Z q + inject_Z r / inject_Z d) * pow2 e ->
  Located x e (shr_record_of_loc q (new_location d r)).
Proof.
  intros Hq Hd Hr Hx. pose proof (pow2_pos e) as HP.
  set (t := inject_Z r / inject_Z d) in *.
  assert (Hd0 : 0 < inject_Z d).
  { change 0 with (inject_Z 0). rewrite <- Zlt_Qlt. lia. }
  assert (Ht : t * inject_Z d == inject_Z r).
  { unfold t. field. lra. }
  assert (Hcmp : forall c, (2 * r ?= d)%Z = c ->
    match c with
    | Lt => t < 1 # 2
    | Eq => t == 1 # 2
    | Gt => 1 # 2 < t
    end).
  { intros c Hc.
    assert (H2 : inject_Z (2 * r) == 2 * t * inject_Z d).
    { rewrite inject_Z_mult. change (inject_Z 2) with 2. lra. }
    destruct c.
    - apply Z.compare_eq in Hc. rewrite Hc in H2. nra.
    - assert (inject_Z (2 * r) < inject_Z d); [|nra].
      rewrite <- Zlt_Qlt. by apply Z.compare_lt_iff.
    - assert (inject_Z d < inject_Z (2 * r)); [|nra].
      rewrite <- Zlt_Qlt. by apply Z.compare_gt_iff. }
  assert (Ht1 : t < 1).
  { assert (inject_Z r < inject_Z d) by (rewrite <- Zlt_Qlt; lia). nra. }
  assert (Ht0 : (r <> 0)%Z -> 0 < t).
  { intros Hr0. assert (0 < inject_Z r).
    { change 0 with (inject_Z 0). rewrite <- Zlt_Qlt. lia. }
    nra. }
  split; [by rewrite shr_m_record_of_loc|].
  rewrite new_location_eq.
  destruct (Z.eqb_spec r 0) as [Hr0|Hr0].
  { assert (t == 0) as Ht00.
    { subst r. change (inject_Z 0) with 0 in Ht. nra. }
    cbn [shr_record_of_loc shr_m shr_r shr_s]. rewrite Hx, Ht00. ring. }
  specialize (Ht0 Hr0).
  destruct (Z.even d) eqn:Hev.
  - pose proof (Hcmp _ eq_refl) as Hc.
    destruct (2 * r ?= d)%Z; cbn [shr_record_of_loc shr_m shr_r shr_s].
    + rewrite Hx, Hc. ring.
    + split; rewrite Hx; nra.
    + split; rewrite Hx; nra.
  - pose proof (Hcmp _ eq_refl) as Hc.
    assert (Hne : (2 * r)%Z <> d).
    { intros <-. rewrite Z.even_mul in Hev. discriminate. }
    destruct (Z.compare_spec (2 * r + 1) d) as [E|E|E];
      cbn [shr_record_of_loc shr_m shr_r shr_s].
    + assert (Hlt : (2 * r ?= d)%Z = Lt) by (apply Z.compare_lt_iff; lia).
      rewrite Hlt in Hc. split; rewrite Hx; nra.
    + assert (Hlt : (2 * r ?= d)%Z = Lt) by (apply Z.compare_lt_iff; lia).
      rewrite Hlt in Hc. split; rewrite Hx; nra.
    + assert (Hgt : (2 * r ?= d)%Z = Gt) by (apply Z.compare_gt_iff; lia).
      rewrite Hgt in Hc. split; rewrite Hx; nra.
Qed.

Lemma SFdiv_core_spec mx ex my ey :
  (Zdigits2 (Zpos mx) <= 24)%Z ->
  let x := F32.to_Q (S754_finite false mx ex) / F32.to_Q (S754_finite false my ey) in
  let '(q, e', l) := SFdiv_core_binary F32.prec F32.emax (Zpos mx) ex (Zpos my) ey in
  (0 <= q)%Z /\ Located x e' (shr_record_of_loc q l) /\
  (e' <= fexp32 (Zdigits2 q + e'))%Z.
Proof.
  intros Hdx x. unfold SFdiv_core_binary.
  change IntDef.Z.min with Z.min. change IntDef.Z.sub with Z.sub.
  change IntDef.Z.add with Z.add. change IntDef.Z.shiftl with Z.shiftl.
  change IntDef.Z.div_eucl with Z.div_eucl.
  change (fexp F32.prec F32.emax) with fexp32.
  set (d1 := Zdigits2 (Zpos mx)) in *. set (d2 := Zdigits2 (Zpos my)).
  set (e' := Z.min (fexp32 (d1 + ex - (d2 + ey))) (ex - ey)).
  set (s := (ex - ey - e')%Z).
  assert (Hs : (0 <= s)%Z) by (unfold s, e'; lia).
  assert (Hd2 : (1 <= d2)%Z).
  { pose proof (Zdigits2_bounds (Zpos my) ltac:(lia)) as [_ Hhi].
    destruct (Z.le_gt_cases 1 d2) as [|Hlt]; [done|].
    assert (2 ^ d2 <= 2 ^ 0)%Z; [|simpl in *; fold d2 in Hhi; lia].
    pose proof (Zdigits2_nonneg (Zpos my)). fold d2 in H.
    apply Z.pow_le_mono_r; lia. }
  set (m' := match s with
             | 0%Z => Zpos mx
             | Zpos _ => Z.shiftl (Zpos mx) s
             | Zneg _ => 0%Z
             end).
  assert (Hm' : m' = (Zpos mx * 2 ^ s)%Z).
  { unfold m'. destruct s as [|p|p] eqn:Es; [simpl; lia| |lia].
    rewrite Z.shiftl_mul_pow2 by lia. reflexivity. }
  clearbody m'.
  pose proof (Z_div_mod m' (Zpos my) ltac:(lia)) as Hdiv.
  destruct (Z.div_eucl m' (Zpos my)) as [q r]. destruct Hdiv as [Hqr Hr].
  assert (H2s : (0 < 2 ^ s)%Z) by (apply Z.pow_pos_nonneg; lia).
  assert (Hq : (0 <= q)%Z) by nia.
  split; [exact Hq|]. split.
  - apply new_location_Located; [done | lia | done |].
    unfold x. rewrite !to_Q_finite. cbn [cond_Zopp].
    assert (Hmy : 0 < inject_Z (Zpos my)).
    { change 0 with (inject_Z 0). rewrite <- Zlt_Qlt. lia. }
    pose proof (pow2_pos ey) as Hpy. pose proof (pow2_pos e') as Hpe.
    assert (Hex : pow2 ex == inject_Z (2 ^ s) * pow2 e' * pow2 ey).
    { replace ex with (s + e' + ey)%Z at 1 by (unfold s; lia).
      rewrite pow2_add, pow2_shift by lia. reflexivity. }
    assert (Hmq : inject_Z (Zpos mx) * inject_Z (2 ^ s) ==
                  inject_Z (Zpos my) * inject_Z q + inject_Z r).
    { rewrite <- !inject_Z_mult, <- inject_Z_plus, <- Hqr, Hm'. reflexivity. }
    rewrite Hex.
    transitivity ((inject_Z (Zpos mx) * inject_Z (2 ^ s)) * pow2 e' /
                  inject_Z (Zpos my)).
    + field. lra.
    + rewrite Hmq. field. lra.
  - rewrite fexp32_eq. destruct (Z.le_gt_cases e' (-149)) as [|He']; [lia|].
    assert (He'' : e' = (d1 + ex - (d2 + ey) - 24)%Z).
    { unfold e' in *. rewrite fexp32_eq in *. lia. }
    assert (Hs' : s = (24 - d1 + d2)%Z) by (unfold s; lia).
    pose proof (Zdigits2_bounds (Zpos mx) ltac:(lia)) as [Hlo1 _].
    pose proof (Zdigits2_bounds (Zpos my) ltac:(lia)) as [_ Hhi2].
    fold d1 in Hlo1. fold d2 in Hhi2.
    assert (Hd1 : (1 <= d1)%Z).
    { pose proof (Zdigits2_bounds (Zpos mx) ltac:(lia)) as [_ Hhi].
      destruct (Z.le_gt_cases 1 d1) as [|Hlt]; [done|].
      assert (2 ^ d1 <= 2 ^ 0)%Z; [|simpl in *; fold d1 in Hhi; lia].
      pose proof (Zdigits2_nonneg (Zpos mx)). fold d1 in H.
      apply Z.pow_le_mono_r; lia. }
    assert (Hbig : (2 ^ (23 + d2) <= m')%Z).
    { rewrite Hm', Hs'.
      replace (23 + d2)%Z with ((d1 - 1) + (24 - d1 + d2))%Z by lia.
      rewrite Z.pow_add_r by lia.
      apply Z.mul_le_mono_nonneg_r; [lia | exact Hlo1]. }
    rewrite Z.pow_add_r in Hbig by lia.
    assert (Hq23 : (2 ^ 23 <= q)%Z) by nia.
    assert (24 <= Zdigits2 q)%Z; [|lia].
    pose proof (Zdigits2_bounds q ltac:(lia)) as [_ Hhi].
    destruct (Z.le_gt_cases 24 (Zdigits2 q)) as [|Hlt]; [done|].
    assert (2 ^ Zdigits2 q <= 2 ^ 23)%Z; [|lia].
    apply Z.pow_le_mono_r; [lia|lia].
Qed.

(** Division of two positive numbers. *)
Lemma SFdiv_Rounds mx ex my ey :
  (Zdigits2 (Zpos mx) <= 24)%Z ->
  Rounds (F32.to_Q (S754_finite false mx ex) / F32.to_Q (S754_finite false my ey))
         (SFdiv F32.prec F32.emax (S754_finite false mx ex) (S754_finite false my ey)).
Proof.
  intros Hd. pose proof (SFdiv_core_spec mx ex my ey Hd) as Hcore.
  unfold SFdiv. cbn [xorb].
  destruct (SFdiv_core_binary F32.prec F32.emax (Zpos mx) ex (Zpos my) ey)
    as [[q e'] l].
  destruct Hcore as (Hq & Hl & He). by apply binary_round_aux_Rounds.
Qed.

Lemma inject_Z_pos (z : Z) : (0 < z)%Z -> 0 < inject_Z z.
Proof. intros Hz. change 0 with (inject_Z 0). by rewrite <- Zlt_Qlt. Qed.

Lemma Qcompare_Lt x y : x < y -> (x ?= y) = Lt.
Proof. intros Hxy. by apply (proj1 (Qlt_alt x y)). Qed.

Lemma Qcompare_Gt x y : y < x -> (x ?= y) = Gt.
Proof. intros Hxy. by apply (proj1 (Qgt_alt x y)). Qed.

Lemma Qcompare_Eq x y : x == y -> (x ?= y) = Eq.
Proof. intros Hxy. by apply (proj1 (Qeq_alt x y)). Qed.

Lemma Canon_value_lt m1 e1 m2 e2 :
  Canon (Zpos m1) e1 -> Canon (Zpos m2) e2 -> (e1 < e2)%Z ->
  inject_Z (Zpos m1) * pow2 e1 < inject_Z (Zpos m2) * pow2 e2.
Proof.
  intros H1 H2 He. pose proof (Canon_lt _ _ H1) as Hlt.
  pose proof (Canon_emin _ _ H1) as Hmin.
  pose proof (Canon_normal _ _ H2 ltac:(lia)) as Hn.
  pose proof (pow2_pos e1) as HP1. pose proof (pow2_le (e1 + 1) e2 ltac:(lia)) as HP.
  rewrite pow2_succ in HP.
  assert (Ha : inject_Z (Zpos m1) < 16777216).
  { change 16777216 with (inject_Z (2 ^ 24)). by rewrite <- Zlt_Qlt. }
  assert (Hb : 8388608 <= inject_Z (Zpos m2)).
  { change 8388608 with (inject_Z (2 ^ 23)). by rewrite <- Zle_Qle. }
  apply Qlt_le_trans with (16777216 * pow2 e1); [nra|].
  apply Qle_trans with (8388608 * pow2 e2); [lra|nra].
Qed.

(** On canonical positive numbers the comparison of the format (exponents
    first, then mantissas) is the comparison of the values. *)
Lemma Canon_compare m1 e1 m2 e2 :
  Canon (Zpos m1) e1 -> Canon (Zpos m2) e2 ->
  match (e1 ?= e2)%Z with
  | Lt => Lt
  | Gt => Gt
  | Eq => Pos.compare_cont Eq m1 m2
  end = (inject_Z (Zpos m1) * pow2 e1 ?= inject_Z (Zpos m2) * pow2 e2).
Proof.
  intros H1 H2. destruct (Z.compare_spec e1 e2) as [E|E|E].
  - subst e2. pose proof (pow2_pos e1) as HP.
    change (Pos.compare_cont Eq m1 m2) with (Pos.compare m1 m2).
    destruct (Pos.compare_spec m1 m2) as [Em|Em|Em]; symmetry.
    + subst m2. apply Qcompare_Eq. reflexivity.
    + apply Qcompare_Lt. apply Qmult_lt_r; [done|]. rewrite <- Zlt_Qlt. lia.
    + apply Qcompare_Gt. apply Qmult_lt_r; [done|]. rewrite <- Zlt_Qlt. lia.
  - symmetry. apply Qcompare_Lt. by apply Canon_value_lt.
  - symmetry. apply Qcompare_Gt. by apply Canon_value_lt.
Qed.

Lemma to_Q_pos m e : 0 < F32.to_Q (S754_finite false m e).
Proof.
  rewrite to_Q_finite. cbn [cond_Zopp]. pose proof (pow2_pos e).
  pose proof (inject_Z_pos (Zpos m) ltac:(lia)). nra.
Qed.

Lemma to_Q_neg m e :
  F32.to_Q (S754_finite true m e) == - F32.to_Q (S754_finite false m e).
Proof.
  rewrite !to_Q_finite. cbn [cond_Zopp].
  change (Z.neg m) with (- Zpos m)%Z. rewrite inject_Z_opp. ring.
Qed.

(** The comparison of two numbers of the format is the comparison of their
    values. *)
Lemma SFcompare_Q a b :
  F32.valid a = true -> F32.valid b = true ->
  F32Spec.is_finite a -> F32Spec.is_finite b ->
  SFcompare a b = Some (F32.to_Q a ?= F32.to_Q b).
Proof.
  intros Hva Hvb Ha Hb.
  destruct a as [s1| | |s1 m1 e1]; try done;
    destruct b as [s2| | |s2 m2 e2]; try done.
  - cbn [SFcompare]. f_equal. symmetry. change (F32.to_Q (S754_zero s1)) with 0.
    pose proof (to_Q_pos m2 e2). pose proof (to_Q_neg m2 e2).
    destruct s2; [apply Qcompare_Gt | apply Qcompare_Lt]; lra.
  - cbn [SFcompare]. f_equal. symmetry. change (F32.to_Q (S754_zero s2)) with 0.
    pose proof (to_Q_pos m1 e1). pose proof (to_Q_neg m1 e1).
    destruct s1; [apply Qcompare_Lt | apply Qcompare_Gt]; lra.
  - destruct (valid_Canon _ _ _ Hva) as [H1 _].
    destruct (valid_Canon _ _ _ Hvb) as [H2 _].
    pose proof (Canon_compare m1 e1 m2 e2 H1 H2) as Hc.
    pose proof (to_Q_pos m1 e1) as P1. pose proof (to_Q_pos m2 e2) as P2.
    pose proof (to_Q_neg m1 e1) as N1. pose proof (to_Q_neg m2 e2) as N2.
    change (inject_Z (Zpos m1) * pow2 e1) with (F32.to_Q (S754_finite false m1 e1)) in Hc.
    change (inject_Z (Zpos m2) * pow2 e2) with (F32.to_Q (S754_finite false m2 e2)) in Hc.
    cbn [SFcompare]. f_equal.
    destruct s1, s2.
    + destruct (Qcompare_spec (F32.to_Q (S754_finite false m1 e1))
                  (F32.to_Q (S754_finite false m2 e2))) as [E|E|E];
        destruct (e1 ?= e2)%Z; try discriminate;
        try (rewrite Hc; cbn [CompOpp]); symmetry;
        first [ apply Qcompare_Eq; lra | apply Qcompare_Lt; lra | apply Qcompare_Gt; lra ].
    + symmetry. apply Qcompare_Lt. lra.
    + symmetry. apply Qcompare_Gt. lra.
    + exact Hc.
Qed.

Lemma SFltb_Q a b :
  F32.valid a = true -> F32.valid b = true ->
  F32Spec.is_finite a -> F32Spec.is_finite b ->
  SFltb a b = true <-> F32.to_Q a < F32.to_Q b.
Proof.
  intros Hva Hvb Ha Hb. unfold SFltb. rewrite SFcompare_Q by done.
  rewrite Qlt_alt. destruct (F32.to_Q a ?= F32.to_Q b); split; congruence.
Qed.

(** A value of the format is its own rounding, whichever way it is
    reached. *)
Lemma Rounds_exact x f n e :
  Rounds x f -> Canon n e -> (0 < n)%Z -> (e <= 104)%Z ->
  x == inject_Z n * pow2 e ->
  exists m' e', f = S754_finite false m' e' /\ F32.to_Q f == x.
Proof.
  intros Hf Hc Hn He Hx.
  destruct (mk_finite n e Hc Hn He) as (Hmk & Hval & Hq).
  assert (Hg : Rounds x (mk n e)).
  { eapply Rounds_proper; [|rewrite Hmk; apply valid_Rounds; by rewrite <- Hmk].
    rewrite <- Hmk, Hq, Hx. reflexivity. }
  destruct (Rounds_mono x x f (mk n e) Hf Hg ltac:(lra)) as [Hinf | (Hff & _ & Hle)];
    [rewrite Hmk in Hinf; discriminate|].
  destruct (Rounds_mono x x (mk n e) f Hg Hf ltac:(lra)) as [Hinf | (_ & _ & Hge)];
    [rewrite Hinf in Hff; done|].
  assert (Hfx : F32.to_Q f == x) by lra.
  assert (0 < x).
  { rewrite Hx. pose proof (pow2_pos e). pose proof (inject_Z_pos n Hn). nra. }
  destruct f as [[|]| | |[|] m' e']; try done.
  - change (F32.to_Q (S754_zero false)) with 0 in Hfx. lra.
  - by exists m', e'.
Qed.

Lemma Qfloor_unique x z :
  inject_Z z <= x -> x < inject_Z (z + 1) -> Qfloor x = z.
Proof.
  intros Hlo Hhi. pose proof (Qfloor_le x) as H1. pose proof (Qlt_floor x) as H2.
  assert (inject_Z z < inject_Z (Qfloor x + 1)) as H3 by lra.
  assert (inject_Z (Qfloor x) < inject_Z (z + 1)) as H4 by lra.
  rewrite <- Zlt_Qlt in H3, H4. lia.
Qed.

(** A shift is the floor of the scaled value, for either direction of the
    shift. *)
Lemma shiftl_Qfloor (a e : Z) : Z.shiftl a e = Qfloor (inject_Z a * pow2 e).
Proof.
  symmetry. destruct (Z.le_gt_cases 0 e) as [He|He].
  - rewrite Z.shiftl_mul_pow2 by done. rewrite pow2_Z by done.
    rewrite <- inject_Z_mult. apply Qfloor_Z.
  - rewrite Z.shiftl_div_pow2 by lia.
    set (k := (- e)%Z). assert (Hk : (0 < k)%Z) by (unfold k; lia).
    assert (H2k : (0 < 2 ^ k)%Z) by (apply Z.pow_pos_nonneg; lia).
    pose proof (Z.div_mod a (2 ^ k) ltac:(lia)) as Hdm.
    pose proof (Z.mod_pos_bound a (2 ^ k) H2k) as Hr.
    set (q := (a / 2 ^ k)%Z) in *. set (r := (a mod 2 ^ k)%Z) in *.
    assert (Hone : pow2 e * inject_Z (2 ^ k) == 1).
    { rewrite <- pow2_Z by lia. rewrite <- pow2_add.
      replace (e + k)%Z with 0%Z by (unfold k; lia). reflexivity. }
    pose proof (pow2_pos e) as HP. pose proof (inject_Z_pos _ H2k) as HK.
    assert (Ha : inject_Z a == inject_Z (2 ^ k) * inject_Z q + inject_Z r).
    { rewrite <- inject_Z_mult, <- inject_Z_plus, <- Hdm. reflexivity. }
    assert (Hr0 : 0 <= inject_Z r).
    { change 0 with (inject_Z 0). rewrite <- Zle_Qle. lia. }
    assert (Hr1 : inject_Z r < inject_Z (2 ^ k)) by (rewrite <- Zlt_Qlt; lia).
    assert (Hv : inject_Z a * pow2 e == inject_Z q + inject_Z r * pow2 e).
    { rewrite Ha. transitivity (inject_Z q * (pow2 e * inject_Z (2 ^ k)) +
                                inject_Z r * pow2 e); [ring|].
      rewrite Hone. ring. }
    apply Qfloor_unique; rewrite Hv.
    + nra.
    + rewrite inject_Z_plus. change (inject_Z 1) with 1.
      assert (inject_Z r * pow2 e < 1); [|lra].
      rewrite <- Hone. nra.
Qed.

Lemma binary_round_opp p e :
  binary_round F32.prec F32.emax true p e =
    SFopp (binary_round F32.prec F32.emax false p e).
Proof.
  unfold binary_round.
  destruct (shl_align p e _) as [mz ez]. unfold binary_round_aux.
  destruct (shr_fexp F32.prec F32.emax (Zpos mz) ez loc_Exact) as [mrs' e'].
  destruct (shr_fexp F32.prec F32.emax _ e' loc_Exact) as [mrs'' e''].
  destruct (shr_m mrs''); try reflexivity.
  by destruct (IntDef.Z.leb e'' (IntDef.Z.sub F32.emax F32.prec)).
Qed.

Lemma to_u32_trunc m e :
  F32.to_u32 (S754_finite false m e) =
    u32_sat (Qfloor (F32.to_Q (S754_finite false m e))).
Proof.
  unfold F32.to_u32, F32.trunc_Z. cbn [cond_Zopp].
  by rewrite shiftl_Qfloor, to_Q_finite.
Qed.

(** Small integers are numbers of the format. *)
Lemma of_Z_exact z :
  (0 < z < 2 ^ 24)%Z ->
  exists m e, F32.of_Z z = S754_finite false m e /\
              F32.to_Q (F32.of_Z z) == inject_Z z.
Proof.
  intros Hz. set (d := Zdigits2 z).
  pose proof (Zdigits2_bounds z ltac:(lia)) as [Hlo Hhi]. fold d in Hlo, Hhi.
  assert (Hd : (1 <= d <= 24)%Z).
  { split.
    - destruct (Z.le_gt_cases 1 d) as [|Hlt]; [done|].
      pose proof (Zdigits2_nonneg z). fold d in H.
      assert (2 ^ d <= 2 ^ 0)%Z by (apply Z.pow_le_mono_r; lia).
      simpl in *. lia.
    - destruct (Z.le_gt_cases d 24) as [|Hgt]; [done|].
      assert (2 ^ 24 <= 2 ^ (d - 1))%Z by (apply Z.pow_le_mono_r; lia). lia. }
  assert (H2 : (0 < 2 ^ (24 - d))%Z) by (apply Z.pow_pos_nonneg; lia).
  pose proof (binary_normalize_Rounds z 0 ltac:(lia)) as HR.
  destruct (Rounds_exact _ _ (z * 2 ^ (24 - d)) (d - 24) HR) as (m & e & Hf & Hq).
  - split; [lia|]. rewrite Zdigits2_mul_pow2 by lia. fold d.
    split; [change F32.prec with 24%Z; lia|]. rewrite fexp32_eq. lia.
  - lia.
  - lia.
  - rewrite inject_Z_mult.
    replace 0%Z with ((24 - d) + (d - 24))%Z at 1 by lia.
    rewrite pow2_shift by lia. ring.
  - exists m, e. split; [exact Hf|]. unfold F32.of_Z. rewrite Hq.
    change (pow2 0) with 1. ring.
Qed.

Lemma to_u32_of_Z z : (0 < z < 2 ^ 24)%Z -> F32.to_u32 (F32.of_Z z) = u32_sat z.
Proof.
  intros Hz. destruct (of_Z_exact z Hz) as (m & e & Hf & Hq).
  rewrite Hf in *. by rewrite to_u32_trunc, Hq, Qfloor_Z.
Qed.

Lemma to_u32_range a : (0 <= F32.to_u32 a <= u32_max)%Z.
Proof.
  unfold F32.to_u32, u32_sat, u32_max.
  destruct a as [| [|] | |]; lia.
Qed.

Lemma shiftl_small (m : positive) (e : Z) :
  (Zpos m < 2 ^ 24)%Z -> (e < 0)%Z -> (0 <= Z.shiftl (Zpos m) e < 2 ^ 23)%Z.
Proof.
  intros Hm He. rewrite Z.shiftl_div_pow2 by lia.
  assert (2 ^ 1 <= 2 ^ (- e))%Z by (apply Z.pow_le_mono_r; lia).
  assert (0 < 2 ^ (- e))%Z by (apply Z.pow_pos_nonneg; lia).
  split; [apply Z.div_pos; lia|].
  apply Z.div_lt_upper_bound; [lia|]. change (2 ^ 1)%Z with 2%Z in *. lia.
Qed.

(** [u32(floor(a))] for a number of the format that is not negative. *)
Lemma floor_spec a :
  fin a -> F32.valid a = true ->
  F32.to_u32 (F32.floor a) = u32_sat (Qfloor (F32.to_Q a)).
Proof.
  intros Hf Hv. destruct a as [[|]| | |[|] m e]; try done.
  destruct (valid_Canon _ _ _ Hv) as [Hc _]. pose proof (Canon_lt _ _ Hc) as Hlt.
  unfold F32.floor. destruct (Z.leb_spec 0 e) as [He|He].
  - apply to_u32_trunc.
  - unfold F32.floor_Z. cbn [cond_Zopp].
    pose proof (shiftl_small m e Hlt He) as Hz.
    rewrite to_Q_finite. cbn [cond_Zopp]. rewrite <- shiftl_Qfloor.
    destruct (Z.eqb_spec (Z.shiftl (Zpos m) e) 0) as [E|E].
    + by rewrite E.
    + apply to_u32_of_Z. lia.
Qed.

(** [u32(ceil(a))] for a number of the format that is not negative. *)
Lemma ceil_spec a :
  fin a -> F32.valid a = true ->
  F32.to_u32 (F32.ceil a) = u32_sat (Qceiling (F32.to_Q a)).
Proof.
  intros Hf Hv. destruct a as [[|]| | |[|] m e]; try done.
  destruct (valid_Canon _ _ _ Hv) as [Hc _]. pose proof (Canon_lt _ _ Hc) as Hlt.
  unfold F32.ceil, F32.floor. cbn [SFopp negb].
  destruct (Z.leb_spec 0 e) as [He|He].
  - cbn [SFopp negb]. rewrite to_u32_trunc. f_equal.
    rewrite to_Q_finite. cbn [cond_Zopp]. rewrite pow2_Z by done.
    rewrite <- inject_Z_mult. by rewrite Qfloor_Z, Qceiling_Z.
  - unfold F32.floor_Z. cbn [cond_Zopp]. change (- Z.pos m)%Z with (Z.neg m).
    assert (Hq : Qceiling (F32.to_Q (S754_finite false m e)) =
                 (- Z.shiftl (Z.neg m) e)%Z).
    { unfold Qceiling. f_equal. rewrite shiftl_Qfloor. apply Qfloor_comp.
      rewrite to_Q_finite. cbn [cond_Zopp].
      change (Z.neg m) with (- Zpos m)%Z. rewrite inject_Z_opp. ring. }
    rewrite Hq.
    assert (Hz : (- 2 ^ 24 < Z.shiftl (Z.neg m) e < 0)%Z).
    { rewrite Z.shiftl_div_pow2 by lia.
      assert (2 ^ 1 <= 2 ^ (- e))%Z by (apply Z.pow_le_mono_r; lia).
      assert (0 < 2 ^ (- e))%Z by (apply Z.pow_pos_nonneg; lia).
      change (2 ^ 1)%Z with 2%Z in *. split.
      - apply Z.lt_le_trans with (Z.neg m / 1)%Z.
        + rewrite Z.div_1_r. lia.
        + pose proof (Z.div_mod (Z.neg m) (2 ^ (- e)) ltac:(lia)).
          pose proof (Z.mod_pos_bound (Z.neg m) (2 ^ (- e)) ltac:(lia)).
          rewrite Z.div_1_r. nia.
      - apply Z.div_lt_upper_bound; lia. }
    destruct (Z.shiftl (Z.neg m) e) as [|p|p] eqn:Ez; try lia.
    change (Z.neg p =? 0)%Z with false. cbv iota.
    change (- Z.neg p)%Z with (Z.pos p).
    unfold F32.of_Z, binary_normalize.
    rewrite binary_round_opp. rewrite <- (to_u32_of_Z (Zpos p)) by lia.
    unfold F32.of_Z, binary_normalize.
    by destruct (binary_round F32.prec F32.emax false p 0) as [[|]|[|]| |[|] ? ?].
Qed.
End Rounding.

(** * The cell of a particle in binary32 *)

Section CellBound.
Import RoundSpec F32 F32Spec.
Local Open Scope Q_scope.

Lemma is_pos_cases (a : f32) :
  is_pos a -> a = S754_infinity false \/ exists m e, a = S754_finite false m e.
Proof.
  unfold is_pos. rewrite F0_eq.
  destruct a as [[|]|[|]| |[|] m e]; try discriminate; eauto.
Qed.

(** [clamp(v, -h, h)] is a NaN (when [v] is), or a number between [-h] and
    [h]. *)
Lemma clamp_cases (v : f32) mh eh :
  let h : f32 := S754_finite false mh eh in
  valid v = true -> valid h = true ->
  let c := clamp v (SFopp h) h in
  c = S754_nan \/
  (valid c = true /\ is_finite c /\ - to_Q h <= to_Q c <= to_Q h).
Proof.
  intros h Hv Hh c. unfold c, clamp, f_max, f_min. cbn [f_lt scalar].
  pose proof (to_Q_pos mh eh) as Hpos. fold h in Hpos.
  assert (Hoppv : valid (SFopp h) = true) by exact Hh.
  assert (Hopp : to_Q (SFopp h) == - to_Q h) by apply to_Q_neg.
  assert (Hhh : SFltb h (SFopp h) = false).
  { destruct (SFltb h (SFopp h)) eqn:E; [|done].
    apply SFltb_Q in E; [lra|done..]. }
  destruct v as [s|[|]| |s m e].
  - right. change (SFltb (S754_zero s) (SFopp h)) with false. cbv iota.
    change (SFltb h (S754_zero s)) with false. cbv iota.
    split; [done|]. split; [done|]. change (to_Q (S754_zero s)) with 0. lra.
  - right. change (SFltb (S754_infinity true) (SFopp h)) with true. cbv iota.
    rewrite Hhh. split; [done|]. split; [done|]. lra.
  - right. change (SFltb (S754_infinity false) (SFopp h)) with false. cbv iota.
    change (SFltb h (S754_infinity false)) with true. cbv iota.
    split; [done|]. split; [done|]. lra.
  - by left.
  - right. set (v := S754_finite s m e) in *.
    destruct (SFltb v (SFopp h)) eqn:E1.
    + rewrite Hhh. split; [done|]. split; [done|]. lra.
    + destruct (SFltb h v) eqn:E2.
      * split; [done|]. split; [done|]. lra.
      * split; [done|]. split; [done|].
        assert (~ to_Q v < to_Q (SFopp h)).
        { intros Hc. apply SFltb_Q in Hc; [congruence|done..]. }
        assert (~ to_Q h < to_Q v).
        { intros Hc. apply SFltb_Q in Hc; [congruence|done..]. }
        lra.
Qed.

Lemma u32_sat_mono a b : (a <= b)%Z -> (u32_sat a <= u32_sat b)%Z.
Proof. unfold u32_sat. lia. Qed.

(** Dividing two numbers in order by the same positive number and taking
    the floor of the smaller and the ceiling of the larger keeps the
    order, unless the ceiling saturates. *)
Lemma quotient_le (A B : f32) mr er :
  let r : f32 := S754_finite false mr er in
  fin A -> fin B -> valid A = true -> valid B = true ->
  to_Q A <= to_Q B ->
  let U := to_u32 (ceil (SFdiv prec emax B r)) in
  (to_u32 (floor (SFdiv prec emax A r)) <= U)%Z \/ U = u32_max.
Proof.
  intros r HfA HfB HvA HvB Hle U.
  destruct A as [[|]| | |[|] mA eA]; try done.
  { left. change (to_u32 (floor (SFdiv prec emax (S754_zero false) r))) with 0%Z.
    apply to_u32_range. }
  pose proof (to_Q_pos mA eA) as HA.
  destruct B as [[|]| | |[|] mB eB]; try done.
  { change (to_Q (S754_zero false)) with 0 in Hle. lra. }
  destruct (valid_Canon _ _ _ HvA) as [(_ & HdA & _) _].
  destruct (valid_Canon _ _ _ HvB) as [(_ & HdB & _) _].
  pose proof (SFdiv_Rounds mA eA mr er HdA) as RA.
  pose proof (SFdiv_Rounds mB eB mr er HdB) as RB.
  pose proof (to_Q_pos mr er) as Hr.
  assert (Hq : to_Q (S754_finite false mA eA) / to_Q (S754_finite false mr er) <=
               to_Q (S754_finite false mB eB) / to_Q (S754_finite false mr er)).
  { apply Qmult_le_compat_r; [exact Hle|]. apply Qinv_le_0_compat. lra. }
  destruct (Rounds_mono _ _ _ _ RA RB Hq) as [Hinf | (HfN & HfD & HND)].
  { right. unfold U, r. rewrite Hinf. reflexivity. }
  left. unfold U, r.
  destruct (Rounds_valid _ _ RA) as [HvN _].
  destruct (Rounds_valid _ _ RB) as [HvD _].
  rewrite floor_spec, ceil_spec by done. apply u32_sat_mono.
  apply Z.le_trans with (Qceiling (to_Q (SFdiv prec emax (S754_finite false mA eA)
                                           (S754_finite false mr er)))).
  - pose proof (Qfloor_le (to_Q (SFdiv prec emax (S754_finite false mA eA)
                                           (S754_finite false mr er)))) as H1.
    pose proof (Qle_ceiling (to_Q (SFdiv prec emax (S754_finite false mA eA)
                                           (S754_finite false mr er)))) as H2.
    rewrite Zle_Qle. lra.
  - by apply Qceiling_resp_le.
Qed.

Lemma sum_Rounds (c : f32) mh eh :
  let h : f32 := S754_finite false mh eh in
  valid c = true -> valid h = true -> is_finite c -> - to_Q h <= to_Q c ->
  Rounds (to_Q c + to_Q h) (SFadd prec emax c h).
Proof.
  intros h Hc Hh Hf Hle. subst h. destruct c as [s| | |s m e]; try done.
  - cbn [SFadd]. eapply Rounds_proper; [|by apply valid_Rounds].
    change (to_Q (S754_zero s)) with 0. ring.
  - apply SFadd_Rounds. lra.
Qed.

(** The cell coordinate of any position is at most
    [u32(ceil(worldSize * 2 / r))], unless that conversion saturates. *)
Lemma cellCoord_core (v h r : f32) :
  valid v = true -> valid h = true -> valid r = true ->
  is_pos h -> is_pos r ->
  let U := to_u32 (ceil (SFdiv prec emax (SFmul prec emax h F2) r)) in
  let cx := to_u32 (floor (SFdiv prec emax
                             (SFadd prec emax (clamp v (SFopp h) h) h) r)) in
  (U < u32_max)%Z -> (0 <= cx <= U)%Z.
Proof.
  intros Hv Hh Hr Hph Hpr U cx HU.
  split; [apply to_u32_range|].
  assert (HU0 : (0 <= U)%Z) by apply to_u32_range.
  destruct (is_pos_cases h Hph) as [-> | (mh & eh & ->)].
  { (* an infinite world *)
    assert (E : SFdiv prec emax
                  (SFadd prec emax
                     (clamp v (SFopp (S754_infinity false)) (S754_infinity false))
                     (S754_infinity false)) r = S754_nan \/ U = u32_max).
    { destruct (is_pos_cases r Hpr) as [-> | (mr & er & ->)]; [left | by right].
      by destruct (clamp v _ _) as [?|[|]| |]. }
    destruct E as [E|E]; [|lia]. unfold cx. rewrite E. exact HU0. }
  pose proof (clamp_cases v mh eh Hv Hh) as Hc. cbv zeta in Hc.
  set (h := S754_finite false mh eh) in *.
  set (c := clamp v (SFopp h) h) in *.
  destruct Hc as [Hnan | (Hvc & Hfc & Hlo & Hhi)].
  { unfold cx. rewrite Hnan.
    by destruct (is_pos_cases r Hpr) as [-> | (mr & er & ->)]. }
  pose proof (sum_Rounds c mh eh Hvc Hh Hfc Hlo) as RA. fold h in RA.
  pose proof (SFmul_two_Rounds mh eh Hh) as RB. fold h in RB.
  rewrite <- F2_eq in RB.
  destruct (Rounds_valid _ _ RA) as [HvA HfA].
  destruct (Rounds_valid _ _ RB) as [HvB _].
  destruct (is_pos_cases r Hpr) as [-> | (mr & er & ->)].
  { (* an infinite radius: every normalised coordinate is 0 or a NaN *)
    unfold cx.
    destruct HfA as [HfA | ->]; [|exact HU0].
    by destruct (SFadd prec emax c h) as [[|]| | |[|] ? ?]. }
  destruct (Rounds_mono _ _ _ _ RA RB ltac:(lra)) as [Hinf | (HfA' & HfB & Hle)].
  { unfold U in HU. rewrite Hinf in HU. by vm_compute in HU. }
  destruct (quotient_le _ _ mr er HfA' HfB HvA HvB Hle) as [Hq | Hq].
  - exact Hq.
  - fold U in Hq. lia.
Qed.

Lemma fin_nonneg (a : f32) : fin a -> 0 <= to_Q a.
Proof.
  destruct a as [[|]| | |[|] m e]; try done; intros _.
  pose proof (to_Q_pos m e). lra.
Qed.

End CellBound.

(** * The Force Integrator: traversal and dispatch *)

Section SimTraversal.
Import sim_wgsl GridSpec.
Context {F : Type} `{Scalar F} `{ScalarSqrt F}.
Variable sim : Sim F.
Variable particles : list (Particle F).
Variable matrix : list F.
Variable heads : list Z.
Variable linked : list Z.
Variable colourIdx : list Z.

Local Abbreviation visit := (sim_wgsl.visit sim particles matrix colourIdx).
Local Abbreviation walk := (sim_wgsl.walk sim particles matrix linked colourIdx).
Local Abbreviation GridWf := (GridSpec.GridWf heads linked).
Local Abbreviation simulate :=
  (sim_wgsl.simulate sim particles matrix heads linked colourIdx).

(** The [while] loop folds [visit] over the chain it walks. *)
Lemma walk_Walk j l idx pos myColour :
  Walk linked j l -> forall fuel acc, (length l < fuel)%nat ->
  walk fuel idx pos myColour j acc =
    Some (fold_left (fun a i => visit idx pos myColour (Z.of_nat i) a) l acc).
Proof.
  induction 1 as [j Hj | i j l Hi _ IH]; intros fuel acc Hf.
  - destruct fuel as [|fuel]; [simpl in Hf; lia|].
    simpl. destruct (Z.ltb_spec j 0); [done | lia].
  - destruct fuel as [|fuel]; [simpl in Hf; lia|].
    simpl in *. destruct (Z.ltb_spec (Z.of_nat i) 0); [lia|].
    unfold load at 1. destruct (Z.ltb_spec (Z.of_nat i) 0); [lia|].
    rewrite Nat2Z.id, Hi. simpl. apply IH. lia.
Qed.

Lemma Walk_suffix j l i :
  Walk linked j l -> i ∈ l ->
  exists l', Walk linked (Z.of_nat i) l' /\ (length l' <= length l)%nat.
Proof.
  induction 1 as [j Hj | k j l Hk Hw IH]; intros Hi.
  - by apply elem_of_nil in Hi.
  - apply elem_of_cons in Hi as [-> | Hi].
    + exists (k :: l). split; [by econstructor | done].
    + destruct (IH Hi) as (l' & Hl' & Hlen). exists l'. split; [done|].
      simpl. lia.
Qed.

Lemma neighbourCell_terminates n fuel idx pos myColour cx cy dim dx dy acc :
  GridWf n -> (n < fuel)%nat ->
  is_Some (neighbourCell sim particles matrix heads linked colourIdx
             fuel idx pos myColour cx cy dim dx dy acc).
Proof.
  intros [Hheads Hzero] Hf. unfold neighbourCell.
  destruct (_ || _); [done|].
  assert (Hj : exists l, Walk linked (load 0 heads
              (cellIndex (i32_wrap (cx + dx)) (i32_wrap (cy + dy)) dim)) l /\
              (length l <= n)%nat).
  { unfold load. destruct (_ <? _); [done|].
    destruct (heads !! _) as [h|] eqn:Hh; simpl; [by eapply Hheads | done]. }
  destruct Hj as (l & Hl & Hlen).
  erewrite walk_Walk by (done || lia). done.
Qed.

Lemma accumulate_terminates n fuel idx pos myColour cx cy dim cells :
  GridWf n -> (n < fuel)%nat -> forall acc,
  is_Some (accumulate sim particles matrix heads linked colourIdx
             fuel idx pos myColour cx cy dim cells acc).
Proof.
  intros Hwf Hf. induction cells as [|[dx dy] cells IH]; intros acc; [done|].
  simpl.
  destruct (neighbourCell_terminates n fuel idx pos myColour cx cy dim dx dy acc)
    as [acc' ->]; [done..|].
  simpl. apply IH.
Qed.

Lemma simulate_terminates n fuel idx :
  GridWf n -> (n < fuel)%nat -> is_Some (simulate fuel idx).
Proof.
  intros Hwf Hf. unfold sim_wgsl.simulate, integrated, forceSum.
  edestruct accumulate_terminates as [acc ->]; [done..|].
  simpl. by destruct (borderHandling _ _ _).
Qed.

(** The sim dispatch writes slot [idx] of [output] for every invocation
    [idx] below the particle count, and nothing else. *)
Lemma sim_dispatch_spec fuel order : forall output,
  (forall idx, (idx < length particles)%nat -> is_Some (simulate fuel idx)) ->
  (length particles <= length output)%nat ->
  exists out,
    dispatch sim particles matrix heads linked colourIdx fuel order output = Some out /\
    length out = length output /\
    forall idx,
      out !! idx =
        if decide (idx ∈ order /\ (idx < length particles)%nat)
        then simulate fuel idx else output !! idx.
Proof.
  induction order as [|gid order IH]; intros output Hsim Hlen.
  - exists output. split; [done|]. split; [done|]. intros idx.
    rewrite decide_False; [done|]. intros [Hin _]. by apply elem_of_nil in Hin.
  - simpl. unfold main at 1.
    destruct (decide (length particles <= gid)%nat) as [Hge | Hlt].
    + simpl. destruct (IH output Hsim Hlen) as (out & -> & Hl & Hout).
      exists out. split; [done|]. split; [done|]. intros idx. rewrite Hout.
      destruct (decide (idx ∈ order /\ _)) as [[Hin Hidx] | Hn].
      * rewrite decide_True; [done|]. split; [by right | done].
      * rewrite decide_False; [done|]. intros [Hin Hidx].
        apply elem_of_cons in Hin as [-> | Hin]; [lia | tauto].
    + destruct (Hsim gid) as [p' Hp']; [lia|]. rewrite Hp'. simpl.
      rewrite decide_True by lia. simpl.
      destruct (IH (<[gid := p']> output)) as (out & -> & Hl & Hout);
        [done | by rewrite length_insert |].
      exists out. split; [done|]. split; [by rewrite Hl, length_insert|].
      intros idx. rewrite Hout.
      destruct (decide (idx ∈ order /\ _)) as [[Hin Hidx] | Hn].
      * rewrite decide_True; [done|]. split; [by right | done].
      * destruct (decide (idx = gid)) as [-> | Hne].
        -- rewrite decide_True by (split; [left | lia]).
           rewrite list_lookup_insert_eq by lia. done.
        -- rewrite list_lookup_insert_ne by done.
           rewrite decide_False; [done|]. intros [Hin Hidx].
           apply elem_of_cons in Hin as [-> | Hin]; [done | tauto].
Qed.
End SimTraversal.

(** * The engine: one tick *)

Section EngineFacts.
Import LinkedListEngine GridSpec.
Context {F : Type} `{Scalar F} `{ScalarSqrt F}.

Lemma invocations_ge (n : nat) : (n <= invocations n)%nat.
Proof.
  unfold invocations.
  pose proof (Nat.div_mod_eq (n + 63) 64) as Hd.
  pose proof (Nat.mod_upper_bound (n + 63) 64). lia.
Qed.

Lemma index_simBindGroups s src dst :
  index simBindGroups s = Some (src, dst) ->
  (s = 0 /\ src = 0 /\ dst = 1) \/ (s = 1 /\ src = 1 /\ dst = 0).
Proof.
  unfold index, simBindGroups. destruct (Z.ltb_spec s 0); [done|].
  destruct (Z.to_nat s) as [|[|n]] eqn:Hs; simpl; intros [= <- <-];
    [left | right]; (split; [lia | done]).
Qed.

Lemma index_constructBindGroups s src dst :
  index simBindGroups s = Some (src, dst) ->
  index constructBindGroups s = Some src.
Proof.
  intros Hs. destruct (index_simBindGroups _ _ _ Hs) as [(-> & -> & ->) | (-> & -> & ->)]; done.
Qed.

(** The grid a completed construct pass leaves is well formed for the
    traversals of the sim pass. *)
Lemma GridInv_GridWf (sim : Sim F) (particles : list (Particle F))
    (nCells : nat) (done : list nat) (g : construct_wgsl.Grid) :
  GridInv sim particles nCells done g ->
  done ≡ₚ seq 0 (length particles) ->
  (forall i, (i < length particles)%nat -> (cellN sim particles i < nCells)%nat) ->
  (0 < length particles)%nat ->
  GridWf (construct_wgsl.heads g) (construct_wgsl.linked g) (length particles).
Proof.
  intros (Hlh & Hll & Hw) Hdone Hcells Hpos.
  assert (Hlen : forall c, (length (bucket (cellN sim particles) done c)
                             <= length particles)%nat).
  { intros c. unfold bucket. rewrite length_reverse.
    pose proof (length_filter (fun i => cellN sim particles i = c) done) as Hf.
    assert (length done = length particles) by (by rewrite Hdone, length_seq).
    simpl. lia. }
  split.
  - intros c h Hh. pose proof (lookup_lt_Some _ _ _ Hh) as Hc.
    rewrite Hlh in Hc. destruct (Hw _ Hc) as (h' & Hh' & Hwalk).
    rewrite Hh in Hh'. injection Hh' as <-. eauto.
  - destruct (Hw _ (Hcells O Hpos)) as (h & Hh & Hwalk).
    destruct (Walk_suffix _ _ _ O Hwalk) as (l' & Hl' & Hlen').
    { apply elem_of_bucket. split; [|done].
      rewrite Hdone. apply elem_of_seq. lia. }
    exists l'. split; [done|]. specialize (Hlen (cellN sim particles O)). lia.
Qed.
End EngineFacts.

Section Tick.
Import LinkedListEngine GridSpec.
Context {F : Type} `{Scalar F} `{ScalarSqrt F}.

(** One tick on an engine whose buffers have the sizes the constructor
    gives them: it ends, the buffer the sim pass reads ([src]) is as before,
    and slot [idx] of the other one ([dst]) holds what invocation [idx]
    computed from [src] and the grid [g] of this frame. *)
Lemma tick_spec (fuel : nat) (cOrder sOrder : list nat) (e : Engine)
    (count nCells : nat) (src dst : Z) (bin bout : list (Particle F)) :
  index simBindGroups (step e) = Some (src, dst) ->
  particleBuffer e src = Some bin ->
  particleBuffer e dst = Some bout ->
  length bin = count -> length bout = count ->
  length (linkedBuffer e) = count ->
  Z.of_nat count <= 2147483648 ->
  headsInitBuffer e = replicate nCells (-1) ->
  (forall p, p ∈ bin -> construct_wgsl.cellOf (simBuffer e) p < Z.of_nat nCells) ->
  cOrder ≡ₚ seq 0 (invocations count) ->
  sOrder ≡ₚ seq 0 (invocations count) ->
  (count < fuel)%nat ->
  exists e' g out,
    tick fuel cOrder sOrder e = Some e' /\
    construct_wgsl.dispatch (simBuffer e) bin cOrder
      {| construct_wgsl.heads := headsInitBuffer e;
         construct_wgsl.linked := linkedBuffer e |} = Some g /\
    particleBuffer e' src = Some bin /\
    particleBuffer e' dst = Some out /\
    length out = count /\
    step e' = 1 - step e /\
    forall idx, (idx < count)%nat ->
      exists p', out !! idx = Some p' /\
        sim_wgsl.simulate (simBuffer e) bin (matrixBuffer e)
          (construct_wgsl.heads g) (construct_wgsl.linked g)
          (colourBuffer e) fuel idx = Some p'.
Proof.
  intros Hs Hin Hout Hlin Hlout Hll HN Hinit Hcells HcO HsO Hfuel.
  destruct (construct_pass (simBuffer e) bin nCells cOrder (invocations count)
              (linkedBuffer e)) as (g & processed & Hg & Hinv & Hdone & HcellN);
    [lia | lia | done | rewrite Hlin; apply invocations_ge | done |].
  rewrite <- Hinit in Hg.
  assert (Hsim : forall idx, (idx < length bin)%nat ->
            is_Some (sim_wgsl.simulate (simBuffer e) bin (matrixBuffer e)
               (construct_wgsl.heads g) (construct_wgsl.linked g)
               (colourBuffer e) fuel idx)).
  { intros idx Hidx. apply (simulate_terminates _ _ _ _ _ _ (length bin)); [|lia].
    eapply GridInv_GridWf; eauto. lia. }
  destruct (sim_dispatch_spec (simBuffer e) bin (matrixBuffer e)
              (construct_wgsl.heads g) (construct_wgsl.linked g)
              (colourBuffer e) fuel sOrder bout Hsim)
    as (out & Hd & Hlen & Hslots); [lia|].
  assert (Hfinal : forall idx, (idx < count)%nat ->
            exists p', out !! idx = Some p' /\
              sim_wgsl.simulate (simBuffer e) bin (matrixBuffer e)
                (construct_wgsl.heads g) (construct_wgsl.linked g)
                (colourBuffer e) fuel idx = Some p').
  { intros idx Hidx. destruct (Hsim idx) as [p' Hp']; [lia|].
    exists p'. split; [|done]. rewrite Hslots, decide_True; [done|].
    split; [|lia]. rewrite HsO. apply elem_of_seq.
    pose proof (invocations_ge count). lia. }
  pose proof (index_constructBindGroups _ _ _ Hs) as Hc.
  unfold tick. rewrite Hc. simpl. rewrite Hin. simpl. rewrite Hg. simpl.
  rewrite Hs. simpl. rewrite Hin. simpl. rewrite Hout. simpl. rewrite Hd. simpl.
  destruct (index_simBindGroups _ _ _ Hs) as [(Hst & -> & ->) | (Hst & -> & ->)];
    simpl; eexists _, g, out; (split; [done|]); (split; [done|]);
    simpl in *; injection Hin as <-; (split; [done|]); (split; [done|]);
    (split; [lia|]); (split; [done|]); done.
Qed.

(** After a tick [currentBufferIndex] is the index of the buffer the sim
    pass of that tick read, not of the one it wrote. *)
Lemma tick_currentBufferIndex (fuel : nat) (cOrder sOrder : list nat)
    (e e' : Engine) :
  tick fuel cOrder sOrder e = Some e' ->
  exists src dst,
    index simBindGroups (step e) = Some (src, dst) /\
    writtenBuffer e = Some dst /\
    currentBufferIndex e' = src /\
    currentBufferIndex e' <> dst.
Proof.
  unfold tick. intros Ht.
  apply bind_Some in Ht as (cIn & _ & Ht).
  apply bind_Some in Ht as (b0 & _ & Ht).
  apply bind_Some in Ht as (g & _ & Ht).
  apply bind_Some in Ht as ([sIn sOut] & Hs & Ht).
  apply bind_Some in Ht as (b1 & _ & Ht).
  apply bind_Some in Ht as (b2 & _ & Ht).
  apply bind_Some in Ht as (out & _ & Ht).
  apply bind_Some in Ht as (bufs & _ & Ht).
  injection Ht as <-. exists sIn, sOut. split; [done|].
  unfold writtenBuffer, currentBufferIndex. rewrite Hs. simpl.
  destruct (index_simBindGroups _ _ _ Hs) as [(-> & -> & ->) | (-> & -> & ->)];
    done.
Qed.
End Tick.

(** * The Force Integrator in binary32: cutoff and borders *)

Section F32Pairs.
Import F32 F32Spec sim_wgsl.

(** A zero or a NaN: what [x - x] can be. *)
Local Abbreviation zero_or_nan a := (is_zero a \/ a = S754_nan).





Section Pair.
Variable sim : Sim f32.
Variable particles : list (Particle f32).
Variable matrix : list f32.
Variable colourIdx : list Z.

Local Abbreviation pairForce := (sim_wgsl.pairForce sim particles matrix colourIdx).
Local Abbreviation visit := (sim_wgsl.visit sim particles matrix colourIdx).
Local Abbreviation distSqTo := (sim_wgsl.distSqTo sim particles).



End Pair.
End F32Pairs.

(** * The cell of a particle in exact arithmetic *)

Section ExactGrid.
Import Exact construct_wgsl.
Local Open Scope Q_scope.

Lemma trunc_inject_Z (z : Z) : trunc (inject_Z z) = z.
Proof. unfold trunc. simpl. apply Z.quot_1_r. Qed.

Lemma clamp_bounds (v h : Q) :
  0 <= h -> - h <= clamp v (- h) h /\ clamp v (- h) h <= h.
Proof.
  intros Hh. unfold clamp, f_max, f_min.
  change (@f_neg Q scalar h) with (- h).
  destruct (f_lt v (- h)) eqn:E1.
  - destruct (f_lt h (- h)) eqn:E2.
    + apply f_lt_spec in E2. lra.
    + lra.
  - apply f_lt_false in E1. destruct (f_lt h v) eqn:E2.
    + lra.
    + apply f_lt_false in E2. lra.
Qed.

Section Cell.
Variable sim : Sim Q.
Hypothesis r_pos : 0 < r sim.
Hypothesis half_pos : 0 < worldSize sim.

Local Abbreviation normQ := (GridSpec.normalised sim).

Lemma normQ_bounds v : 0 <= normQ v /\ normQ v <= worldSize sim * 2 / r sim.
Proof.
  unfold GridSpec.normalised. change (@f_neg Q scalar) with Qopp.
  change (@f_add Q scalar) with Qplus. change (@f_div Q scalar) with Qdiv.
  destruct (clamp_bounds v (worldSize sim)) as [Hlo Hhi]; [lra|].
  split.
  - apply Qle_shift_div_l; [done|]. lra.
  - unfold Qdiv. apply Qmult_le_compat_r; [lra|].
    apply Qinv_le_0_compat. lra.
Qed.

Lemma cellCoord_floor v :
  cellCoord v sim = u32_sat (Qfloor (normQ v)).
Proof.
  unfold cellCoord. cbn. by rewrite trunc_inject_Z.
Qed.

Lemma gridDim_ceiling :
  gridDim sim = u32_wrap (u32_sat (Qceiling (worldSize sim * 2 / r sim)) + 1).
Proof.
  unfold gridDim. cbn. by rewrite trunc_inject_Z.
Qed.

(** While the grid dimension does not wrap, a cell coordinate is the
    floor of the normalised coordinate and is below the dimension. *)
Lemma cellCoord_lt_gridDim v :
  (f_u32 (f_ceil (worldSize sim * F2 / r sim)%F) < u32_max)%Z ->
  (cellCoord v sim = Qfloor (normQ v) /\
   0 <= cellCoord v sim < gridDim sim)%Z.
Proof.
  intros Hsat.
  assert (Hsat' : (u32_sat (Qceiling (worldSize sim * 2 / r sim)) < u32_max)%Z).
  { revert Hsat. cbn. by rewrite trunc_inject_Z. }
  clear Hsat. rewrite cellCoord_floor, gridDim_ceiling.
  destruct (normQ_bounds v) as [Hlo Hhi].
  set (K := Qceiling (worldSize sim * 2 / r sim)) in *.
  assert (H0 : (0 <= Qfloor (normQ v))%Z).
  { change 0%Z with (Qfloor 0). by apply Qfloor_resp_le. }
  assert (H1 : (Qfloor (normQ v) <= K)%Z).
  { transitivity (Qfloor (worldSize sim * 2 / r sim)).
    - by apply Qfloor_resp_le.
    - unfold K. rewrite Zle_Qle. apply Qle_floor_ceiling. }
  unfold u32_sat, u32_wrap, u32_max in *.
  rewrite Z.mod_small by lia. lia.
Qed.

(** While the cell coordinate does not saturate, the clamped position
    lies in the world-space bounds of its cell. *)
Lemma cell_bounds v :
  normQ v < 4294967296 ->
  let c := clamp v (- worldSize sim) (worldSize sim) in
  let cx := inject_Z (cellCoord v sim) in
  cx * r sim - worldSize sim <= c /\ c < (cx + 1) * r sim - worldSize sim.
Proof.
  intros Hsat c cx.
  destruct (normQ_bounds v) as [Hlo Hhi].
  assert (H0 : (0 <= Qfloor (normQ v))%Z).
  { change 0%Z with (Qfloor 0). by apply Qfloor_resp_le. }
  assert (H1 : (Qfloor (normQ v) < 4294967296)%Z).
  { rewrite Zlt_Qlt. eapply Qle_lt_trans; [apply Qfloor_le | done]. }
  assert (Hcx : cx = inject_Z (Qfloor (normQ v))).
  { unfold cx. rewrite cellCoord_floor. f_equal.
    unfold u32_sat, u32_max. lia. }
  assert (E : normQ v * r sim == c + worldSize sim).
  { unfold GridSpec.normalised. change (@f_neg Q scalar) with Qopp.
    change (@f_add Q scalar) with Qplus. change (@f_div Q scalar) with Qdiv.
    fold c. field. lra. }
  pose proof (Qfloor_le (normQ v)) as Hfl.
  pose proof (Qlt_floor (normQ v)) as Hlt.
  rewrite inject_Z_plus in Hlt. change (inject_Z 1) with 1 in Hlt.
  rewrite Hcx. split.
  - assert (inject_Z (Qfloor (normQ v)) * r sim <= normQ v * r sim)
      by (apply Qmult_le_compat_r; lra).
    lra.
  - assert (normQ v * r sim < (inject_Z (Qfloor (normQ v)) + 1) * r sim)
      by (apply Qmult_lt_compat_r; lra).
    lra.
Qed.

(** While the grid dimension does not wrap, the flat index of a cell is
    below the number of cells. *)
Lemma cellOf_lt_cells (p : Particle Q) :
  (f_u32 (f_ceil (worldSize sim * F2 / r sim)%F) < u32_max)%Z ->
  (0 <= cellOf sim p < gridDim sim * gridDim sim)%Z.
Proof.
  intros Hsat. unfold cellOf, cellIndex.
  destruct (cellCoord_lt_gridDim (x4 (pos p)) Hsat) as [_ Hx].
  destruct (cellCoord_lt_gridDim (y4 (pos p)) Hsat) as [_ Hy].
  set (cx := cellCoord _ _) in *. set (cy := cellCoord (y4 _) _) in *.
  set (dim := gridDim sim) in *.
  pose proof (Z.mod_pos_bound (cy * dim + cx) 4294967296 eq_refl) as Hm.
  pose proof (Z.mod_le (cy * dim + cx) 4294967296) as Hle.
  unfold u32_wrap. nia.
Qed.
End Cell.
End ExactGrid.

(** * The claims *)

Section Claims.
Import F32 Exact F32Spec Examples GridSpec.

(** ** C1: the buffer index after a tick *)

(** C1 (as the code behaves).  On a fresh engine ([step = 0]) one tick runs
    the sim pass from buffer 0 into buffer 1, and [currentBufferIndex] is
    then 0: the index of the buffer that was read, while the freshly
    integrated state is in buffer 1. *)
Theorem currentBufferIndex_names_source_buffer :
  let e := engineOf 4 sim4 fourColours four in
  let after := LinkedListEngine.tick 5 backwards backwards e in
  LinkedListEngine.step e = 0 /\
  LinkedListEngine.writtenBuffer e = Some 1 /\
  (LinkedListEngine.currentBufferIndex <$> after) = Some 0 /\
  (after ≫= fun e' => LinkedListEngine.particleBuffer e' 0) = Some four /\
  (after ≫= fun e' => LinkedListEngine.particleBuffer e' 1) <> Some four.
Proof. vm_compute. repeat split. discriminate. Qed.

(** ** C2: grid completeness *)

(** C2.  For every particle array (of at most 2^31 particles, so that an
    index fits [i32]), every parameter record under which each particle's
    cell lies in the head table, and every order in which the invocations
    are serialized: from a head table of sentinels the dispatch ends, every
    chain [head -> next -> ... -> sentinel] is read back with fuel [N + 1],
    the chains together are a permutation of [0 .. N-1] (so no index is
    missing, in two chains, or twice in one), and the chain of cell [c]
    holds exactly the particles whose cell is [c]. *)
Theorem grid_completeness {F : Type} `{Scalar F} (sim : Sim F)
    (particles : list (Particle F)) (nCells : nat)
    (order : list nat) (nThreads : nat) (linked0 : list Z) :
  Z.of_nat (length particles) <= 2147483648 ->
  length linked0 = length particles ->
  (forall p, p ∈ particles -> construct_wgsl.cellOf sim p < Z.of_nat nCells) ->
  (length particles <= nThreads)%nat ->
  order ≡ₚ seq 0 nThreads ->
  exists g cs,
    construct_wgsl.dispatch sim particles order
      {| construct_wgsl.heads := replicate nCells (-1);
         construct_wgsl.linked := linked0 |} = Some g /\
    construct_wgsl.chains (S (length particles)) g = Some cs /\
    length cs = nCells /\
    concat cs ≡ₚ seq 0 (length particles) /\
    forall c l i, cs !! c = Some l ->
      (i ∈ l <-> exists p, particles !! i = Some p /\
                           construct_wgsl.cellOf sim p = Z.of_nat c).
Proof.
  intros HN Hl0 Hcells HT Hperm.
  destruct (construct_pass sim particles nCells order nThreads linked0)
    as (g & processed & Hd & (Hlh & Hll & Hw) & Hdone & HcellN); auto.
  exists g, (bucket (cellN sim particles) processed <$> seq 0 nCells).
  split; [done|]. split; [|split; [|split]].
  - unfold construct_wgsl.chains. apply mapM_Some.
    apply Forall2_same_length_lookup_2.
    { by rewrite length_fmap, length_seq. }
    intros c h l Hh Hl.
    apply list_lookup_fmap_Some in Hl as (c' & -> & Hc').
    apply lookup_seq in Hc' as [-> Hc]. cbv beta.
    destruct (Hw _ Hc) as (h' & Hh' & Hwalk).
    rewrite Hh in Hh'. injection Hh' as <-.
    apply Walk_chain; [done|].
    unfold bucket. rewrite length_reverse.
    pose proof (length_filter (fun i => cellN sim particles i = c) processed) as Hlen.
    assert (length processed = length particles) as Hld
      by (by rewrite Hdone, length_seq).
    simpl. lia.
  - by rewrite length_fmap, length_seq.
  - rewrite buckets_Permutation, filter_all; [done|].
    apply Forall_forall. intros i Hi. apply HcellN.
    rewrite Hdone in Hi. apply elem_of_seq in Hi. lia.
  - intros c l i Hl.
    apply list_lookup_fmap_Some in Hl as (c' & -> & Hc').
    apply lookup_seq in Hc' as [-> Hc]. simpl.
    rewrite elem_of_bucket, Hdone, elem_of_seq. unfold cellN. split.
    + intros [Hi Hci].
      destruct (lookup_lt_is_Some_2 particles i) as [p Hp]; [lia|].
      exists p. split; [done|]. rewrite Hp in Hci.
      assert (0 <= construct_wgsl.cellOf sim p) by (apply Z.mod_pos_bound; lia).
      lia.
    + intros (p & Hp & Hcp). rewrite Hp. split; [|lia].
      apply lookup_lt_Some in Hp. lia.
Qed.

Lemma grid_completeness_witness :
  exists g cs,
    construct_wgsl.dispatch sim4 four backwards
      {| construct_wgsl.heads := replicate 16 (-1);
         construct_wgsl.linked := [0; 0; 0; 0] |} = Some g /\
    construct_wgsl.chains 5 g = Some cs /\
    length cs = 16%nat /\
    concat cs ≡ₚ seq 0 4 /\
    forall c l i, cs !! c = Some l ->
      (i ∈ l <-> exists p, four !! i = Some p /\
                           construct_wgsl.cellOf sim4 p = Z.of_nat c).
Proof.
  apply (grid_completeness sim4 four 16 backwards 64 [0; 0; 0; 0]).
  - vm_compute. discriminate.
  - reflexivity.
  - intros p Hp. unfold four in Hp.
    repeat (apply elem_of_cons in Hp as [-> | Hp]; [vm_compute; reflexivity|]).
    by apply elem_of_nil in Hp.
  - vm_compute. lia.
  - apply reverse_Permutation.
Defined.

(** ** C3: boundary values of the force curve *)

(** C3 (against the claim).  In binary32, with [beta] the float nearest to
    0.1 and [coeff = 1], [forceCurve(beta, beta, coeff)] is [-2^-23], not
    0; with [beta] the float nearest to 0.3, the default,
    [forceCurve((1+beta)/2, beta, coeff)] is [1 - 2^-24], not [coeff]. *)
Lemma forceCurve_f32_rounding :
  let b := lit 1 10 in
  let b' := lit 3 10 in
  let c := lit 1 1 in
  (SFltb F0 b = true /\ SFltb b F1 = true /\
   SFleb (SFopp F1) c = true /\ SFleb c F1 = true /\
   sim_wgsl.forceCurve b b c = S754_finite true 8388608 (-46) /\
   SFeqb (sim_wgsl.forceCurve b b c) F0 = false) /\
  (SFltb F0 b' = true /\ SFltb b' F1 = true /\
   sim_wgsl.forceCurve ((F1 + b') / F2)%F b' c = S754_finite false 16777215 (-24) /\
   SFeqb (sim_wgsl.forceCurve ((F1 + b') / F2)%F b' c) c = false).
Proof. vm_compute. repeat split. Qed.

(** C3 (amended).  For every binary32 [beta] with [0 < beta < 1] and every
    [coeff], [forceCurve(0, beta, coeff) = -1] and
    [forceCurve(1, beta, coeff) = 0] exactly; in exact arithmetic, for every
    rational [0 < beta < 1] and every [coeff], all four boundary values
    hold: [-1] at 0, [0] at [beta], [0] at 1 and [coeff] at
    [(1 + beta) / 2]. *)
Theorem forceCurve_boundary_values (b c : f32) (bq cq : Q) :
  is_pos b -> SFltb b F1 = true ->
  (0 < bq)%Q -> (bq < 1)%Q ->
  (sim_wgsl.forceCurve F0 b c = SFopp F1 /\
   sim_wgsl.forceCurve F1 b c = F0) /\
  (sim_wgsl.forceCurve 0 bq cq == -1 /\
   sim_wgsl.forceCurve bq bq cq == 0 /\
   sim_wgsl.forceCurve 1 bq cq == 0 /\
   sim_wgsl.forceCurve ((1 + bq) / 2) bq cq == cq)%Q.
Proof.
  intros Hb0 Hb1 Hq0 Hq1. split.
  - split; [by apply forceCurve_at_zero | by apply forceCurve_at_one].
  - by apply forceCurve_exact.
Qed.

Lemma forceCurve_boundary_values_witness :
  (sim_wgsl.forceCurve F0 (lit 3 10) (lit (-1) 2) = SFopp F1 /\
   sim_wgsl.forceCurve F1 (lit 3 10) (lit (-1) 2) = F0) /\
  (sim_wgsl.forceCurve 0 (3 # 10) (-1 # 2) == -1 /\
   sim_wgsl.forceCurve (3 # 10) (3 # 10) (-1 # 2) == 0 /\
   sim_wgsl.forceCurve 1 (3 # 10) (-1 # 2) == 0 /\
   sim_wgsl.forceCurve ((1 + (3 # 10)) / 2) (3 # 10) (-1 # 2) == -1 # 2)%Q.
Proof.
  apply (forceCurve_boundary_values (lit 3 10) (lit (-1) 2) (3 # 10) (-1 # 2));
    reflexivity.
Defined.

(** ** C4: the cutoff of the pairwise force *)



(** ** C5: a particle exactly on the wall, wrap mode *)

(** C5 (against the claim).  Under toroidal wrap, after one tick a particle
    alone in the world, at rest at [x = +worldSize], is written to the
    other buffer as it was, with [x = +worldSize]: not below [worldSize],
    so outside [[-worldSize, worldSize)]. *)
Lemma wrap_leaves_particle_on_wall :
  let e := engineOf 1 defaultSim [0] onTheWall in
  border defaultSim = 1 /\
  onTheWall = [atRest (worldSize defaultSim) F0] /\
  (LinkedListEngine.tick 2 backwards backwards e
     ≫= fun e' => LinkedListEngine.particleBuffer e' 1) = Some onTheWall /\
  SFltb (worldSize defaultSim) (worldSize defaultSim) = false.
Proof. vm_compute. repeat split. Qed.

(** C5 (amended).  Under toroidal wrap with a positive world half-size
    (finite [1 - friction] and time step), a particle whose position on an
    axis is exactly [+worldSize], whose velocity on that axis is zero and on
    which no force acts along that axis, is after integration and border
    handling still exactly at [+worldSize] on that axis: within the closed
    interval [[-worldSize, worldSize]], and not below [worldSize]. *)
Theorem wrap_keeps_wall_position (sim : Sim f32) (pos vel acc : vec2 f32) :
  border sim = 1 ->
  is_pos (worldSize sim) ->
  is_finite (F1 - friction sim)%F -> is_finite (delta sim) ->
  let half := worldSize sim in
  let '(pos1, vel1) := sim_wgsl.integrate sim pos vel acc in
  let '(pos2, vel2) := sim_wgsl.borderHandling sim pos1 vel1 in
  (vx pos = half -> is_zero (vx vel) -> is_zero (vx acc) ->
     vx pos2 = half /\ SFleb (SFopp half) (vx pos2) = true /\
     SFleb (vx pos2) half = true /\ SFltb (vx pos2) half = false) /\
  (vy pos = half -> is_zero (vy vel) -> is_zero (vy acc) ->
     vy pos2 = half /\ SFleb (SFopp half) (vy pos2) = true /\
     SFleb (vy pos2) half = true /\ SFltb (vy pos2) half = false).
Proof.
  intros Hb Hh Hfr Hdt half.
  unfold sim_wgsl.integrate, sim_wgsl.borderHandling. rewrite Hb.
  cbv beta iota delta [Z.eqb Pos.eqb vadd vscale vx vy].
  assert (Haxis : forall p v a, p = half -> is_zero v -> is_zero a ->
    let p' := sim_wgsl.wrapAxis half
                (p + (v * (F1 - friction sim) + a * delta sim) * delta sim)%F in
    p' = half /\ SFleb (SFopp half) p' = true /\
    SFleb p' half = true /\ SFltb p' half = false).
  { intros p v a -> Hv Ha p'.
    assert (Hp' : p' = half).
    { unfold p'. change (@f_add f32 F32.scalar) with (SFadd prec emax).
      change (@f_mul f32 F32.scalar) with (SFmul prec emax).
      rewrite SFadd_zero_r; [|exact Hh|].
      - apply wrapAxis_boundary. by apply is_pos_nonneg.
      - apply SFmul_zero_l; [|exact Hdt].
        apply SFadd_zero_zero; apply SFmul_zero_l; assumption. }
    rewrite Hp'. split; [reflexivity|].
    split; [by apply SFleb_opp_pos|].
    split; [by apply SFleb_refl_pos | apply SFltb_irrefl]. }
  split; intros Hp Hv Ha; by apply Haxis.
Qed.

Lemma wrap_keeps_wall_position_witness :
  let half := worldSize defaultSim in
  let '(pos1, vel1) :=
    sim_wgsl.integrate defaultSim (Vec2 half half) (Vec2 F0 F0) (Vec2 F0 F0) in
  let '(pos2, vel2) := sim_wgsl.borderHandling defaultSim pos1 vel1 in
  (half = half -> is_zero F0 -> is_zero F0 ->
     vx pos2 = half /\ SFleb (SFopp half) (vx pos2) = true /\
     SFleb (vx pos2) half = true /\ SFltb (vx pos2) half = false) /\
  (half = half -> is_zero F0 -> is_zero F0 ->
     vy pos2 = half /\ SFleb (SFopp half) (vy pos2) = true /\
     SFleb (vy pos2) half = true /\ SFltb (vy pos2) half = false).
Proof.
  apply (wrap_keeps_wall_position defaultSim
           (Vec2 (worldSize defaultSim) (worldSize defaultSim))
           (Vec2 F0 F0) (Vec2 F0 F0)).
  - reflexivity.
  - reflexivity.
  - exact I.
  - exact I.
Defined.

(** ** C6: reflection off the walls *)

(** C6.  Under reflective mode (the world half-size not being negative),
    when the integration of particle [idx] ends, the record written for it
    has: if the integrated [x] exceeds [+worldSize], [x = worldSize] and
    [x] velocity [-|v|], which for a positive [v] is [-v], negative; if
    the integrated [x] is below [-worldSize], [x = -worldSize] and [x]
    velocity [|v|], which for a negative [v] is [-v], positive; and the
    same on the [y] axis. *)
Theorem reflect_sign_correction (sim : Sim f32) (particles : list (Particle f32))
    (matrix : list f32) (heads linked colourIdx : list Z) (fuel idx : nat) :
  border sim <> 1 ->
  is_nonneg (worldSize sim) ->
  is_Some (sim_wgsl.integrated sim particles matrix heads linked colourIdx fuel idx) ->
  let half := worldSize sim in
  exists pos1 vel1 p',
    sim_wgsl.integrated sim particles matrix heads linked colourIdx fuel idx
      = Some (pos1, vel1) /\
    sim_wgsl.simulate sim particles matrix heads linked colourIdx fuel idx
      = Some p' /\
    (SFltb half (vx pos1) = true ->
       x4 (pos p') = half /\ z4 (pos p') = SFopp (SFabs (vx vel1)) /\
       (is_pos (vx vel1) ->
          z4 (pos p') = SFopp (vx vel1) /\ is_neg (z4 (pos p')))) /\
    (SFltb (vx pos1) (SFopp half) = true ->
       x4 (pos p') = SFopp half /\ z4 (pos p') = SFabs (vx vel1) /\
       (is_neg (vx vel1) ->
          z4 (pos p') = SFopp (vx vel1) /\ is_pos (z4 (pos p')))) /\
    (SFltb half (vy pos1) = true ->
       y4 (pos p') = half /\ w4 (pos p') = SFopp (SFabs (vy vel1)) /\
       (is_pos (vy vel1) ->
          w4 (pos p') = SFopp (vy vel1) /\ is_neg (w4 (pos p')))) /\
    (SFltb (vy pos1) (SFopp half) = true ->
       y4 (pos p') = SFopp half /\ w4 (pos p') = SFabs (vy vel1) /\
       (is_neg (vy vel1) ->
          w4 (pos p') = SFopp (vy vel1) /\ is_pos (w4 (pos p')))).
Proof.
  intros Hb Hh [[pos1 vel1] Hint] half.
  unfold sim_wgsl.simulate. rewrite Hint. simpl.
  unfold sim_wgsl.borderHandling.
  destruct (Z.eqb_spec (border sim) 1) as [|_]; [done|].
  destruct (sim_wgsl.reflectAxis (worldSize sim) (vx pos1) (vx vel1))
    as [px velx] eqn:Hx.
  destruct (sim_wgsl.reflectAxis (worldSize sim) (vy pos1) (vy vel1))
    as [py vely] eqn:Hy.
  exists pos1, vel1. eexists. split; [done|]. split; [done|]. simpl.
  assert (Hhigh : forall p v p' v',
    sim_wgsl.reflectAxis half p v = (p', v') -> SFltb half p = true ->
    p' = half /\ v' = SFopp (SFabs v) /\
    (is_pos v -> v' = SFopp v /\ is_neg v')).
  { intros p v p' v' Hr Hp. rewrite reflectAxis_high in Hr by done.
    injection Hr as <- <-. split; [done|]. split; [done|].
    intros Hv. destruct (opp_abs_positive v Hv) as [-> Hn]. done. }
  assert (Hlow : forall p v p' v',
    sim_wgsl.reflectAxis half p v = (p', v') -> SFltb p (SFopp half) = true ->
    p' = SFopp half /\ v' = SFabs v /\
    (is_neg v -> v' = SFopp v /\ is_pos v')).
  { intros p v p' v' Hr Hp. rewrite reflectAxis_low in Hr by done.
    injection Hr as <- <-. split; [done|]. split; [done|].
    intros Hv. destruct (abs_negative v Hv) as [-> Hn]. done. }
  split; [|split; [|split]]; intros Hp.
  - destruct (Hhigh _ _ _ _ Hx Hp) as (E1 & E2 & E3). auto.
  - destruct (Hlow _ _ _ _ Hx Hp) as (E1 & E2 & E3). auto.
  - destruct (Hhigh _ _ _ _ Hy Hp) as (E1 & E2 & E3). auto.
  - destruct (Hlow _ _ _ _ Hy Hp) as (E1 & E2 & E3). auto.
Qed.

Lemma reflect_sign_correction_witness :
  let sim := withBorder 0 defaultSim in
  let half := worldSize sim in
  exists pos1 vel1 p',
    sim_wgsl.integrated sim crossing identityMatrix [0] [-1] [0] 2 0
      = Some (pos1, vel1) /\
    sim_wgsl.simulate sim crossing identityMatrix [0] [-1] [0] 2 0
      = Some p' /\
    (SFltb half (vx pos1) = true ->
       x4 (pos p') = half /\ z4 (pos p') = SFopp (SFabs (vx vel1)) /\
       (is_pos (vx vel1) ->
          z4 (pos p') = SFopp (vx vel1) /\ is_neg (z4 (pos p')))) /\
    (SFltb (vx pos1) (SFopp half) = true ->
       x4 (pos p') = SFopp half /\ z4 (pos p') = SFabs (vx vel1) /\
       (is_neg (vx vel1) ->
          z4 (pos p') = SFopp (vx vel1) /\ is_pos (z4 (pos p')))) /\
    (SFltb half (vy pos1) = true ->
       y4 (pos p') = half /\ w4 (pos p') = SFopp (SFabs (vy vel1)) /\
       (is_pos (vy vel1) ->
          w4 (pos p') = SFopp (vy vel1) /\ is_neg (w4 (pos p')))) /\
    (SFltb (vy pos1) (SFopp half) = true ->
       y4 (pos p') = SFopp half /\ w4 (pos p') = SFabs (vy vel1) /\
       (is_neg (vy vel1) ->
          w4 (pos p') = SFopp (vy vel1) /\ is_pos (w4 (pos p')))).
Proof.
  apply (reflect_sign_correction (withBorder 0 defaultSim) crossing
           identityMatrix [0] [-1] [0] 2 0).
  - discriminate.
  - reflexivity.
  - vm_compute. eexists. reflexivity.
Defined.

(** ** C7: the sim pass writes the other buffer only *)

(** C7.  For every engine whose two particle buffers and [linked] buffer
    hold [count] particles (at most 2^31), whose head table is reset to
    sentinels and covers the cell of every particle, and for every
    serialization of the two dispatches: a tick (with fuel above [count])
    ends; the buffer the sim pass reads is afterwards what it was before;
    the opposite buffer holds, at every index [idx < count], the record
    that invocation [idx] computed from the source buffer and the grid of
    this frame. *)
Theorem sim_pass_writes_opposite_buffer {F : Type} `{Scalar F} `{ScalarSqrt F}
    (fuel : nat) (cOrder sOrder : list nat) (e : LinkedListEngine.Engine)
    (count nCells : nat) (src dst : Z) (bin bout : list (Particle F)) :
  index LinkedListEngine.simBindGroups (LinkedListEngine.step e) = Some (src, dst) ->
  LinkedListEngine.particleBuffer e src = Some bin ->
  LinkedListEngine.particleBuffer e dst = Some bout ->
  length bin = count -> length bout = count ->
  length (LinkedListEngine.linkedBuffer e) = count ->
  Z.of_nat count <= 2147483648 ->
  LinkedListEngine.headsInitBuffer e = replicate nCells (-1) ->
  (forall p, p ∈ bin ->
     construct_wgsl.cellOf (LinkedListEngine.simBuffer e) p < Z.of_nat nCells) ->
  cOrder ≡ₚ seq 0 (LinkedListEngine.invocations count) ->
  sOrder ≡ₚ seq 0 (LinkedListEngine.invocations count) ->
  (count < fuel)%nat ->
  exists e' g out,
    LinkedListEngine.tick fuel cOrder sOrder e = Some e' /\
    construct_wgsl.dispatch (LinkedListEngine.simBuffer e) bin cOrder
      {| construct_wgsl.heads := LinkedListEngine.headsInitBuffer e;
         construct_wgsl.linked := LinkedListEngine.linkedBuffer e |} = Some g /\
    src <> dst /\
    LinkedListEngine.particleBuffer e' src = Some bin /\
    LinkedListEngine.particleBuffer e' dst = Some out /\
    length out = count /\
    forall idx, (idx < count)%nat ->
      exists p', out !! idx = Some p' /\
        sim_wgsl.simulate (LinkedListEngine.simBuffer e) bin
          (LinkedListEngine.matrixBuffer e)
          (construct_wgsl.heads g) (construct_wgsl.linked g)
          (LinkedListEngine.colourBuffer e) fuel idx = Some p'.
Proof.
  intros Hs Hin Hout Hlin Hlout Hll HN Hinit Hcells HcO HsO Hfuel.
  destruct (tick_spec fuel cOrder sOrder e count nCells src dst bin bout)
    as (e' & g & out & Ht & Hg & Hsrc & Hdst & Hlen & _ & Hslots); try done.
  exists e', g, out. repeat (split; [done|]).
  split; [|by repeat (split; [done|])].
  destruct (index_simBindGroups _ _ _ Hs) as [(_ & -> & ->) | (_ & -> & ->)]; done.
Qed.

Lemma sim_pass_writes_opposite_buffer_witness :
  let e := engineOf 4 sim4 fourColours four in
  exists e' g out,
    LinkedListEngine.tick 5 backwards backwards e = Some e' /\
    construct_wgsl.dispatch (LinkedListEngine.simBuffer e) four backwards
      {| construct_wgsl.heads := LinkedListEngine.headsInitBuffer e;
         construct_wgsl.linked := LinkedListEngine.linkedBuffer e |} = Some g /\
    0 <> 1 /\
    LinkedListEngine.particleBuffer e' 0 = Some four /\
    LinkedListEngine.particleBuffer e' 1 = Some out /\
    length out = 4%nat /\
    forall idx, (idx < 4)%nat ->
      exists p', out !! idx = Some p' /\
        sim_wgsl.simulate (LinkedListEngine.simBuffer e) four
          (LinkedListEngine.matrixBuffer e)
          (construct_wgsl.heads g) (construct_wgsl.linked g)
          (LinkedListEngine.colourBuffer e) 5 idx = Some p'.
Proof.
  apply (sim_pass_writes_opposite_buffer 5 backwards backwards
           (engineOf 4 sim4 fourColours four) 4 2704 0 1 four four).
  - reflexivity.
  - reflexivity.
  - reflexivity.
  - reflexivity.
  - reflexivity.
  - reflexivity.
  - vm_compute. discriminate.
  - reflexivity.
  - intros p Hp. unfold four in Hp.
    repeat (apply elem_of_cons in Hp as [-> | Hp]; [vm_compute; reflexivity|]).
    by apply elem_of_nil in Hp.
  - apply reverse_Permutation.
  - apply reverse_Permutation.
  - vm_compute. lia.
Defined.

(** ** C8: scaling and integration *)

(** C8 (against the claim).  With the vortex flag set, a particle alone in
    the world with velocity (0, 1) and default parameters: the pairwise sum
    is zero, the code adds the vortex term after the scaling by
    [force * r], and integrates to another state than the claim's formula,
    which scales the vortex term too. *)
Lemma vortex_term_is_not_scaled :
  let sim := withVortex 1 defaultSim in
  let p := load sim_wgsl.zeroParticle moving 0 in
  let sum := sim_wgsl.forceSum sim moving identityMatrix [0] [-1] [0] 2 0 in
  let code := sim_wgsl.integrated sim moving identityMatrix [0] [-1] [0] 2 0 in
  let claimed := AsClaimed.integrate sim (xy (pos p)) (zw (pos p)) <$> sum in
  sum = Some (Vec2 F0 F0) /\
  code <> claimed /\
  ((fun s => vx (snd s)) <$> code) = Some (S754_finite true 13743895 (-36)) /\
  ((fun s => vx (snd s)) <$> claimed) = Some (S754_finite true 12884901 (-32)).
Proof. vm_compute. repeat split. discriminate. Qed.

(** C8 (amended).  For every particle [idx] whose force loop ends with the
    pairwise sum [sum]: the code scales [sum] by [force * r], then adds the
    vortex term [(-vel.y, vel.x) * 0.01], unscaled, when the flag is set,
    and with the result [f] produces exactly
    [velocity' = velocity * (1 - friction) + f * delta] and
    [position' = position + velocity' * delta], before border handling. *)
Theorem integration_step {F : Type} `{Scalar F} `{ScalarSqrt F}
    (sim : Sim F) (particles : list (Particle F)) (matrix : list F)
    (heads linked colourIdx : list Z) (fuel idx : nat) :
  is_Some (sim_wgsl.forceSum sim particles matrix heads linked colourIdx fuel idx) ->
  let p := load sim_wgsl.zeroParticle particles (Z.of_nat idx) in
  let position := xy (pos p) in
  let velocity := zw (pos p) in
  exists sum,
    sim_wgsl.forceSum sim particles matrix heads linked colourIdx fuel idx
      = Some sum /\
    let scaled := vscale sum (force sim * r sim)%F in
    let f := if vortex sim =? 1
             then vadd scaled
                    (vscale (Vec2 (- vy velocity)%F (vx velocity)) (f_lit 1 100))
             else scaled in
    let velocity' :=
      vadd (vscale velocity (F1 - friction sim)%F) (vscale f (delta sim)) in
    let position' := vadd position (vscale velocity' (delta sim)) in
    sim_wgsl.integrated sim particles matrix heads linked colourIdx fuel idx
      = Some (position', velocity').
Proof.
  intros [sum Hsum] p position velocity. exists sum. split; [done|].
  unfold sim_wgsl.integrated. rewrite Hsum. reflexivity.
Qed.

Lemma integration_step_witness :
  let sim := withVortex 1 defaultSim in
  let p := load sim_wgsl.zeroParticle moving 0 in
  let position := xy (pos p) in
  let velocity := zw (pos p) in
  exists sum,
    sim_wgsl.forceSum sim moving identityMatrix [0] [-1] [0] 2 0 = Some sum /\
    let scaled := vscale sum (force sim * r sim)%F in
    let f := if vortex sim =? 1
             then vadd scaled
                    (vscale (Vec2 (- vy velocity)%F (vx velocity)) (f_lit 1 100))
             else scaled in
    let velocity' :=
      vadd (vscale velocity (F1 - friction sim)%F) (vscale f (delta sim)) in
    let position' := vadd position (vscale velocity' (delta sim)) in
    sim_wgsl.integrated sim moving identityMatrix [0] [-1] [0] 2 0
      = Some (position', velocity').
Proof.
  apply (integration_step (withVortex 1 defaultSim) moving identityMatrix
           [0] [-1] [0] 2 0).
  vm_compute. eexists. reflexivity.
Defined.

(** ** C9: grid locality *)




(** ** C10: the flat cell index is a valid cell *)



End Claims.

(* ------------------------------------------------------------------ *)
(** * Further properties: the grid, the neighbourhood walk, the borders and the frame loop *)
(* ------------------------------------------------------------------ *)

Section GridBuilderExtras.
Import construct_wgsl GridSpec.

Lemma lxor_u32 a b :
  0 <= a < 4294967296 -> 0 <= b < 4294967296 -> 0 <= Z.lxor a b < 4294967296.
Proof.
  intros Ha Hb. split; [apply Z.lxor_nonneg; lia|].
  destruct (Z.eq_dec (Z.lxor a b) 0) as [-> | Hne]; [lia|].
  assert (0 < Z.lxor a b) by (pose proof (proj2 (Z.lxor_nonneg a b)); lia).
  change 4294967296 with (2 ^ 32). apply Z.log2_lt_pow2; [done|].
  pose proof (Z.log2_lxor a b ltac:(lia) ltac:(lia)) as Hl.
  assert (Z.log2 a < 32).
  { destruct (Z.eq_dec a 0) as [-> | ?]; [done|]. apply Z.log2_lt_pow2; lia. }
  assert (Z.log2 b < 32).
  { destruct (Z.eq_dec b 0) as [-> | ?]; [done|]. apply Z.log2_lt_pow2; lia. }
  lia.
Qed.

Lemma lxor_cancel_l a b c : Z.lxor a b = Z.lxor a c -> b = c.
Proof.
  intros E. apply Z.lxor_eq.
  replace (Z.lxor b c) with (Z.lxor (Z.lxor a b) (Z.lxor a c)).
  - rewrite E. apply Z.lxor_nilpotent.
  - rewrite Z.lxor_assoc, <- (Z.lxor_assoc b a c), (Z.lxor_comm b a),
      Z.lxor_assoc, <- (Z.lxor_assoc a a), Z.lxor_nilpotent, Z.lxor_0_l.
    reflexivity.
Qed.

(** Multiplication by the FNV prime is invertible modulo 2^32. *)
Lemma fnv_mul_cancel a b :
  0 <= a < 4294967296 -> 0 <= b < 4294967296 ->
  u32_wrap (a * 16777619) = u32_wrap (b * 16777619) -> a = b.
Proof.
  unfold u32_wrap. intros Ha Hb E.
  assert (Hinv : forall x, 0 <= x < 4294967296 ->
            ((x * 16777619) mod 4294967296 * 899433627) mod 4294967296 = x).
  { intros x Hx. rewrite Z.mul_mod_idemp_l by lia.
    rewrite <- Z.mul_assoc. change (16777619 * 899433627) with (3513497 * 4294967296 + 1).
    rewrite Z.mul_add_distr_l, Z.mul_1_r, Z.mul_assoc.
    rewrite Z.add_comm, Z.mod_add by lia. apply Z.mod_small. lia. }
  rewrite <- (Hinv a Ha), <- (Hinv b Hb). by rewrite E.
Qed.

(** X1.  [hash2u] stays within [u32], and on [u32] arguments it is
    injective in each argument: two cells that differ in exactly one
    coordinate never collide. *)
Theorem hash2u_injective_per_argument (x y x' y' : Z) :
  0 <= x < 4294967296 -> 0 <= y < 4294967296 ->
  0 <= x' < 4294967296 -> 0 <= y' < 4294967296 ->
  0 <= hash2u x y < 4294967296 /\
  (hash2u x y = hash2u x' y' -> (x = x' <-> y = y')).
Proof.
  intros Hx Hy Hx' Hy'. unfold hash2u. cbv zeta.
  pose proof (lxor_u32 2166136261 x ltac:(lia) Hx) as H1.
  pose proof (lxor_u32 2166136261 x' ltac:(lia) Hx') as H1'.
  set (h1 := u32_wrap (Z.lxor 2166136261 x * 16777619)).
  set (h1' := u32_wrap (Z.lxor 2166136261 x' * 16777619)).
  assert (Hh1 : 0 <= h1 < 4294967296) by (apply Z.mod_pos_bound; lia).
  assert (Hh1' : 0 <= h1' < 4294967296) by (apply Z.mod_pos_bound; lia).
  split; [apply Z.mod_pos_bound; lia|].
  intros E. apply fnv_mul_cancel in E; [|by apply lxor_u32..].
  split.
  - intros <-. by apply lxor_cancel_l in E.
  - intros <-. rewrite (Z.lxor_comm h1 y), (Z.lxor_comm h1' y) in E.
    apply lxor_cancel_l in E. unfold h1, h1' in E.
    apply fnv_mul_cancel in E; [|done..]. by apply lxor_cancel_l in E.
Qed.

Lemma hash2u_injective_per_argument_witness :
  0 <= hash2u 3 5 < 4294967296 /\
  (hash2u 3 5 = hash2u 3 7 -> (3 = 3 <-> 5 = 7)).
Proof. apply (hash2u_injective_per_argument 3 5 3 7); lia. Defined.

(** X2.  The flat index determines the cell: for cell coordinates below
    the grid dimension, and a grid of at most 2^32 cells, [cellIndex] does
    not wrap, stays below [dim * dim], and the coordinates are read back
    from it by remainder and quotient. *)
Theorem cellIndex_round_trip (cx cy dim : Z) :
  0 <= cx < dim -> 0 <= cy < dim -> dim * dim <= 4294967296 ->
  let i := cellIndex cx cy dim in
  i = cy * dim + cx /\ 0 <= i < dim * dim /\ i mod dim = cx /\ i / dim = cy.
Proof.
  intros Hx Hy Hd i. unfold i, cellIndex, u32_wrap.
  assert (0 <= cy * dim + cx < dim * dim) by nia.
  rewrite Z.mod_small by lia.
  split; [done|]. split; [done|]. split.
  - rewrite Z.add_comm, Z.mod_add by lia. apply Z.mod_small. lia.
  - rewrite Z.add_comm, Z.div_add by lia. rewrite Z.div_small by lia. lia.
Qed.

Lemma cellIndex_round_trip_witness :
  let i := cellIndex 3 2 4 in
  i = 2 * 4 + 3 /\ 0 <= i < 4 * 4 /\ i mod 4 = 3 /\ i / 4 = 2.
Proof. apply (cellIndex_round_trip 3 2 4); lia. Defined.
End GridBuilderExtras.

Section GridBuilderDispatch.
Import construct_wgsl GridSpec.
Context {F : Type} `{Scalar F}.
Variable sim : Sim F.
Variable particles : list (Particle F).

(** X3.  The invocations beyond the particle count (the padding of the last
    workgroup) have no effect: a dispatch is the dispatch of the
    invocations below the count, in the same order. *)
Theorem construct_padding_is_harmless (order : list nat) (g : Grid) :
  dispatch sim particles order g =
    dispatch sim particles
      (filter (fun gid => (gid < length particles)%nat) order) g.
Proof.
  revert g. induction order as [|gid order IH]; intros g; [done|].
  destruct (decide (gid < length particles)%nat) as [Hlt | Hge].
  - rewrite filter_cons_True by done. simpl.
    destruct (main sim particles gid g) as [g'|]; simpl; [apply IH | done].
  - rewrite filter_cons_False by done. simpl.
    rewrite main_skip by lia. simpl. apply IH.
Qed.

(** X4.  Each cell's list is last-in first-out: after a complete dispatch
    from a head table of sentinels, the chain of cell [c] is the list of the
    particles filed in [c], in the reverse of the order in which their
    invocations ran. *)
Theorem chains_are_last_in_first_out (nCells : nat) (order : list nat)
    (linked0 : list Z) :
  Z.of_nat (length particles) <= 2147483648 ->
  length linked0 = length particles ->
  (forall p, p ∈ particles -> cellOf sim p < Z.of_nat nCells) ->
  NoDup order ->
  exists g,
    dispatch sim particles order
      {| heads := replicate nCells (-1); linked := linked0 |} = Some g /\
    forall c, (c < nCells)%nat ->
      exists h, heads g !! c = Some h /\
        chain (S (length particles)) (linked g) h =
          Some (reverse (filter (fun i => cellN sim particles i = c)
                   (filter (fun i => (i < length particles)%nat) order))).
Proof.
  intros HN Hl0 Hcells Hnd.
  assert (HcellN : forall i, (i < length particles)%nat ->
            (cellN sim particles i < nCells)%nat).
  { intros i Hi. destruct (lookup_lt_is_Some_2 particles i Hi) as [p Hp].
    unfold cellN. rewrite Hp.
    specialize (Hcells p (list_elem_of_lookup_2 _ _ _ Hp)).
    assert (0 <= cellOf sim p) by (apply Z.mod_pos_bound; lia). lia. }
  destruct (dispatch_inv sim particles nCells order []
              {| heads := replicate nCells (-1); linked := linked0 |})
    as (g & Hd & (Hlh & Hll & Hw)); auto.
  { intros i _. apply not_elem_of_nil. }
  { by apply GridInv_init. }
  exists g. split; [done|]. intros c Hc.
  destruct (Hw c Hc) as (h & Hh & Hwalk). exists h. split; [done|].
  apply Walk_chain; [exact Hwalk|].
  unfold bucket. rewrite length_reverse. simpl.
  set (done := filter (fun i => (i < length particles)%nat) order).
  pose proof (length_filter (fun i => cellN sim particles i = c) done) as H1.
  assert (NoDup done) as Hnd' by (by apply NoDup_filter).
  assert (length done <= length (seq 0 (length particles)))%nat as Hle;
    [|rewrite length_seq in Hle; lia].
  apply submseteq_length, NoDup_submseteq; [done|].
  intros i Hi. apply list_elem_of_filter in Hi as [Hi _].
  apply elem_of_seq. lia.
Qed.

Lemma main_linked_rel (gid : nat) (W : list nat) (g1 g2 : Grid) :
  heads g1 = heads g2 -> length (linked g1) = length (linked g2) ->
  (forall i, i ∈ W -> linked g1 !! i = linked g2 !! i) ->
  match main sim particles gid g1 with
  | Some a =>
      exists b, main sim particles gid g2 = Some b /\
        heads a = heads b /\ length (linked a) = length (linked g1) /\
        length (linked b) = length (linked g2) /\
        forall i, i ∈ W ++ filter (fun i => (i < length particles)%nat) [gid] ->
                  linked a !! i = linked b !! i
  | None => main sim particles gid g2 = None
  end.
Proof.
  intros Hh Hl Hw. unfold main.
  destruct (decide (length particles <= gid)%nat) as [Hge | Hlt].
  - exists g2. rewrite filter_cons_False by lia. rewrite filter_nil, app_nil_r.
    done.
  - rewrite filter_cons_True by lia. rewrite filter_nil.
    destruct (particles !! gid) as [p|]; simpl; [|done].
    rewrite <- Hh. destruct (heads g1 !! _) as [prev|]; simpl; [|done].
    rewrite <- Hl.
    destruct (decide (gid < length (linked g1))%nat) as [Hin | Hout]; [|done].
    eexists. split; [done|]. simpl. rewrite !length_insert.
    split; [done|]. split; [done|]. split; [done|].
    intros i Hi. apply elem_of_app in Hi as [Hi | Hi%list_elem_of_singleton].
    + destruct (decide (i = gid)) as [-> | Hne].
      * rewrite !list_lookup_insert_eq by lia. done.
      * rewrite !list_lookup_insert_ne by done. by apply Hw.
    + subst i. rewrite !list_lookup_insert_eq by lia. done.
Qed.

Lemma dispatch_linked_rel (order : list nat) : forall (W : list nat) (g1 g2 : Grid),
  heads g1 = heads g2 -> length (linked g1) = length (linked g2) ->
  (forall i, i ∈ W -> linked g1 !! i = linked g2 !! i) ->
  match dispatch sim particles order g1 with
  | Some a =>
      exists b, dispatch sim particles order g2 = Some b /\
        heads a = heads b /\ length (linked a) = length (linked g1) /\
        length (linked b) = length (linked g2) /\
        forall i, i ∈ W ++ filter (fun i => (i < length particles)%nat) order ->
                  linked a !! i = linked b !! i
  | None => dispatch sim particles order g2 = None
  end.
Proof.
  induction order as [|gid order IH]; intros W g1 g2 Hh Hl Hw.
  - simpl. exists g2. rewrite app_nil_r. done.
  - simpl. pose proof (main_linked_rel gid W g1 g2 Hh Hl Hw) as Hm.
    destruct (main sim particles gid g1) as [a|]; simpl.
    + destruct Hm as (b & -> & Hab & Hla & Hlb & Hagree). simpl.
      specialize (IH _ a b Hab ltac:(lia) Hagree).
      destruct (dispatch sim particles order a) as [a'|]; [|done].
      destruct IH as (b' & -> & H1 & H2 & H3 & H4).
      exists b'. split; [done|]. split; [done|].
      split; [lia|]. split; [lia|].
      intros i Hi. apply H4.
      rewrite <- app_assoc. rewrite <- filter_app. exact Hi.
    + rewrite Hm. done.
Qed.

Lemma dispatch_linked_irrelevant (order : list nat) (hs l1 l2 : list Z) :
  length l1 = length particles -> length l2 = length particles ->
  (forall i, (i < length particles)%nat -> i ∈ order) ->
  dispatch sim particles order {| heads := hs; linked := l1 |} =
  dispatch sim particles order {| heads := hs; linked := l2 |}.
Proof.
  intros H1 H2 Hall.
  pose proof (dispatch_linked_rel order [] {| heads := hs; linked := l1 |}
                {| heads := hs; linked := l2 |} eq_refl) as Hrel.
  simpl in Hrel. specialize (Hrel ltac:(lia)).
  assert (Hnil : forall i : nat, i ∈ [] -> l1 !! i = l2 !! i).
  { intros i Hi. by apply elem_of_nil in Hi. }
  specialize (Hrel Hnil).
  destruct (dispatch sim particles order {| heads := hs; linked := l1 |})
    as [[ha la]|]; [|by rewrite Hrel].
  destruct Hrel as ([hb lb] & -> & Hh & Hla & Hlb & Hagree).
  simpl in *. f_equal. f_equal; [done|].
  apply list_eq. intros i.
  destruct (decide (i < length particles)%nat) as [Hi | Hi].
  - apply Hagree, list_elem_of_filter. split; [done | by apply Hall].
  - rewrite !lookup_ge_None_2 by lia. done.
Qed.

(** X5.  The [linked] buffer needs no reset between frames: when every
    particle has its invocation, the grid a dispatch builds does not depend
    on what the buffer held before (each node is overwritten by the
    invocation of its particle). *)
Theorem linked_buffer_needs_no_reset (order : list nat) (hs l1 l2 : list Z) :
  length l1 = length particles -> length l2 = length particles ->
  (forall i, (i < length particles)%nat -> i ∈ order) ->
  dispatch sim particles order {| heads := hs; linked := l1 |} =
  dispatch sim particles order {| heads := hs; linked := l2 |}.
Proof. apply dispatch_linked_irrelevant. Qed.
End GridBuilderDispatch.

Section ForceIntegratorDispatch.
Import sim_wgsl GridSpec.
Context {F : Type} `{Scalar F} `{ScalarSqrt F}.
Variable sim : Sim F.
Variable particles : list (Particle F).
Variable matrix : list F.
Variable heads : list Z.
Variable linked : list Z.
Variable colourIdx : list Z.

Local Abbreviation main_ :=
  (sim_wgsl.main sim particles matrix heads linked colourIdx).
Local Abbreviation dispatch_ :=
  (sim_wgsl.dispatch sim particles matrix heads linked colourIdx).

(** Two invocations commute: each writes its own slot of [output]. *)
Lemma sim_main_comm fuel (a b : nat) (o : list (Particle F)) :
  main_ fuel a o ≫= main_ fuel b = main_ fuel b o ≫= main_ fuel a.
Proof.
  unfold sim_wgsl.main.
  destruct (simulate sim particles matrix heads linked colourIdx fuel a)
    as [pa|] eqn:Ea;
    destruct (simulate sim particles matrix heads linked colourIdx fuel b)
      as [pb|] eqn:Eb;
    repeat (first [ progress simpl
                  | progress rewrite ?Ea, ?Eb
                  | progress rewrite ?length_insert
                  | case_decide ]);
    try done; try lia.
  destruct (decide (a = b)) as [-> | Hne].
  - by replace pb with pa by congruence.
  - by rewrite list_insert_insert_ne.
Qed.

(** X6.  The result of the sim dispatch does not depend on the order in
    which its invocations run: each one reads read-only bindings and writes
    only its own slot of [output]. *)
Theorem sim_dispatch_order_independent (fuel : nat) (order1 order2 : list nat)
    (output : list (Particle F)) :
  order1 ≡ₚ order2 ->
  dispatch_ fuel order1 output = dispatch_ fuel order2 output.
Proof.
  intros Hp. revert output.
  induction Hp as [|gid o1 o2 _ IH|a b o|o1 o2 o3 _ IH1 _ IH2]; intros output.
  - done.
  - simpl. destruct (main_ fuel gid output) as [o'|]; simpl; [apply IH | done].
  - simpl. pose proof (sim_main_comm fuel a b output) as Hc.
    destruct (main_ fuel b output) as [ob|] eqn:Eb,
             (main_ fuel a output) as [oa|] eqn:Ea; simpl in *.
    + by rewrite Hc.
    + by rewrite <- Hc.
    + by rewrite Hc.
    + done.
  - by rewrite IH1.
Qed.
End ForceIntegratorDispatch.

Section NeighbourhoodOffsets.
Import sim_wgsl.

Lemma neighbourhood_offsets :
  Forall (fun d : Z * Z => -1 <= d.1 <= 1 /\ -1 <= d.2 <= 1) neighbourhood.
Proof. repeat constructor; simpl; lia. Qed.

Lemma NoDup_neighbourhood : NoDup neighbourhood.
Proof. apply NoDup_ListNoDup. repeat constructor; simpl; intuition congruence. Qed.
End NeighbourhoodOffsets.

Section Neighbourhood.
Import sim_wgsl GridSpec NeighbourSpec.
Context {F : Type} `{Scalar F} `{ScalarSqrt F}.
Variable sim : Sim F.
Variable particles : list (Particle F).
Variable matrix : list F.
Variable colourIdx : list Z.
Variable nCells : nat.
Variable done : list nat.
Variable g : construct_wgsl.Grid.

Local Abbreviation hs := (construct_wgsl.heads g).
Local Abbreviation lk := (construct_wgsl.linked g).
Local Abbreviation cell := (cellN sim particles).
Local Abbreviation visit_ := (sim_wgsl.visit sim particles matrix colourIdx).

Hypothesis Hinv : GridInv sim particles nCells done g.
Hypothesis Hdone : NoDup done.
Hypothesis Hlen : (length done <= length particles)%nat.

Variables cx cy dim : Z.
Hypothesis Hcx : 0 <= cx < dim.
Hypothesis Hcy : 0 <= cy < dim.
Hypothesis Hcells : dim * dim <= Z.of_nat nCells.
Hypothesis Hdim : dim * dim <= 2147483648.

Lemma dim_small : dim <= 46341.
Proof. nia. Qed.

Lemma bucket_length c : (length (bucket cell done c) <= length particles)%nat.
Proof.
  unfold bucket. rewrite length_reverse.
  pose proof (length_filter (fun i => cell i = c) done). simpl in *. lia.
Qed.

Lemma neighbourCell_visits fuel idx pos myColour (dx dy : Z) acc :
  -1 <= dx <= 1 -> -1 <= dy <= 1 -> (length particles < fuel)%nat ->
  neighbourCell sim particles matrix hs lk colourIdx fuel idx pos myColour
    cx cy dim dx dy acc =
  Some (fold_left (fun a j => visit_ idx pos myColour (Z.of_nat j) a)
          (visitedCell cell done cx cy dim (dx, dy)) acc).
Proof.
  intros Hdx Hdy Hfuel.
  pose proof dim_small as Hsmall.
  unfold neighbourCell, visitedCell. simpl.
  assert (Ex : i32_wrap (cx + dx) = cx + dx).
  { unfold i32_wrap. rewrite Z.mod_small by lia. lia. }
  assert (Ey : i32_wrap (cy + dy) = cy + dy).
  { unfold i32_wrap. rewrite Z.mod_small by lia. lia. }
  rewrite Ex, Ey.
  destruct (_ || _) eqn:Hout; [done|].
  apply orb_false_iff in Hout as [Hout H4].
  apply orb_false_iff in Hout as [Hout H3].
  apply orb_false_iff in Hout as [H1 H2].
  apply Z.ltb_ge in H1, H2. apply Z.leb_gt in H3, H4.
  assert (Hc : 0 <= (cy + dy) * dim + (cx + dx) < dim * dim) by nia.
  unfold cellIndex.
  assert (Ec : i32_wrap ((cy + dy) * dim + (cx + dx)) = (cy + dy) * dim + (cx + dx)).
  { unfold i32_wrap. rewrite Z.mod_small by lia. lia. }
  rewrite Ec. destruct Hinv as (Hlh & Hll & Hw).
  destruct (Hw (Z.to_nat ((cy + dy) * dim + (cx + dx))) ltac:(lia))
    as (h & Hh & Hwalk).
  unfold load at 1. destruct (Z.ltb_spec ((cy + dy) * dim + (cx + dx)) 0); [lia|].
  rewrite Hh. simpl.
  apply walk_Walk; [done|]. pose proof (bucket_length (Z.to_nat ((cy + dy) * dim + (cx + dx)))).
  lia.
Qed.

Lemma accumulate_visits fuel idx pos myColour (cells : list (Z * Z)) :
  Forall (fun d => -1 <= d.1 <= 1 /\ -1 <= d.2 <= 1) cells ->
  (length particles < fuel)%nat -> forall acc,
  accumulate sim particles matrix hs lk colourIdx fuel idx pos myColour
    cx cy dim cells acc =
  Some (fold_left (fun a j => visit_ idx pos myColour (Z.of_nat j) a)
          (cells ≫= visitedCell cell done cx cy dim) acc).
Proof.
  intros Hall Hfuel. induction Hall as [|[dx dy] cells [Hdx Hdy] _ IH]; intros acc.
  - done.
  - simpl accumulate.
    simpl in Hdx, Hdy.
    rewrite (neighbourCell_visits fuel idx pos myColour dx dy acc) by done.
    rewrite bind_cons, fold_left_app, <- IH. reflexivity.
Qed.

Lemma elem_of_visitedCell j d :
  j ∈ visitedCell cell done cx cy dim d <->
  0 <= cx + d.1 < dim /\ 0 <= cy + d.2 < dim /\ j ∈ done /\
  Z.of_nat (cell j) = (cy + d.2) * dim + (cx + d.1).
Proof.
  unfold visitedCell. cbv zeta.
  destruct (_ || _) eqn:Hout.
  - split; [intros Hj; by apply elem_of_nil in Hj|].
    intros (Hx & Hy & _). exfalso.
    apply orb_true_iff in Hout as [Hout | H4]; [|apply Z.leb_le in H4; lia].
    apply orb_true_iff in Hout as [Hout | H3]; [|apply Z.leb_le in H3; lia].
    apply orb_true_iff in Hout as [H1 | H2];
      [apply Z.ltb_lt in H1 | apply Z.ltb_lt in H2]; lia.
  - apply orb_false_iff in Hout as [Hout H4].
    apply orb_false_iff in Hout as [Hout H3].
    apply orb_false_iff in Hout as [H1 H2].
    apply Z.ltb_ge in H1, H2. apply Z.leb_gt in H3, H4.
    rewrite elem_of_bucket.
    assert (0 <= (cy + d.2) * dim + (cx + d.1)) by nia.
    split.
    + intros [Hj Hc]. split; [lia|]. split; [lia|]. split; [done|].
      rewrite Hc. lia.
    + intros (_ & _ & Hj & Hc). split; [done|]. lia.
Qed.

Lemma NoDup_visited : NoDup (visited cell done cx cy dim).
Proof.
  unfold visited. apply NoDup_bind.
  - intros [dx1 dy1] [dx2 dy2] j _ _ H1 H2.
    apply elem_of_visitedCell in H1 as (Hx1 & Hy1 & _ & Hc1).
    apply elem_of_visitedCell in H2 as (Hx2 & Hy2 & _ & Hc2).
    simpl in *. assert (dy1 = dy2) by nia. subst. f_equal. nia.
  - intros d _. unfold visitedCell. cbv zeta.
    destruct (_ || _); [constructor|].
    unfold bucket. rewrite reverse_Permutation. by apply NoDup_filter.
  - apply NoDup_neighbourhood.
Qed.

Lemma elem_of_visited j :
  j ∈ visited cell done cx cy dim <->
  j ∈ done /\ exists dx dy, -1 <= dx <= 1 /\ -1 <= dy <= 1 /\
    0 <= cx + dx < dim /\ 0 <= cy + dy < dim /\
    Z.of_nat (cell j) = (cy + dy) * dim + (cx + dx).
Proof.
  unfold visited. rewrite list_elem_of_bind. split.
  - intros ([dx dy] & Hj & Hd). apply elem_of_visitedCell in Hj as (Hx & Hy & Hj & Hc).
    split; [done|]. exists dx, dy. simpl in *.
    pose proof neighbourhood_offsets as Hall. rewrite Forall_forall in Hall.
    destruct (Hall _ Hd) as [? ?]. simpl in *. done.
  - intros (Hj & dx & dy & Hdx & Hdy & Hx & Hy & Hc).
    exists (dx, dy). split; [apply elem_of_visitedCell; simpl; done|].
    assert (dx = -1 \/ dx = 0 \/ dx = 1) as Hdx' by lia.
    assert (dy = -1 \/ dy = 0 \/ dy = 1) as Hdy' by lia.
    unfold neighbourhood.
    destruct Hdx' as [-> | [-> | ->]], Hdy' as [-> | [-> | ->]];
      simpl; repeat (first [apply list_elem_of_here | apply list_elem_of_further]).
Qed.
End Neighbourhood.

Section NeighbourhoodTheorem.
Import sim_wgsl GridSpec NeighbourSpec.

(** X7.  The force loop meets every particle of the in-grid cells of the
    3x3 neighbourhood exactly once, and no other particle.  After a complete
    construct pass, for a particle whose own cell [(cx, cy)] is in the grid
    (of at most 2^31 cells, all in the head table): [forceSum] ends and is
    the fold of the loop body over a duplicate-free list of particles, which
    holds [j] if and only if [j] is filed in a cell [(cx + dx, cy + dy)] of
    the grid with [dx] and [dy] in [-1, 1]. *)
Theorem neighbours_are_visited_once {F : Type} `{Scalar F} `{ScalarSqrt F}
    (sim : Sim F) (particles : list (Particle F)) (matrix : list F)
    (colourIdx : list Z) (nCells : nat) (order : list nat) (nThreads : nat)
    (linked0 : list Z) (fuel idx : nat) :
  Z.of_nat (length particles) <= 2147483648 ->
  length linked0 = length particles ->
  (forall p, p ∈ particles -> construct_wgsl.cellOf sim p < Z.of_nat nCells) ->
  (length particles <= nThreads)%nat ->
  order ≡ₚ seq 0 nThreads ->
  let from := xy (pos (load zeroParticle particles (Z.of_nat idx))) in
  let myColour := load 0 colourIdx (Z.of_nat idx) in
  let dim := i32_wrap (gridDim sim) in
  let cx := cellCoord (vx from) sim in
  let cy := cellCoord (vy from) sim in
  0 <= cx < dim -> 0 <= cy < dim ->
  dim * dim <= Z.of_nat nCells -> dim * dim <= 2147483648 ->
  (length particles < fuel)%nat ->
  exists g l,
    construct_wgsl.dispatch sim particles order
      {| construct_wgsl.heads := replicate nCells (-1);
         construct_wgsl.linked := linked0 |} = Some g /\
    forceSum sim particles matrix (construct_wgsl.heads g)
      (construct_wgsl.linked g) colourIdx fuel idx =
      Some (fold_left
              (fun acc j => visit sim particles matrix colourIdx idx from
                              myColour (Z.of_nat j) acc)
              l (Vec2 F0 F0)) /\
    NoDup l /\
    forall j, j ∈ l <->
      (j < length particles)%nat /\
      exists dx dy, -1 <= dx <= 1 /\ -1 <= dy <= 1 /\
        0 <= cx + dx < dim /\ 0 <= cy + dy < dim /\
        Z.of_nat (cellN sim particles j) = (cy + dy) * dim + (cx + dx).
Proof.
  intros HN Hl0 Hcells HT Hperm from myColour dim cx cy Hcx Hcy Hd1 Hd2 Hfuel.
  destruct (construct_pass sim particles nCells order nThreads linked0)
    as (g & processed & Hg & Hinv & Hdone & _); try done.
  assert (Hnd : NoDup processed) by (rewrite Hdone; apply NoDup_seq).
  assert (Hlen : (length processed <= length particles)%nat)
    by (by rewrite Hdone, length_seq).
  exists g, (visited (cellN sim particles) processed cx cy dim).
  split; [done|]. split; [|split].
  - unfold forceSum. fold from myColour dim cx cy.
    eapply accumulate_visits; eauto using neighbourhood_offsets.
  - eapply NoDup_visited; eauto.
  - intros j. rewrite elem_of_visited by eauto.
    rewrite Hdone, elem_of_seq. split; intros [Hj Hrest]; (split; [lia | done]).
Qed.
End NeighbourhoodTheorem.

Section ExtraWitnesses.
Import F32 F32Spec Examples GridSpec.

Lemma four_cells_in_table (p : Particle f32) :
  p ∈ four -> construct_wgsl.cellOf sim4 p < Z.of_nat 16.
Proof.
  intros Hp. unfold four in Hp.
  repeat (apply elem_of_cons in Hp as [-> | Hp]; [vm_compute; reflexivity|]).
  by apply elem_of_nil in Hp.
Qed.

Lemma chains_are_last_in_first_out_witness :
  exists g,
    construct_wgsl.dispatch sim4 four backwards
      {| construct_wgsl.heads := replicate 16 (-1);
         construct_wgsl.linked := [0; 0; 0; 0] |} = Some g /\
    forall c, (c < 16)%nat ->
      exists h, construct_wgsl.heads g !! c = Some h /\
        construct_wgsl.chain 5 (construct_wgsl.linked g) h =
          Some (reverse (filter (fun i => cellN sim4 four i = c)
                   (filter (fun i => (i < 4)%nat) backwards))).
Proof.
  apply (chains_are_last_in_first_out sim4 four 16 backwards [0; 0; 0; 0]).
  - vm_compute. discriminate.
  - reflexivity.
  - apply four_cells_in_table.
  - unfold backwards. rewrite reverse_Permutation. apply NoDup_seq.
Defined.

Lemma linked_buffer_needs_no_reset_witness :
  construct_wgsl.dispatch sim4 four backwards
    {| construct_wgsl.heads := replicate 16 (-1);
       construct_wgsl.linked := [0; 0; 0; 0] |} =
  construct_wgsl.dispatch sim4 four backwards
    {| construct_wgsl.heads := replicate 16 (-1);
       construct_wgsl.linked := [3; 2; 1; 0] |}.
Proof.
  apply (linked_buffer_needs_no_reset sim4 four backwards (replicate 16 (-1))
           [0; 0; 0; 0] [3; 2; 1; 0]); [reflexivity | reflexivity |].
  intros i Hi. unfold backwards. rewrite elem_of_reverse. apply elem_of_seq.
  simpl in Hi. lia.
Defined.

Lemma sim_dispatch_order_independent_witness :
  sim_wgsl.dispatch sim4 four identityMatrix (replicate 16 (-1)) [0; 0; 0; 0]
    fourColours 5 backwards four =
  sim_wgsl.dispatch sim4 four identityMatrix (replicate 16 (-1)) [0; 0; 0; 0]
    fourColours 5 (seq 0 64) four.
Proof.
  apply (sim_dispatch_order_independent sim4 four identityMatrix
           (replicate 16 (-1)) [0; 0; 0; 0] fourColours 5 backwards (seq 0 64) four).
  apply reverse_Permutation.
Defined.

Lemma neighbours_are_visited_once_witness :
  let from := xy (pos (load sim_wgsl.zeroParticle four 1)) in
  let myColour := load 0 fourColours 1 in
  let dim := i32_wrap (sim_wgsl.gridDim sim4) in
  let cx := sim_wgsl.cellCoord (vx from) sim4 in
  let cy := sim_wgsl.cellCoord (vy from) sim4 in
  exists g l,
    construct_wgsl.dispatch sim4 four backwards
      {| construct_wgsl.heads := replicate 16 (-1);
         construct_wgsl.linked := [0; 0; 0; 0] |} = Some g /\
    sim_wgsl.forceSum sim4 four identityMatrix (construct_wgsl.heads g)
      (construct_wgsl.linked g) fourColours 5 1 =
      Some (fold_left
              (fun acc j => sim_wgsl.visit sim4 four identityMatrix fourColours
                              1 from myColour (Z.of_nat j) acc)
              l (Vec2 F0 F0)) /\
    NoDup l /\
    forall j, j ∈ l <->
      (j < 4)%nat /\
      exists dx dy, -1 <= dx <= 1 /\ -1 <= dy <= 1 /\
        0 <= cx + dx < dim /\ 0 <= cy + dy < dim /\
        Z.of_nat (cellN sim4 four j) = (cy + dy) * dim + (cx + dx).
Proof.
  apply (neighbours_are_visited_once sim4 four identityMatrix fourColours 16
           backwards 64 [0; 0; 0; 0] 5 1).
  - vm_compute. discriminate.
  - reflexivity.
  - apply four_cells_in_table.
  - vm_compute. lia.
  - apply reverse_Permutation.
  - vm_compute. split; [discriminate | reflexivity].
  - vm_compute. split; [discriminate | reflexivity].
  - vm_compute. discriminate.
  - vm_compute. discriminate.
  - simpl. lia.
Defined.
End ExtraWitnesses.

Section BorderExtras.
Import F32 F32Spec sim_wgsl Examples.

Lemma not_ltb_leb (a b : f32) :
  a <> S754_nan -> b <> S754_nan -> SFltb b a = false -> SFleb a b = true.
Proof.
  unfold SFltb, SFleb. rewrite (SFcompare_antisym a b). intros Ha Hb.
  destruct a as [[|]|[|]| |[|] m e]; try done;
    destruct b as [[|]|[|]| |[|] m' e']; try done;
    destruct (SFcompare _ _) as [[| |]|] eqn:E; simpl; try done;
    try (simpl in E; discriminate).
Qed.

Lemma SFleb_refl (a : f32) : a <> S754_nan -> SFleb a a = true.
Proof.
  intros Ha. unfold SFleb.
  destruct (SFcompare_refl a) as [-> | ->]; [reflexivity | done].
Qed.

Lemma SFleb_opp_nonneg (h : f32) : is_nonneg h -> SFleb (SFopp h) h = true.
Proof.
  destruct h as [s | s | | s m e]; try destruct s; try discriminate;
    reflexivity.
Qed.

Lemma nonneg_not_nan (h : f32) : is_nonneg h -> h <> S754_nan.
Proof. by intros Hh ->. Qed.

Lemma SFabs_opp_abs (v : f32) : SFabs (SFopp (SFabs v)) = SFabs v.
Proof. by destruct v. Qed.

Lemma SFabs_idemp (v : f32) : SFabs (SFabs v) = SFabs v.
Proof. by destruct v. Qed.

(** Reflection on one axis: the position ends inside the world and the
    speed is kept. *)
Lemma reflectAxis_inside (half p v : f32) :
  is_nonneg half -> p <> S754_nan ->
  SFleb (SFopp half) (reflectAxis half p v).1 = true /\
  SFleb (reflectAxis half p v).1 half = true /\
  SFabs (reflectAxis half p v).2 = SFabs v.
Proof.
  intros Hh Hp. pose proof (nonneg_not_nan half Hh) as Hn.
  assert (Hn' : SFopp half <> S754_nan) by (by destruct half).
  destruct (SFltb half p) eqn:Hhigh.
  - rewrite reflectAxis_high by done. simpl.
    split; [by apply SFleb_opp_nonneg|]. split; [by apply SFleb_refl|].
    apply SFabs_opp_abs.
  - destruct (SFltb p (SFopp half)) eqn:Hlow.
    + rewrite reflectAxis_low by done. simpl.
      split; [by apply SFleb_refl|]. split; [by apply SFleb_opp_nonneg|].
      apply SFabs_idemp.
    + unfold reflectAxis. cbn [f_lt scalar f_neg]. rewrite Hhigh, Hlow. simpl.
      split; [by apply not_ltb_leb|]. split; [by apply not_ltb_leb | done].
Qed.

(** X8.  Under reflective mode every particle is written inside the
    world, with its speed kept on each axis: for a world half-size that is
    not negative and a position that is not a NaN, both coordinates of the
    position after border handling lie in [[-half, half]], and each
    component of the velocity has the absolute value it had. *)
Theorem reflect_keeps_particles_inside (sim : Sim f32) (p v : vec2 f32) :
  border sim <> 1 -> is_nonneg (worldSize sim) ->
  vx p <> S754_nan -> vy p <> S754_nan ->
  let half := worldSize sim in
  let p' := (borderHandling sim p v).1 in
  let v' := (borderHandling sim p v).2 in
  (SFleb (SFopp half) (vx p') = true /\ SFleb (vx p') half = true) /\
  (SFleb (SFopp half) (vy p') = true /\ SFleb (vy p') half = true) /\
  SFabs (vx v') = SFabs (vx v) /\ SFabs (vy v') = SFabs (vy v).
Proof.
  intros Hb Hh Hx Hy half p' v'. unfold p', v', borderHandling.
  destruct (Z.eqb_spec (border sim) 1) as [|_]; [done|].
  destruct (reflectAxis_inside half (vx p) (vx v) Hh Hx) as (X1 & X2 & X3).
  destruct (reflectAxis_inside half (vy p) (vy v) Hh Hy) as (Y1 & Y2 & Y3).
  fold half.
  destruct (reflectAxis half (vx p) (vx v)) as [px velx].
  destruct (reflectAxis half (vy p) (vy v)) as [py vely]. simpl in *. done.
Qed.

Lemma reflect_keeps_particles_inside_witness :
  let sim := withBorder 0 defaultSim in
  let p := Vec2 (lit 7 1) (lit (-13) 2) in
  let v := Vec2 (lit 1 1) (lit (-1) 1) in
  let half := worldSize sim in
  let p' := (borderHandling sim p v).1 in
  let v' := (borderHandling sim p v).2 in
  (SFleb (SFopp half) (vx p') = true /\ SFleb (vx p') half = true) /\
  (SFleb (SFopp half) (vy p') = true /\ SFleb (vy p') half = true) /\
  SFabs (vx v') = SFabs (vx v) /\ SFabs (vy v') = SFabs (vy v).
Proof.
  apply (reflect_keeps_particles_inside (withBorder 0 defaultSim)
           (Vec2 (lit 7 1) (lit (-13) 2)) (Vec2 (lit 1 1) (lit (-1) 1)));
    [vm_compute; discriminate | reflexivity | vm_compute; discriminate
    | vm_compute; discriminate].
Defined.

(** X9.  Border handling does not touch a particle that is inside the
    world: in either mode, a position with both coordinates in
    [[-half, half]] and its velocity are written as they are. *)
Theorem border_handling_leaves_inside_alone (sim : Sim f32) (p v : vec2 f32) :
  let half := worldSize sim in
  SFleb (SFopp half) (vx p) = true -> SFleb (vx p) half = true ->
  SFleb (SFopp half) (vy p) = true -> SFleb (vy p) half = true ->
  borderHandling sim p v = (p, v).
Proof.
  intros half X1 X2 Y1 Y2.
  assert (Hw : forall a, SFleb (SFopp half) a = true -> SFleb a half = true ->
                 wrapAxis half a = a).
  { intros a A1 A2. unfold wrapAxis. cbn [f_lt scalar f_neg].
    rewrite (SFleb_not_ltb _ _ A2). cbv zeta iota.
    by rewrite (SFleb_not_ltb _ _ A1). }
  assert (Hr : forall a b, SFleb (SFopp half) a = true -> SFleb a half = true ->
                 reflectAxis half a b = (a, b)).
  { intros a b A1 A2. unfold reflectAxis. cbn [f_lt scalar f_neg].
    rewrite (SFleb_not_ltb _ _ A2). cbv zeta iota.
    by rewrite (SFleb_not_ltb _ _ A1). }
  unfold borderHandling. fold half.
  rewrite !Hw, !Hr by done. destruct p, v. by destruct (border sim =? 1).
Qed.

Lemma border_handling_leaves_inside_alone_witness :
  borderHandling defaultSim (Vec2 (lit 6 1) (lit (-6) 1))
    (Vec2 (lit 1 1) (lit 2 1)) =
  (Vec2 (lit 6 1) (lit (-6) 1), Vec2 (lit 1 1) (lit 2 1)).
Proof.
  apply (border_handling_leaves_inside_alone defaultSim
           (Vec2 (lit 6 1) (lit (-6) 1)) (Vec2 (lit 1 1) (lit 2 1)));
    reflexivity.
Defined.
End BorderExtras.

Section EngineExtras.
Import LinkedListEngine GridSpec.
Context {F : Type} `{Scalar F} `{ScalarSqrt F}.

(** X10.  Nothing of the previous frame's grid reaches a tick: the heads
    are reset and, every particle having its construct invocation, each
    node of [linked] is overwritten before the sim pass reads it.  A tick
    from an engine whose [heads] and [linked] buffers hold anything else (of
    the same size) gives the same engine. *)
Theorem stale_grid_does_not_reach_a_tick (fuel : nat)
    (cOrder sOrder : list nat) (e : Engine) (hb lb : list Z) (count : nat) :
  length (fst (particleBuffers e)) = count ->
  length (snd (particleBuffers e)) = count ->
  length (linkedBuffer e) = count -> length lb = count ->
  (forall i, (i < count)%nat -> i ∈ cOrder) ->
  tick fuel cOrder sOrder
    {| simBuffer := simBuffer e; matrixBuffer := matrixBuffer e;
       colourBuffer := colourBuffer e; particleBuffers := particleBuffers e;
       headsBuffer := hb; headsInitBuffer := headsInitBuffer e;
       linkedBuffer := lb; step := step e |} =
  tick fuel cOrder sOrder e.
Proof.
  intros Ha Hb Hl Hlb Hall.
  set (e2 := {| simBuffer := simBuffer e; matrixBuffer := matrixBuffer e;
                colourBuffer := colourBuffer e;
                particleBuffers := particleBuffers e;
                headsBuffer := hb; headsInitBuffer := headsInitBuffer e;
                linkedBuffer := lb; step := step e |}).
  assert (Hpb : forall i, particleBuffer e2 i = particleBuffer e i) by done.
  assert (Hset : forall i b, setParticleBuffer e2 i b = setParticleBuffer e i b)
    by done.
  unfold tick.
  change (step e2) with (step e). change (simBuffer e2) with (simBuffer e).
  change (matrixBuffer e2) with (matrixBuffer e).
  change (colourBuffer e2) with (colourBuffer e).
  change (headsInitBuffer e2) with (headsInitBuffer e).
  change (linkedBuffer e2) with lb.
  destruct (index constructBindGroups (step e)) as [cIn|]; [|done]. simpl.
  rewrite Hpb.
  assert (Hin : forall bin, particleBuffer e cIn = Some bin -> length bin = count).
  { unfold particleBuffer. intros bin.
    destruct (cIn =? 0); [by intros [= <-]|].
    destruct (cIn =? 1); [by intros [= <-] | done]. }
  destruct (particleBuffer e cIn) as [bin|] eqn:Ebin; [|done]. simpl.
  specialize (Hin bin eq_refl).
  rewrite (dispatch_linked_irrelevant (simBuffer e) bin cOrder
             (headsInitBuffer e) lb (linkedBuffer e))
    by (lia || (intros; apply Hall; lia)).
  destruct (construct_wgsl.dispatch _ _ _ _) as [g|]; [|done]. simpl.
  destruct (index simBindGroups (step e)) as [[sIn sOut]|]; [|done]. simpl.
  rewrite !Hpb.
  destruct (particleBuffer e sIn) as [b1|]; [|done]. simpl.
  destruct (particleBuffer e sOut) as [b2|]; [|done]. simpl.
  destruct (sim_wgsl.dispatch _ _ _ _ _ _ _ _ _) as [out|]; [|done]. simpl.
  rewrite Hset. done.
Qed.
End EngineExtras.

Section FrameExtras.
Import LinkedListEngine main_ts.
Context {F : Type} `{Scalar F} `{ScalarSqrt F}.

Lemma tick_buffers (fuel : nat) (cOrder sOrder : list nat) (e e' : Engine) :
  tick fuel cOrder sOrder e = Some e' ->
  exists src dst bin,
    index simBindGroups (step e) = Some (src, dst) /\
    src <> dst /\ step e = src /\ step e' = dst /\
    particleBuffer e src = Some bin /\ particleBuffer e' src = Some bin /\
    is_Some (particleBuffer e' dst).
Proof.
  unfold tick. intros Ht.
  apply bind_Some in Ht as (cIn & _ & Ht).
  apply bind_Some in Ht as (b0 & _ & Ht).
  apply bind_Some in Ht as (g & _ & Ht).
  apply bind_Some in Ht as ([sIn sOut] & Hs & Ht).
  apply bind_Some in Ht as (b1 & Hb1 & Ht).
  apply bind_Some in Ht as (b2 & _ & Ht).
  apply bind_Some in Ht as (out & _ & Ht).
  apply bind_Some in Ht as (bufs & Hbufs & Ht).
  injection Ht as <-. exists sIn, sOut, b1. split; [done|].
  destruct (index_simBindGroups _ _ _ Hs) as [(Hst & -> & ->) | (Hst & -> & ->)];
    unfold particleBuffer, setParticleBuffer in *; simpl in *;
    injection Hbufs as <-; injection Hb1 as <-; simpl; rewrite Hst;
    repeat split; eauto; lia.
Qed.

(** X11.  The display is one tick behind the simulation.  The render pass
    of a frame draws the particle buffer that the tick of this frame read,
    which the tick left as it was; the buffer the tick wrote is drawn by
    the next frame. *)
Theorem frame_draws_the_state_before_its_tick (fuel : nat)
    (cOrder sOrder cOrder' sOrder' : list nat)
    (e e1 e2 : Engine) (drawn1 drawn2 : list (Particle F)) :
  frame fuel cOrder sOrder e = Some (e1, drawn1) ->
  frame fuel cOrder' sOrder' e1 = Some (e2, drawn2) ->
  exists src dst,
    index simBindGroups (step e) = Some (src, dst) /\ src <> dst /\
    particleBuffer e src = Some drawn1 /\
    particleBuffer e1 src = Some drawn1 /\
    particleBuffer e1 dst = Some drawn2.
Proof.
  unfold frame. intros H1 H2.
  apply bind_Some in H1 as (e1' & Ht1 & H1).
  apply bind_Some in H1 as (b & Hb & H1).
  apply bind_Some in H1 as (d & Hd & H1). injection H1 as <- <-.
  apply bind_Some in H2 as (e2' & Ht2 & H2).
  apply bind_Some in H2 as (b' & Hb' & H2).
  apply bind_Some in H2 as (d' & Hd' & H2). injection H2 as <- <-.
  destruct (tick_buffers _ _ _ _ _ Ht1) as (src & dst & bin & Hs & Hne & Hst & Hst1 & Hin & Hin1 & _).
  destruct (tick_buffers _ _ _ _ _ Ht2) as (src' & dst' & bin' & Hs' & Hne' & Hst' & Hst2 & Hin' & Hin2 & _).
  exists src, dst. split; [done|]. split; [done|].
  unfold currentBufferIndex in *.
  destruct (index_simBindGroups _ _ _ Hs) as [(_ & -> & ->) | (_ & -> & ->)];
    destruct (index_simBindGroups _ _ _ Hs') as [(? & -> & ->) | (? & -> & ->)];
    try lia;
    rewrite Hst1 in Hb; rewrite Hst2 in Hb'; simpl in Hb, Hb';
    injection Hb as <-; injection Hb' as <-;
    rewrite Hin1 in Hd; injection Hd as <-;
    rewrite Hin' in Hd' || rewrite Hin2 in Hd';
    injection Hd' as <-; done.
Qed.
End FrameExtras.

Section EngineWitnesses.
Import F32 F32Spec Examples LinkedListEngine main_ts.

Lemma stale_grid_does_not_reach_a_tick_witness :
  let e := engineOf 4 sim4 fourColours four in
  tick 5 backwards backwards
    {| simBuffer := simBuffer e; matrixBuffer := matrixBuffer e;
       colourBuffer := colourBuffer e; particleBuffers := particleBuffers e;
       headsBuffer := [7; 7]; headsInitBuffer := headsInitBuffer e;
       linkedBuffer := [3; 2; 1; 0]; step := step e |} =
  tick 5 backwards backwards e.
Proof.
  apply (stale_grid_does_not_reach_a_tick 5 backwards backwards
           (engineOf 4 sim4 fourColours four) [7; 7] [3; 2; 1; 0] 4);
    try reflexivity.
  intros i Hi. unfold backwards. rewrite elem_of_reverse. apply elem_of_seq. lia.
Defined.

Lemma frame_draws_the_state_before_its_tick_witness :
  let e := engineOf 4 sim4 fourColours four in
  exists e1 drawn1 e2 drawn2,
    frame 5 backwards backwards e = Some (e1, drawn1) /\
    frame 5 backwards backwards e1 = Some (e2, drawn2) /\
    exists src dst,
      index simBindGroups (step e) = Some (src, dst) /\ src <> dst /\
      particleBuffer e src = Some drawn1 /\
      particleBuffer e1 src = Some drawn1 /\
      particleBuffer e1 dst = Some drawn2.
Proof.
  cbv zeta.
  destruct (frame 5 backwards backwards (engineOf 4 sim4 fourColours four))
    as [[e1 d1]|] eqn:E1; [|vm_compute in E1; discriminate].
  pose proof E1 as E1'. vm_compute in E1'. injection E1' as He1 Hd1.
  destruct (frame 5 backwards backwards e1) as [[e2 d2]|] eqn:E2;
    [|rewrite <- He1 in E2; vm_compute in E2; discriminate].
  exists e1, d1, e2, d2. split; [done|]. split; [done|].
  exact (frame_draws_the_state_before_its_tick 5 backwards backwards
           backwards backwards _ e1 e2 d1 d2 E1 E2).
Defined.
End EngineWitnesses.

(* ------------------------------------------------------------------ *)
(** * Further properties in binary32: the two shaders agree on the grid, the head table is large enough *)
(* ------------------------------------------------------------------ *)

(** Binary32 is the [F32] reading of the shaders throughout: every
    operation, the division and the square root included, is correctly
    rounded (to nearest, ties to even); [Rounds] and [RoundsS] say so. *)

Section GridConsistency.
Import RoundSpec F32 F32Spec.
Local Open Scope Q_scope.

(** The normalised coordinate of [cellCoord] is a NaN, [+infinity], or a
    number of the format that is not negative. *)
Lemma normalised_cases (v h r : f32) :
  valid v = true -> valid h = true -> valid r = true ->
  is_pos h -> is_pos r ->
  let n := SFdiv prec emax (SFadd prec emax (clamp v (SFopp h) h) h) r in
  n = S754_nan \/ n = S754_infinity false \/ (fin n /\ valid n = true).
Proof.
  intros Hv Hh Hr Hph Hpr n. unfold n.
  destruct (is_pos_cases h Hph) as [-> | (mh & eh & ->)].
  { destruct (is_pos_cases r Hpr) as [-> | (mr & er & ->)];
      destruct (clamp v _ _) as [?|[|]| |]; auto. }
  pose proof (clamp_cases v mh eh Hv Hh) as Hc. cbv zeta in Hc.
  set (h := S754_finite false mh eh) in *.
  set (c := clamp v (SFopp h) h) in *.
  destruct Hc as [Hnan | (Hvc & Hfc & Hlo & Hhi)].
  { rewrite Hnan. left.
    by destruct (is_pos_cases r Hpr) as [-> | (mr & er & ->)]. }
  pose proof (sum_Rounds c mh eh Hvc Hh Hfc Hlo) as RA. fold h in RA.
  destruct (Rounds_valid _ _ RA) as [HvA HfA].
  destruct (is_pos_cases r Hpr) as [-> | (mr & er & ->)].
  { destruct HfA as [HfA | ->]; [|by left].
    right. right.
    by destruct (SFadd prec emax c h) as [[|]| | |[|] ? ?]. }
  destruct HfA as [HfA | ->]; [|by right; left].
  destruct (SFadd prec emax c h) as [[|]| | |[|] mA eA] eqn:EA; try done.
  { right. right. done. }
  destruct (valid_Canon _ _ _ HvA) as [(_ & HdA & _) _].
  pose proof (SFdiv_Rounds mA eA mr er HdA) as RN.
  destruct (Rounds_valid _ _ RN) as [HvN [HfN | ->]]; auto.
Qed.

Lemma floor_fin (a : f32) : fin a -> valid a = true -> fin (floor a).
Proof.
  intros Hf Hv. destruct a as [[|]| | |[|] m e]; try done.
  destruct (valid_Canon _ _ _ Hv) as [Hc _]. pose proof (Canon_lt _ _ Hc) as Hlt.
  unfold floor. destruct (Z.leb_spec 0 e) as [He|He]; [done|].
  unfold floor_Z. cbn [cond_Zopp].
  pose proof (shiftl_small m e Hlt He) as Hz.
  destruct (Z.eqb_spec (Z.shiftl (Zpos m) e) 0) as [E|E]; [done|].
  destruct (of_Z_exact (Z.shiftl (Zpos m) e) ltac:(lia)) as (m' & e' & -> & _).
  done.
Qed.

Lemma to_i32_fin (a : f32) :
  fin a -> (to_u32 a < 2147483648)%Z -> to_i32 a = to_u32 a.
Proof.
  intros Hf. destruct a as [[|]| | |[|] m e]; try done.
  unfold to_u32, to_i32, trunc_Z, u32_sat, i32_sat, u32_max, i32_min, i32_max.
  cbn [cond_Zopp].
  assert (0 <= Z.shiftl (Zpos m) e)%Z by (apply Z.shiftl_nonneg; lia). lia.
Qed.

(** Below 2^31 the two copies of [cellCoord] agree. *)
Lemma cellCoord_agree (v h r : f32) :
  valid v = true -> valid h = true -> valid r = true ->
  is_pos h -> is_pos r ->
  let n := SFdiv prec emax (SFadd prec emax (clamp v (SFopp h) h) h) r in
  (to_u32 (floor n) < 2147483648)%Z -> to_i32 (floor n) = to_u32 (floor n).
Proof.
  intros Hv Hh Hr Hph Hpr n Hlt.
  destruct (normalised_cases v h r Hv Hh Hr Hph Hpr) as [E | [E | [Hf Hval]]];
    fold n in E || idtac.
  - fold n in E. by rewrite E.
  - fold n in E. rewrite E in Hlt. by vm_compute in Hlt.
  - fold n in Hf, Hval. apply to_i32_fin; [by apply floor_fin | done].
Qed.
End GridConsistency.

Section GridConsistencyTheorems.
Import RoundSpec F32 F32Spec Examples.

(** X12.  The Force Integrator looks for a particle where the Grid Builder
    filed it.  In binary32, for every position and every parameter record
    (numbers of the format, positive radius and world half-size) whose
    grid has fewer than 46341 cells per axis, the [i32] copies of
    [gridDim], [cellCoord] and [cellIndex] in sim.wgsl give the values of
    the [u32] originals in construct.wgsl. *)
Theorem integrator_finds_the_builders_cell (sim : Sim f32) (p : Particle f32) :
  valid (x4 (pos p)) = true -> valid (y4 (pos p)) = true ->
  valid (r sim) = true -> valid (worldSize sim) = true ->
  is_pos (r sim) -> is_pos (worldSize sim) ->
  f_u32 (f_ceil (worldSize sim * F2 / r sim)%F) < 46340 ->
  let dim := i32_wrap (sim_wgsl.gridDim sim) in
  let cx := sim_wgsl.cellCoord (x4 (pos p)) sim in
  let cy := sim_wgsl.cellCoord (y4 (pos p)) sim in
  dim = construct_wgsl.gridDim sim /\
  cx = construct_wgsl.cellCoord (x4 (pos p)) sim /\
  cy = construct_wgsl.cellCoord (y4 (pos p)) sim /\
  sim_wgsl.cellIndex cx cy dim = construct_wgsl.cellOf sim p.
Proof.
  intros Hx Hy Hr Hh Hpr Hph HU dim cx cy.
  pose proof (cellCoord_core (x4 (pos p)) _ _ Hx Hh Hr Hph Hpr) as Hcx.
  pose proof (cellCoord_core (y4 (pos p)) _ _ Hy Hh Hr Hph Hpr) as Hcy.
  pose proof (cellCoord_agree (x4 (pos p)) _ _ Hx Hh Hr Hph Hpr) as Hax.
  pose proof (cellCoord_agree (y4 (pos p)) _ _ Hy Hh Hr Hph Hpr) as Hay.
  cbv zeta in Hcx, Hcy, Hax, Hay.
  change (to_u32 (ceil (SFdiv prec emax (SFmul prec emax (worldSize sim) F2) (r sim))))
    with (f_u32 (f_ceil (worldSize sim * F2 / r sim)%F)) in Hcx, Hcy.
  set (U := f_u32 (f_ceil (worldSize sim * F2 / r sim)%F)) in *.
  specialize (Hcx ltac:(unfold u32_max; lia)).
  specialize (Hcy ltac:(unfold u32_max; lia)).
  specialize (Hax ltac:(lia)). specialize (Hay ltac:(lia)).
  assert (Hdim : construct_wgsl.gridDim sim = U + 1).
  { unfold construct_wgsl.gridDim, u32_wrap. fold U. apply Z.mod_small. lia. }
  assert (Hdim' : dim = U + 1).
  { unfold dim. change (sim_wgsl.gridDim sim) with (construct_wgsl.gridDim sim).
    rewrite Hdim. unfold i32_wrap. rewrite Z.mod_small by lia. lia. }
  assert (Ecx : cx = construct_wgsl.cellCoord (x4 (pos p)) sim) by exact Hax.
  assert (Ecy : cy = construct_wgsl.cellCoord (y4 (pos p)) sim) by exact Hay.
  split; [congruence|]. split; [done|]. split; [done|].
  unfold construct_wgsl.cellOf, construct_wgsl.cellIndex, sim_wgsl.cellIndex.
  rewrite <- Ecx, <- Ecy, Hdim, Hdim'.
  assert (Hcx' : 0 <= cx <= U) by (rewrite Ecx; exact Hcx).
  assert (Hcy' : 0 <= cy <= U) by (rewrite Ecy; exact Hcy).
  assert (0 <= cy * (U + 1) + cx < 2147483648) by nia.
  unfold i32_wrap, u32_wrap. rewrite !Z.mod_small by lia. lia.
Qed.

Lemma integrator_finds_the_builders_cell_witness :
  let sim := sim4 in
  let p := atRest (lit 6 1) (lit (-100) 1) in
  let dim := i32_wrap (sim_wgsl.gridDim sim) in
  let cx := sim_wgsl.cellCoord (x4 (pos p)) sim in
  let cy := sim_wgsl.cellCoord (y4 (pos p)) sim in
  dim = construct_wgsl.gridDim sim /\
  cx = construct_wgsl.cellCoord (x4 (pos p)) sim /\
  cy = construct_wgsl.cellCoord (y4 (pos p)) sim /\
  sim_wgsl.cellIndex cx cy dim = construct_wgsl.cellOf sim p.
Proof.
  apply (integrator_finds_the_builders_cell sim4 (atRest (lit 6 1) (lit (-100) 1)));
    reflexivity.
Defined.
End GridConsistencyTheorems.

Section Capacity.
Import RoundSpec F32 F32Spec Examples.
Local Open Scope Q_scope.

Lemma SFleb_Q (a b : f32) :
  valid a = true -> valid b = true -> is_finite a -> is_finite b ->
  SFleb a b = true <-> to_Q a <= to_Q b.
Proof.
  intros Hva Hvb Ha Hb. unfold SFleb. rewrite SFcompare_Q by done.
  destruct (Qcompare_spec (to_Q a) (to_Q b)) as [E|E|E]; split; try done;
    intros; lra.
Qed.

(** With the world half-size 6 and a radius of at least 1/4, the grid has
    at most 49 cells per axis. *)
Lemma gridDim_small (r : f32) :
  valid r = true -> SFleb (lit 1 4) r = true ->
  (to_u32 (ceil (SFdiv prec emax (SFmul prec emax (lit 6 1) F2) r)) <= 48)%Z.
Proof.
  intros Hv Hle.
  assert (E12 : SFmul prec emax (lit 6 1) F2 = S754_finite false 12582912 (-20))
    by (vm_compute; reflexivity).
  rewrite E12.
  destruct r as [s|[|]| |[|] mr er]; try (vm_compute in Hle; discriminate).
  pose proof (SFdiv_Rounds 12582912 (-20) mr er ltac:(vm_compute; discriminate)) as RD.
  assert (R48 : Rounds (to_Q (lit 48 1)) (lit 48 1)).
  { assert (E : lit 48 1 = S754_finite false 12582912 (-18)) by (vm_compute; reflexivity).
    rewrite E. apply valid_Rounds. reflexivity. }
  apply SFleb_Q in Hle; [|done..].
  pose proof (to_Q_pos mr er) as Hr.
  assert (Hq : to_Q (S754_finite false 12582912 (-20)) / to_Q (S754_finite false mr er) <=
               to_Q (lit 48 1)).
  { assert (E1 : to_Q (S754_finite false 12582912 (-20)) == 12) by reflexivity.
    assert (E2 : to_Q (lit 48 1) == 48) by reflexivity.
    assert (E3 : to_Q (lit 1 4) == 1 # 4) by reflexivity.
    rewrite E1, E2. rewrite E3 in Hle.
    apply Qle_shift_div_r; [done|]. lra. }
  destruct (Rounds_mono _ _ _ _ RD R48 Hq) as [Hinf | (HfD & _ & HD)];
    [vm_compute in Hinf; discriminate|].
  destruct (Rounds_valid _ _ RD) as [HvD _].
  rewrite ceil_spec by done.
  apply (Qceiling_resp_le _ _) in HD.
  assert (E48 : Qceiling (to_Q (lit 48 1)) = 48%Z) by reflexivity.
  rewrite E48 in HD. unfold u32_sat, u32_max. lia.
Qed.
End Capacity.

Section CapacityTheorem.
Import RoundSpec F32 F32Spec Examples.

Lemma cellOf_below_maxCells (sim : Sim f32) (p : Particle f32) :
  worldSize sim = lit 6 1 ->
  valid (r sim) = true -> SFleb (lit 1 4) (r sim) = true ->
  valid (x4 (pos p)) = true -> valid (y4 (pos p)) = true ->
  0 <= construct_wgsl.cellOf sim p < LinkedListEngine.maxCells.
Proof.
  intros Hw Hr Hle Hx Hy.
  pose proof (gridDim_small (r sim) Hr Hle) as HU.
  assert (Hpr : is_pos (r sim)).
  { destruct (r sim) as [s|[|]| |[|] mr er]; try (vm_compute in Hle; discriminate);
      reflexivity. }
  assert (Hh : valid (worldSize sim) = true) by (by rewrite Hw).
  assert (Hph : is_pos (worldSize sim)) by (by rewrite Hw).
  pose proof (cellCoord_core (x4 (pos p)) _ _ Hx Hh Hr Hph Hpr) as Hcx.
  pose proof (cellCoord_core (y4 (pos p)) _ _ Hy Hh Hr Hph Hpr) as Hcy.
  cbv zeta in Hcx, Hcy. rewrite Hw in Hcx, Hcy.
  set (U := to_u32 (ceil (SFdiv prec emax (SFmul prec emax (lit 6 1) F2) (r sim)))) in *.
  specialize (Hcx ltac:(unfold u32_max; lia)).
  specialize (Hcy ltac:(unfold u32_max; lia)).
  assert (HU0 : 0 <= U) by apply to_u32_range.
  assert (Hcx' : 0 <= construct_wgsl.cellCoord (x4 (pos p)) sim <= U).
  { unfold construct_wgsl.cellCoord. rewrite Hw. exact Hcx. }
  assert (Hcy' : 0 <= construct_wgsl.cellCoord (y4 (pos p)) sim <= U).
  { unfold construct_wgsl.cellCoord. rewrite Hw. exact Hcy. }
  assert (Hdim : construct_wgsl.gridDim sim = U + 1).
  { unfold construct_wgsl.gridDim. rewrite Hw. apply Z.mod_small.
    change (f_u32 (f_ceil (lit 6 1 * F2 / r sim)%F)) with U. lia. }
  unfold construct_wgsl.cellOf, construct_wgsl.cellIndex. rewrite Hdim.
  set (cx := construct_wgsl.cellCoord (x4 (pos p)) sim) in *.
  set (cy := construct_wgsl.cellCoord (y4 (pos p)) sim) in *.
  unfold u32_wrap. rewrite Z.mod_small by nia.
  unfold LinkedListEngine.maxCells, LinkedListEngine.maxDim. nia.
Qed.

(** X13.  The head table is large enough for every radius the sliders
    allow.  In binary32, with the world half-size 6 of [defaultOptions]
    and any radius of at least 1/4, the cell index of every particle (its
    coordinates any numbers of the format) is below [maxCells], the number
    of cells [createAccelerationBuffers] allocates. *)
Theorem head_table_holds_every_cell (sim : Sim f32) (p : Particle f32) :
  worldSize sim = lit 6 1 ->
  valid (r sim) = true -> SFleb (lit 1 4) (r sim) = true ->
  valid (x4 (pos p)) = true -> valid (y4 (pos p)) = true ->
  0 <= construct_wgsl.cellOf sim p < LinkedListEngine.maxCells.
Proof. apply cellOf_below_maxCells. Qed.

Lemma head_table_holds_every_cell_witness :
  0 <= construct_wgsl.cellOf unitRadius (atRest (lit 6 1) (lit 6 1))
    < LinkedListEngine.maxCells.
Proof.
  apply (head_table_holds_every_cell unitRadius (atRest (lit 6 1) (lit 6 1)));
    reflexivity.
Defined.
End CapacityTheorem.

Section TickInTable.
Import RoundSpec F32 F32Spec Examples LinkedListEngine.

(** X14.  A tick never leaves the head table for the radii of the sliders.
    In binary32, on an engine as the constructor sizes it (head table of
    [maxCells] sentinels, [count] particles per buffer), with the world
    half-size 6, a radius of at least 1/4 and particle coordinates that are
    numbers of the format: every construct invocation finds its cell in the
    table, every list of the sim pass ends, and the tick completes and
    flips the ping-pong index. *)
Theorem tick_completes_for_slider_radii (fuel : nat)
    (cOrder sOrder : list nat) (e : Engine) (count : nat) (src dst : Z)
    (bin bout : list (Particle f32)) :
  index simBindGroups (step e) = Some (src, dst) ->
  particleBuffer e src = Some bin -> particleBuffer e dst = Some bout ->
  length bin = count -> length bout = count ->
  length (linkedBuffer e) = count -> Z.of_nat count <= 2147483648 ->
  headsInitBuffer e = replicate (Z.to_nat maxCells) (-1) ->
  worldSize (simBuffer e) = lit 6 1 ->
  valid (r (simBuffer e)) = true -> SFleb (lit 1 4) (r (simBuffer e)) = true ->
  (forall p, p ∈ bin ->
     valid (x4 (pos p)) = true /\ valid (y4 (pos p)) = true) ->
  cOrder ≡ₚ seq 0 (invocations count) ->
  sOrder ≡ₚ seq 0 (invocations count) ->
  (count < fuel)%nat ->
  exists e' out,
    tick fuel cOrder sOrder e = Some e' /\
    step e' = 1 - step e /\
    particleBuffer e' src = Some bin /\
    particleBuffer e' dst = Some out /\ length out = count.
Proof.
  intros Hs Hin Hout Hlin Hlout Hll HN Hinit Hw Hr Hle Hvalid HcO HsO Hfuel.
  destruct (tick_spec fuel cOrder sOrder e count (Z.to_nat maxCells) src dst bin bout)
    as (e' & g & out & Ht & _ & Hsrc & Hdst & Hlen & Hstep & _); try done.
  { intros p Hp. destruct (Hvalid p Hp) as [Hx Hy].
    pose proof (cellOf_below_maxCells (simBuffer e) p Hw Hr Hle Hx Hy).
    rewrite Z2Nat.id by (by vm_compute). lia. }
  exists e', out. done.
Qed.

Lemma tick_completes_for_slider_radii_witness :
  let e := engineOf 4 unitRadius fourColours four in
  exists e' out,
    tick 5 backwards backwards e = Some e' /\
    step e' = 1 - step e /\
    particleBuffer e' 0 = Some four /\
    particleBuffer e' 1 = Some out /\ length out = 4%nat.
Proof.
  apply (tick_completes_for_slider_radii 5 backwards backwards
           (engineOf 4 unitRadius fourColours four) 4 0 1 four four);
    try reflexivity.
  - vm_compute. discriminate.
  - intros p Hp. unfold four in Hp.
    repeat (apply elem_of_cons in Hp as [-> | Hp]; [split; reflexivity|]).
    by apply elem_of_nil in Hp.
  - apply reverse_Permutation.
  - apply reverse_Permutation.
  - lia.
Defined.
End TickInTable.

(* ------------------------------------------------------------------ *)
(** * Further properties in binary32: signed rounding, the force curve and the wrap *)
(* ------------------------------------------------------------------ *)

(** Binary32 is the [F32] reading of the shaders throughout: every
    operation, the division and the square root included, is correctly
    rounded (to nearest, ties to even); [Rounds] and [RoundsS] say so. *)

Section SignedRounding.
Import RoundSpec SignedRoundSpec F32 F32Spec.
Local Open Scope Q_scope.

Lemma SFopp_involutive (a : f32) : SFopp (SFopp a) = a.
Proof. destruct a as [s|s| |s m e]; simpl; by rewrite ?negb_involutive. Qed.

Lemma valid_SFopp (a : f32) : valid (SFopp a) = valid a.
Proof. by destruct a. Qed.

Lemma is_finite_SFopp (a : f32) : is_finite (SFopp a) <-> is_finite a.
Proof. by destruct a. Qed.

Lemma to_Q_SFopp (a : f32) : to_Q (SFopp a) == - to_Q a.
Proof.
  destruct a as [s|s| |s m e]; try reflexivity.
  destruct s; cbn [SFopp negb].
  - pose proof (to_Q_neg m e). lra.
  - apply to_Q_neg.
Qed.

Lemma RoundsS_proper x y f : x == y -> RoundsS x f -> RoundsS y f.
Proof.
  intros E [[H0 H1] | [H0 H1]]; [left | right].
  - split; [lra|]. by eapply Rounds_proper.
  - split; [lra|]. eapply Rounds_proper; [|exact H1]. lra.
Qed.

Lemma binary_normalize_RoundsS (m e : Z) :
  RoundsS (inject_Z m * pow2 e) (binary_normalize prec emax m e false).
Proof.
  pose proof (pow2_pos e) as HP.
  destruct m as [|p|p].
  - left. split; [change (inject_Z 0) with 0; lra|].
    apply (binary_normalize_Rounds 0 e). lia.
  - left. split.
    + pose proof (inject_Z_pos (Zpos p) ltac:(lia)). nra.
    + apply (binary_normalize_Rounds (Zpos p) e). lia.
  - right.
    assert (E : inject_Z (Z.neg p) == - inject_Z (Zpos p)).
    { change (Z.neg p) with (- Zpos p)%Z. by rewrite inject_Z_opp. }
    pose proof (inject_Z_pos (Zpos p) ltac:(lia)). split; [rewrite E; nra|].
    cbn [binary_normalize]. rewrite binary_round_opp, SFopp_involutive.
    eapply Rounds_proper; [|apply binary_round_Rounds]. rewrite E. ring.
Qed.

(** Numbers of the format are their own rounding. *)
Lemma valid_RoundsS (a : f32) :
  valid a = true -> is_finite a -> RoundsS (to_Q a) a.
Proof.
  intros Hv Hf. destruct a as [[|]| | |[|] m e]; try done.
  - right. split; [apply Qle_refl|]. apply Rounds_zero.
  - left. split; [apply Qle_refl|]. apply Rounds_zero.
  - right. pose proof (to_Q_pos m e). pose proof (to_Q_neg m e).
    split; [lra|]. cbn [SFopp negb].
    eapply Rounds_proper; [|by apply valid_Rounds]. lra.
  - left. pose proof (to_Q_pos m e). split; [lra|]. by apply valid_Rounds.
Qed.

Lemma nonneg_value_Rounds (a : f32) :
  valid a = true -> is_finite a -> 0 <= to_Q a ->
  exists a', Rounds (to_Q a) a' /\ fin a' /\ to_Q a' == to_Q a.
Proof.
  intros Hv Hf H0. destruct a as [s| | |[|] m e]; try done.
  - exists (S754_zero false). split; [apply Rounds_zero|]. done.
  - pose proof (to_Q_pos m e). pose proof (to_Q_neg m e). lra.
  - exists (S754_finite false m e). split; [by apply valid_Rounds|]. done.
Qed.

Lemma Rounds_between x f (L U : f32) :
  Rounds x f ->
  valid L = true -> is_finite L -> valid U = true -> is_finite U ->
  to_Q L <= x -> x <= to_Q U ->
  fin f /\ valid f = true /\ to_Q L <= to_Q f <= to_Q U.
Proof.
  intros Hf HvL HfL HvU HfU Hlo Hhi.
  destruct (Rounds_result x f Hf) as (v & Hv0 & _ & _).
  assert (Hx0 : 0 <= x).
  { destruct Hf as (e & mrs & Hl & _). pose proof (Located_bracket _ _ _ Hl) as [Hb _].
    destruct Hl as [Hm _]. pose proof (pow2_pos e).
    assert (0 <= inject_Z (shr_m mrs)).
    { change 0 with (inject_Z 0). by rewrite <- Zle_Qle. }
    nra. }
  destruct (nonneg_value_Rounds U HvU HfU ltac:(lra)) as (U' & RU & HfU' & EU).
  destruct (Rounds_mono x (to_Q U) f U' Hf RU Hhi) as [Hinf | (Hff & _ & Hle)].
  { rewrite Hinf in HfU'. done. }
  destruct (Rounds_valid _ _ Hf) as [Hval _].
  split; [done|]. split; [done|]. split; [|lra].
  pose proof (fin_nonneg f Hff) as Hf0.
  destruct (Qlt_le_dec 0 (to_Q L)) as [HL|HL]; [|lra].
  destruct (nonneg_value_Rounds L HvL HfL ltac:(lra)) as (L' & RL & HfL' & EL).
  destruct (Rounds_mono (to_Q L) x L' f RL Hf Hlo) as [Hinf | (_ & _ & Hle')].
  { rewrite Hinf in Hff. done. }
  lra.
Qed.

(** A rounded value lies between any two numbers of the format that its
    exact value lies between. *)
Lemma RoundsS_between x f (L U : f32) :
  RoundsS x f ->
  valid L = true -> is_finite L -> valid U = true -> is_finite U ->
  to_Q L <= x -> x <= to_Q U ->
  is_finite f /\ valid f = true /\ to_Q L <= to_Q f <= to_Q U.
Proof.
  intros [[H0 Hf] | [H0 Hf]] HvL HfL HvU HfU Hlo Hhi.
  - destruct (Rounds_between x f L U Hf) as (Hff & Hv & Hb); try done.
    split; [|done]. by destruct f as [[|]| | |[|] ? ?].
  - destruct (Rounds_between (- x) (SFopp f) (SFopp U) (SFopp L) Hf)
      as (Hff & Hv & Hb);
      rewrite ?valid_SFopp, ?is_finite_SFopp, ?to_Q_SFopp; try done; try lra.
    rewrite valid_SFopp in Hv. rewrite !to_Q_SFopp in Hb.
    split; [|split; [done | lra]].
    by destruct f as [[|]| | |[|] ? ?].
Qed.

Lemma SFadd_finite_RoundsS sa ma ea sb mb eb :
  let a := S754_finite sa ma ea in
  let b := S754_finite sb mb eb in
  RoundsS (to_Q a + to_Q b) (SFadd prec emax a b).
Proof.
  intros a b. unfold a, b, SFadd.
  set (ez := Z.min ea eb).
  destruct (shl_align_spec ma ea ez) as [_ Ha].
  destruct (shl_align_spec mb eb ez) as [_ Hb].
  replace (Z.min ea ez) with ez in Ha by (unfold ez; lia).
  replace (Z.min eb ez) with ez in Hb by (unfold ez; lia).
  set (S := (cond_Zopp sa (Zpos (fst (shl_align ma ea ez))) +
             cond_Zopp sb (Zpos (fst (shl_align mb eb ez))))%Z).
  assert (HS : inject_Z S * pow2 ez == to_Q a + to_Q b).
  { unfold S, a, b. rewrite !to_Q_finite, inject_Z_plus, Ha, Hb.
    rewrite !inject_Z_cond_Zopp.
    pose proof (inject_pow2_shift (Zpos ma) ea ez ltac:(unfold ez; lia)) as Ea.
    pose proof (inject_pow2_shift (Zpos mb) eb ez ltac:(unfold ez; lia)) as Eb.
    destruct sa, sb; lra. }
  eapply RoundsS_proper; [exact HS|]. apply binary_normalize_RoundsS.
Qed.

Lemma SFsub_finite sa ma ea sb mb eb :
  SFsub prec emax (S754_finite sa ma ea) (S754_finite sb mb eb) =
  SFadd prec emax (S754_finite sa ma ea) (SFopp (S754_finite sb mb eb)).
Proof.
  unfold SFsub, SFadd. cbn [SFopp]. f_equal.
  change IntDef.Z.sub with Z.sub. change IntDef.Z.add with Z.add.
  destruct sb; simpl; lia.
Qed.

(** Addition and subtraction of numbers of the format round the exact
    sum and difference. *)
Lemma SFadd_RoundsS (a b : f32) :
  valid a = true -> valid b = true -> is_finite a -> is_finite b ->
  RoundsS (to_Q a + to_Q b) (SFadd prec emax a b).
Proof.
  intros Hva Hvb Hfa Hfb.
  destruct a as [sa| | |sa ma ea]; try done;
    destruct b as [sb| | |sb mb eb]; try done.
  - eapply RoundsS_proper; [|apply (valid_RoundsS (SFadd prec emax (S754_zero sa) (S754_zero sb)))];
      destruct sa, sb; done.
  - eapply RoundsS_proper; [|apply (valid_RoundsS (S754_finite sb mb eb)); done].
    change (to_Q (S754_zero sa)) with 0. ring.
  - eapply RoundsS_proper; [|apply (valid_RoundsS (S754_finite sa ma ea)); done].
    change (to_Q (S754_zero sb)) with 0. ring.
  - apply SFadd_finite_RoundsS.
Qed.

Lemma SFsub_RoundsS (a b : f32) :
  valid a = true -> valid b = true -> is_finite a -> is_finite b ->
  RoundsS (to_Q a - to_Q b) (SFsub prec emax a b).
Proof.
  intros Hva Hvb Hfa Hfb.
  destruct a as [sa| | |sa ma ea]; try done;
    destruct b as [sb| | |sb mb eb]; try done.
  - eapply RoundsS_proper; [|apply (valid_RoundsS (SFsub prec emax (S754_zero sa) (S754_zero sb)))];
      destruct sa, sb; done.
  - eapply RoundsS_proper;
      [|apply (valid_RoundsS (SFopp (S754_finite sb mb eb))); done].
    rewrite to_Q_SFopp. change (to_Q (S754_zero sa)) with 0. ring.
  - eapply RoundsS_proper; [|apply (valid_RoundsS (S754_finite sa ma ea)); done].
    change (to_Q (S754_zero sb)) with 0. ring.
  - rewrite SFsub_finite.
    eapply RoundsS_proper; [|apply SFadd_finite_RoundsS].
    change (SFopp (S754_finite sb mb eb)) with (S754_finite (negb sb) mb eb).
    pose proof (to_Q_SFopp (S754_finite sb mb eb)) as E. cbn [SFopp] in E.
    rewrite E. ring.
Qed.

(** Values of 2^128 and above round to infinity. *)
Lemma Rounds_overflow y g : Rounds y g -> pow2 128 <= y -> g = S754_infinity false.
Proof.
  intros Hg Hy.
  assert (R : Rounds (inject_Z 16777216 * pow2 104) (S754_infinity false)).
  { apply (binary_normalize_Rounds 16777216 104). lia. }
  assert (E : inject_Z 16777216 * pow2 104 == pow2 128).
  { change 16777216%Z with (2 ^ 24)%Z. rewrite <- pow2_shift by lia. reflexivity. }
  destruct (Rounds_result _ _ R) as (v & _ & Hv & Hnext).
  destruct Hv as [[_ Hv] | (Hfin & _)]; [|done].
  destruct (Hnext y g Hg ltac:(lra)) as (w & Hvw & [[-> _] | (_ & _ & _ & Hw)]);
    [done | lra].
Qed.

(** Doubling is exact when it does not overflow. *)
Lemma SFmul_two_exact m e :
  let h : f32 := S754_finite false m e in
  valid h = true -> is_finite (SFmul prec emax h F2) ->
  valid (SFmul prec emax h F2) = true /\
  to_Q (SFmul prec emax h F2) == 2 * to_Q h.
Proof.
  intros h Hv Hfin. rewrite F2_eq in *.
  pose proof (SFmul_two_Rounds m e Hv) as RT. fold h in RT.
  destruct (Rounds_valid _ _ RT) as [HvT _]. split; [done|].
  destruct (valid_Canon _ _ _ Hv) as [Hc He].
  pose proof Hc as (_ & Hd & Hfe). rewrite fexp32_eq in Hfe.
  change prec with 24%Z in Hd.
  pose proof (Zdigits2_bounds (Zpos m) ltac:(lia)) as [Hlo Hhi].
  pose proof (pow2_pos e) as HP.
  assert (Hval : to_Q h == inject_Z (Zpos m) * pow2 e) by reflexivity.
  destruct (Z.eq_dec e 104%Z) as [-> | Hne].
  { (* the double is 2^128 or more *)
    pose proof (Canon_normal _ _ Hc ltac:(lia)) as Hn.
    assert (Hbig : pow2 128 <= to_Q h * 2).
    { rewrite Hval.
      assert (pow2 128 == inject_Z (2 ^ 24) * pow2 104)
        by (rewrite <- pow2_shift by lia; reflexivity).
      assert (inject_Z (2 ^ 23) <= inject_Z (Zpos m)) by (by rewrite <- Zle_Qle).
      change (inject_Z (2 ^ 24)) with 16777216 in *.
      change (inject_Z (2 ^ 23)) with 8388608 in *. nra. }
    rewrite (Rounds_overflow _ _ RT Hbig) in Hfin. done. }
  destruct (Z.eq_dec (Zdigits2 (Zpos m)) 24%Z) as [Hd24 | Hd24].
  - (* a normal number: the exponent goes up *)
    destruct (Rounds_exact _ _ (Zpos m) (e + 1) RT) as (m' & e' & -> & Hq);
      [ | lia | lia | | ].
    + split; [lia|]. split; [change prec with 24%Z; lia|].
      rewrite fexp32_eq. lia.
    + rewrite Hval, pow2_succ. ring.
    + rewrite Hq. ring.
  - (* a subnormal number: the mantissa doubles *)
    assert (He149 : e = (-149)%Z) by lia.
    destruct (Rounds_exact _ _ (Zpos m * 2 ^ 1) e RT) as (m' & e' & -> & Hq);
      [ | lia | lia | | ].
    + split; [lia|]. rewrite Zdigits2_mul_pow2 by lia.
      split; [change prec with 24%Z; lia|]. rewrite fexp32_eq. lia.
    + rewrite Hval, inject_Z_mult. change (inject_Z (2 ^ 1)) with 2. ring.
    + rewrite Hq. ring.
Qed.

Lemma SFltb_false_Q (a b : f32) :
  valid a = true -> valid b = true -> is_finite a -> is_finite b ->
  SFltb a b = false -> to_Q b <= to_Q a.
Proof.
  intros Hva Hvb Ha Hb Hf.
  destruct (Qlt_le_dec (to_Q a) (to_Q b)) as [Hlt|]; [|done].
  apply SFltb_Q in Hlt; [congruence | done..].
Qed.

(** The two conditional shifts by a world width bring any value within
    three half-widths of the centre to within one. *)
Lemma wrap_range (h p : f32) :
  valid h = true -> is_finite h -> is_pos h ->
  is_finite (SFmul prec emax h F2) ->
  valid p = true -> is_finite p ->
  - 3 * to_Q h <= to_Q p -> to_Q p <= 3 * to_Q h ->
  let p1 := if SFltb h p then SFsub prec emax p (SFmul prec emax h F2) else p in
  let p2 := if SFltb p1 (SFopp h) then SFadd prec emax p1 (SFmul prec emax h F2)
            else p1 in
  is_finite p2 /\ valid p2 = true /\ - to_Q h <= to_Q p2 <= to_Q h.
Proof.
  intros Hvh Hfh Hph HfT Hvp Hfp Hlo Hhi p1 p2.
  destruct (is_pos_cases h Hph) as [-> | (mh & eh & ->)]; [done|].
  destruct (SFmul_two_exact mh eh Hvh HfT) as [HvT ET].
  set (h := S754_finite false mh eh) in *.
  set (T := SFmul prec emax h F2) in *.
  pose proof (to_Q_pos mh eh) as Hh0. fold h in Hh0.
  pose proof (to_Q_SFopp h) as Hopp.
  assert (HvO : valid (SFopp h) = true) by (by rewrite valid_SFopp).
  assert (HfO : is_finite (SFopp h)) by exact I.
  assert (H1 : is_finite p1 /\ valid p1 = true /\ to_Q p1 <= to_Q h /\
               - 3 * to_Q h <= to_Q p1).
  { unfold p1. destruct (SFltb h p) eqn:Hgt.
    - apply SFltb_Q in Hgt; [|assumption..].
      assert (Hlo' : to_Q (SFopp h) <= to_Q p - to_Q T) by lra.
      assert (Hhi' : to_Q p - to_Q T <= to_Q h) by lra.
      destruct (RoundsS_between _ _ (SFopp h) h
                  (SFsub_RoundsS p T Hvp HvT Hfp HfT) HvO HfO Hvh Hfh Hlo' Hhi')
        as (F1' & V1 & B1).
      split; [assumption|]. split; [assumption|]. split; lra.
    - apply SFltb_false_Q in Hgt; [|assumption..].
      split; [assumption|]. split; [assumption|]. split; lra. }
  destruct H1 as (Hf1 & Hv1 & Hu1 & Hl1).
  unfold p2. destruct (SFltb p1 (SFopp h)) eqn:Hlt.
  - pose proof Hlt as Hlt'. apply SFltb_Q in Hlt'; [|assumption..].
    assert (Hlo' : to_Q (SFopp h) <= to_Q p1 + to_Q T) by lra.
    assert (Hhi' : to_Q p1 + to_Q T <= to_Q h) by lra.
    destruct (RoundsS_between _ _ (SFopp h) h
                (SFadd_RoundsS p1 T Hv1 HvT Hf1 HfT) HvO HfO Hvh Hfh Hlo' Hhi')
      as (F2' & V2 & B2).
    split; [assumption|]. split; [assumption|]. lra.
  - apply SFltb_false_Q in Hlt; [|assumption..].
    split; [assumption|]. split; [assumption|]. lra.
Qed.
End SignedRounding.

Section ForceExtras.
Import RoundSpec SignedRoundSpec F32 F32Spec Examples.
Local Open Scope Q_scope.

Lemma quotient_below_one (d b : f32) :
  valid d = true -> valid b = true ->
  is_nonneg d -> SFltb d b = true ->
  let q := SFdiv prec emax d b in
  is_finite q /\ valid q = true /\ 0 <= to_Q q <= 1.
Proof.
  intros Hvd Hvb Hd Hlt.
  destruct d as [sd|[|]| |[|] md ed];
    try (exfalso; clear -Hd; discriminate);
    destruct b as [sb|[|]| |[|] mb eb];
    try (exfalso; clear -Hlt; discriminate);
    try (by (cbn [SFdiv xorb]; repeat split)).
  assert (E1 : to_Q F1 == 1) by reflexivity.
  assert (Hv1 : valid F1 = true) by reflexivity.
  destruct (valid_Canon _ _ _ Hvd) as [(_ & Hdd & _) _].
  pose proof (SFdiv_Rounds md ed mb eb Hdd) as RQ.
  apply SFltb_Q in Hlt; [|assumption || exact I..].
  pose proof (to_Q_pos md ed) as Hd0. pose proof (to_Q_pos mb eb) as Hb0.
  assert (Hlo : to_Q (S754_zero false) <=
                to_Q (S754_finite false md ed) / to_Q (S754_finite false mb eb)).
  { change (to_Q (S754_zero false)) with 0.
    apply Qle_shift_div_l; [assumption|]. lra. }
  assert (Hhi : to_Q (S754_finite false md ed) / to_Q (S754_finite false mb eb) <=
                to_Q F1).
  { rewrite E1. apply Qle_shift_div_r; [assumption|]. lra. }
  destruct (Rounds_between _ _ (S754_zero false) F1 RQ eq_refl I Hv1 I Hlo Hhi)
    as (Hf & Hv & Hb).
  cbv zeta. split; [|split; [assumption|]].
  - clear -Hf. by destruct (SFdiv prec emax _ _) as [[|]| | |[|] ? ?].
  - rewrite E1 in Hb. change (to_Q (S754_zero false)) with 0 in Hb. exact Hb.
Qed.

Lemma forceCurve_repulsion (d b : f32) :
  valid d = true -> valid b = true ->
  is_nonneg d -> SFltb d b = true ->
  let f := SFsub prec emax (SFdiv prec emax d b) F1 in
  is_finite f /\ valid f = true /\ -1 <= to_Q f <= 0.
Proof.
  intros Hvd Hvb Hd Hlt f.
  assert (E1 : to_Q F1 == 1) by reflexivity.
  assert (Hv1 : valid F1 = true) by reflexivity.
  assert (HvO : valid (SFopp F1) = true) by reflexivity.
  assert (EO : to_Q (SFopp F1) == -1) by reflexivity.
  destruct (quotient_below_one d b Hvd Hvb Hd Hlt) as (Hfq & Hvq & Hq0 & Hq1).
  set (q := SFdiv prec emax d b) in *.
  assert (Hlo : to_Q (SFopp F1) <= to_Q q - to_Q F1) by lra.
  assert (Hhi : to_Q q - to_Q F1 <= to_Q (S754_zero false)).
  { change (to_Q (S754_zero false)) with 0. lra. }
  destruct (RoundsS_between _ _ (SFopp F1) (S754_zero false)
              (SFsub_RoundsS q F1 Hvq Hv1 Hfq I) HvO I eq_refl I Hlo Hhi)
    as (Hf & Hv & Hb).
  split; [assumption|]. split; [assumption|].
  rewrite EO in Hb. change (to_Q (S754_zero false)) with 0 in Hb. exact Hb.
Qed.

(** The wrap-corrected difference of two coordinates inside the world. *)
Lemma wrapDiff_range (h a b : f32) :
  valid h = true -> is_finite h -> is_pos h ->
  is_finite (SFmul prec emax h F2) ->
  valid a = true -> valid b = true ->
  SFleb (SFopp h) a = true -> SFleb a h = true ->
  SFleb (SFopp h) b = true -> SFleb b h = true ->
  let d := sim_wgsl.wrapDiff h (SFsub prec emax a b) in
  SFleb (SFopp h) d = true /\ SFleb d h = true.
Proof.
  intros Hvh Hfh Hph HfT Hva Hvb Ha1 Ha2 Hb1 Hb2 d.
  destruct (is_pos_cases h Hph) as [E | (mh & eh & E)];
    [rewrite E in Hfh; destruct Hfh|].
  pose proof (to_Q_SFopp h) as Hopp.
  assert (HvO : valid (SFopp h) = true) by (by rewrite valid_SFopp).
  assert (HfO : is_finite (SFopp h)) by (by apply is_finite_SFopp).
  assert (Hfa : is_finite a).
  { clear -Ha1 Ha2 E. subst h. by destruct a as [?|[|]| |]. }
  assert (Hfb : is_finite b).
  { clear -Hb1 Hb2 E. subst h. by destruct b as [?|[|]| |]. }
  apply SFleb_Q in Ha1, Ha2, Hb1, Hb2; try assumption.
  assert (HT : valid (SFmul prec emax h F2) = true /\
               to_Q (SFmul prec emax h F2) == 2 * to_Q h).
  { subst h. by apply SFmul_two_exact. }
  destruct HT as [HvT ET]. set (T := SFmul prec emax h F2) in *.
  pose proof (to_Q_SFopp T) as HoppT.
  assert (Hlo : to_Q (SFopp T) <= to_Q a - to_Q b) by lra.
  assert (Hhi : to_Q a - to_Q b <= to_Q T) by lra.
  assert (HvOT : valid (SFopp T) = true) by (by rewrite valid_SFopp).
  assert (HfOT : is_finite (SFopp T)) by (by apply is_finite_SFopp).
  destruct (RoundsS_between _ _ (SFopp T) T
              (SFsub_RoundsS a b Hva Hvb Hfa Hfb)
              HvOT HfOT HvT HfT Hlo Hhi) as (Hfd & Hvd & Hbd).
  assert (H3lo : - 3 * to_Q h <= to_Q (SFsub prec emax a b)) by lra.
  assert (H3hi : to_Q (SFsub prec emax a b) <= 3 * to_Q h) by lra.
  destruct (wrap_range h (SFsub prec emax a b) Hvh Hfh Hph HfT Hvd Hfd H3lo H3hi)
    as (Hf & Hv & Hb).
  change (is_finite d) in Hf. change (valid d = true) in Hv.
  change (- to_Q h <= to_Q d <= to_Q h) in Hb.
  split; apply SFleb_Q; try assumption; lra.
Qed.
End ForceExtras.

Section ForceTheorems.
Import RoundSpec SignedRoundSpec F32 F32Spec Examples sim_wgsl.

(** X15.  Short-range repulsion never attracts.  In binary32, for a
    distance [d] that is not negative and is below [beta] (numbers of the
    format), the force curve takes its first branch whatever the
    coefficient, and its value is a finite number in [[-1, 0]], rounding
    included. *)
Theorem short_range_force_is_repulsive (d b c : f32) :
  valid d = true -> valid b = true ->
  is_nonneg d -> SFltb d b = true ->
  forceCurve d b c = (d / b - F1)%F /\
  is_finite (forceCurve d b c) /\ valid (forceCurve d b c) = true /\
  (-1 <= to_Q (forceCurve d b c) <= 0)%Q.
Proof.
  intros Hvd Hvb Hd Hlt.
  assert (E : forceCurve d b c = (d / b - F1)%F).
  { unfold forceCurve. cbn [f_lt scalar]. by rewrite Hlt. }
  split; [done|]. rewrite E.
  exact (forceCurve_repulsion d b Hvd Hvb Hd Hlt).
Qed.

Lemma short_range_force_is_repulsive_witness :
  forceCurve (lit 1 10) (lit 3 10) (lit 1 1) = (lit 1 10 / lit 3 10 - F1)%F /\
  is_finite (forceCurve (lit 1 10) (lit 3 10) (lit 1 1)) /\
  valid (forceCurve (lit 1 10) (lit 3 10) (lit 1 1)) = true /\
  (-1 <= to_Q (forceCurve (lit 1 10) (lit 3 10) (lit 1 1)) <= 0)%Q.
Proof.
  apply (short_range_force_is_repulsive (lit 1 10) (lit 3 10) (lit 1 1));
    reflexivity.
Defined.

(** X16.  The toroidal wrap returns a particle that overshot by at most
    one world width.  In binary32 (numbers of the format, positive finite
    half-size whose double does not overflow), a coordinate within three
    half-sizes of the centre is, after the two conditional shifts of
    [wrapAxis], a finite number in [[-half, half]], rounding included. *)
Theorem wrap_returns_overshoot_inside (half p : f32) :
  valid half = true -> is_finite half -> is_pos half ->
  is_finite (half * F2)%F ->
  valid p = true -> is_finite p ->
  (- 3 * to_Q half <= to_Q p)%Q -> (to_Q p <= 3 * to_Q half)%Q ->
  is_finite (wrapAxis half p) /\ valid (wrapAxis half p) = true /\
  (- to_Q half <= to_Q (wrapAxis half p) <= to_Q half)%Q.
Proof.
  intros Hvh Hfh Hph HfT Hvp Hfp Hlo Hhi.
  exact (wrap_range half p Hvh Hfh Hph HfT Hvp Hfp Hlo Hhi).
Qed.

Lemma wrap_returns_overshoot_inside_witness :
  is_finite (wrapAxis (lit 6 1) (lit 601 100)) /\
  valid (wrapAxis (lit 6 1) (lit 601 100)) = true /\
  (- to_Q (lit 6 1) <= to_Q (wrapAxis (lit 6 1) (lit 601 100)) <= to_Q (lit 6 1))%Q.
Proof.
  apply (wrap_returns_overshoot_inside (lit 6 1) (lit 601 100));
    try reflexivity; vm_compute; discriminate.
Defined.

(** X17.  The wrap-corrected displacement is the shortest one.  In
    binary32, under toroidal mode (positive finite half-size whose double
    does not overflow), for two positions inside the world the displacement
    that the pairwise loop uses has both components in [[-half, half]],
    rounding included. *)
Theorem wrapped_displacement_is_shortest (sim : Sim f32) (from : vec2 f32)
    (q : Particle f32) :
  border sim = 1%Z ->
  let half := worldSize sim in
  valid half = true -> is_finite half -> is_pos half ->
  is_finite (half * F2)%F ->
  valid (vx from) = true -> valid (vy from) = true ->
  valid (x4 (pos q)) = true -> valid (y4 (pos q)) = true ->
  SFleb (SFopp half) (vx from) = true -> SFleb (vx from) half = true ->
  SFleb (SFopp half) (vy from) = true -> SFleb (vy from) half = true ->
  SFleb (SFopp half) (x4 (pos q)) = true -> SFleb (x4 (pos q)) half = true ->
  SFleb (SFopp half) (y4 (pos q)) = true -> SFleb (y4 (pos q)) half = true ->
  let diff := displacement sim from q in
  (SFleb (SFopp half) (vx diff) = true /\ SFleb (vx diff) half = true) /\
  (SFleb (SFopp half) (vy diff) = true /\ SFleb (vy diff) half = true).
Proof.
  intros Hb half Hvh Hfh Hph HfT Vfx Vfy Vqx Vqy X1 X2 Y1 Y2 QX1 QX2 QY1 QY2 diff.
  unfold diff, displacement. rewrite Hb. simpl Z.eqb. cbv iota. fold half.
  split.
  - exact (wrapDiff_range half (x4 (pos q)) (vx from)
             Hvh Hfh Hph HfT Vqx Vfx QX1 QX2 X1 X2).
  - exact (wrapDiff_range half (y4 (pos q)) (vy from)
             Hvh Hfh Hph HfT Vqy Vfy QY1 QY2 Y1 Y2).
Qed.

Lemma wrapped_displacement_is_shortest_witness :
  let sim := defaultSim in
  let from := Vec2 (lit (-59) 10) (lit 0 1) in
  let q := atRest (lit 59 10) (lit 1 1) in
  let half := worldSize sim in
  let diff := displacement sim from q in
  (SFleb (SFopp half) (vx diff) = true /\ SFleb (vx diff) half = true) /\
  (SFleb (SFopp half) (vy diff) = true /\ SFleb (vy diff) half = true).
Proof.
  apply (wrapped_displacement_is_shortest defaultSim
           (Vec2 (lit (-59) 10) (lit 0 1)) (atRest (lit 59 10) (lit 1 1)));
    reflexivity.
Defined.
End ForceTheorems.

(* ------------------------------------------------------------------ *)
(** * Further properties in binary32: products, square roots and the force of a pair *)
(* ------------------------------------------------------------------ *)

(** Binary32 is the [F32] reading of the shaders throughout: every
    operation, the division and the square root included, is correctly
    rounded (to nearest, ties to even); [Rounds] and [RoundsS] say so. *)

Section ProductRounding.
Import RoundSpec SignedRoundSpec F32 F32Spec.
Local Open Scope Q_scope.

Lemma binary_round_aux_opp m e l :
  binary_round_aux prec emax true m e l =
    SFopp (binary_round_aux prec emax false m e l).
Proof.
  unfold binary_round_aux.
  destruct (shr_fexp prec emax m e l) as [mrs' e'].
  destruct (shr_fexp prec emax _ e' loc_Exact) as [mrs'' e''].
  destruct (shr_m mrs''); try reflexivity.
  by destruct (IntDef.Z.leb e'' (IntDef.Z.sub emax prec)).
Qed.

Lemma Zdigits2_ge_1 a : (0 < a)%Z -> (1 <= Zdigits2 a)%Z.
Proof.
  intros Ha. rewrite Zdigits2_log2 by done. pose proof (Z.log2_nonneg a). lia.
Qed.

Lemma Zdigits2_mul a b :
  (0 < a)%Z -> (0 < b)%Z ->
  (Zdigits2 a + Zdigits2 b - 1 <= Zdigits2 (a * b))%Z.
Proof.
  intros Ha Hb.
  pose proof (Zdigits2_bounds a Ha) as [La _].
  pose proof (Zdigits2_bounds b Hb) as [Lb _].
  pose proof (Zdigits2_bounds (a * b) ltac:(nia)) as [_ U].
  pose proof (Zdigits2_ge_1 a Ha). pose proof (Zdigits2_ge_1 b Hb).
  pose proof (Zdigits2_nonneg (a * b)).
  assert (L : (2 ^ (Zdigits2 a - 1 + (Zdigits2 b - 1)) <= a * b)%Z).
  { rewrite Z.pow_add_r by lia.
    assert (0 < 2 ^ (Zdigits2 a - 1))%Z by (apply Z.pow_pos_nonneg; lia).
    assert (0 < 2 ^ (Zdigits2 b - 1))%Z by (apply Z.pow_pos_nonneg; lia).
    nia. }
  assert (Hlt : (2 ^ (Zdigits2 a - 1 + (Zdigits2 b - 1)) < 2 ^ Zdigits2 (a * b))%Z)
    by lia.
  apply Z.pow_lt_mono_r_iff in Hlt; lia.
Qed.

(** The exponent of a product of two numbers of the format is not above
    the one the format gives the product. *)
Lemma mul_exponent ma ea mb eb :
  Canon (Zpos ma) ea -> Canon (Zpos mb) eb ->
  (ea + eb <= fexp32 (Zdigits2 (Zpos (ma * mb)) + (ea + eb)))%Z.
Proof.
  intros (_ & _ & Ea) (_ & _ & Eb).
  pose proof (Zdigits2_mul (Zpos ma) (Zpos mb) ltac:(lia) ltac:(lia)) as Hd.
  pose proof (Zdigits2_ge_1 (Zpos ma) ltac:(lia)).
  pose proof (Zdigits2_ge_1 (Zpos mb) ltac:(lia)).
  change (Zpos ma * Zpos mb)%Z with (Zpos (ma * mb)) in Hd.
  rewrite fexp32_eq in *. lia.
Qed.

Lemma SFmul_finite_RoundsS sa ma ea sb mb eb :
  let a := S754_finite sa ma ea in
  let b := S754_finite sb mb eb in
  valid a = true -> valid b = true ->
  RoundsS (to_Q a * to_Q b) (SFmul prec emax a b).
Proof.
  intros a b Hva Hvb.
  destruct (valid_Canon _ _ _ Hva) as [Ca _].
  destruct (valid_Canon _ _ _ Hvb) as [Cb _].
  pose proof (mul_exponent ma ea mb eb Ca Cb) as He.
  set (P := inject_Z (Zpos (ma * mb)) * pow2 (ea + eb)).
  assert (HP : 0 < P).
  { unfold P. pose proof (pow2_pos (ea + eb)).
    pose proof (inject_Z_pos (Zpos (ma * mb)) ltac:(lia)). nra. }
  assert (R : Rounds P (binary_round_aux prec emax false (Zpos (ma * mb))
                          (ea + eb) loc_Exact)).
  { apply binary_round_aux_Rounds; [lia | | exact He].
    apply Located_exact. lia. }
  assert (E : to_Q a * to_Q b ==
              if xorb sa sb then - P else P).
  { unfold a, b, P. rewrite !to_Q_finite.
    change (Zpos (ma * mb)) with (Zpos ma * Zpos mb)%Z.
    pose proof (pow2_add ea eb) as Hadd.
    pose proof (inject_Z_mult (Zpos ma) (Zpos mb)) as Hmul.
    destruct sa, sb; cbn [xorb cond_Zopp];
      rewrite ?inject_Z_opp, Hadd, Hmul; ring. }
  unfold a, b in *. clear a b. unfold SFmul.
  change IntDef.Z.add with Z.add.
  destruct (xorb sa sb).
  - right. split; [rewrite E; lra|].
    rewrite binary_round_aux_opp, SFopp_involutive.
    eapply Rounds_proper; [|exact R]. rewrite E. ring.
  - left. split; [rewrite E; lra|].
    eapply Rounds_proper; [|exact R]. rewrite E. reflexivity.
Qed.

Lemma RoundsS_zero s : RoundsS 0 (S754_zero s).
Proof.
  destruct s.
  - right. split; [apply Qle_refl|]. cbn [SFopp negb].
    eapply Rounds_proper; [|apply Rounds_zero]. ring.
  - left. split; [apply Qle_refl|]. apply Rounds_zero.
Qed.

Lemma SFmul_RoundsS (a b : f32) :
  valid a = true -> valid b = true -> is_finite a -> is_finite b ->
  RoundsS (to_Q a * to_Q b) (SFmul prec emax a b).
Proof.
  intros Hva Hvb Ha Hb.
  destruct a as [sa| | |sa ma ea]; try (exfalso; exact Ha);
    destruct b as [sb| | |sb mb eb]; try (exfalso; exact Hb).
  - eapply RoundsS_proper; [|apply (RoundsS_zero (xorb sa sb))].
    change (to_Q (S754_zero sa)) with 0. ring.
  - eapply RoundsS_proper; [|apply (RoundsS_zero (xorb sa sb))].
    change (to_Q (S754_zero sa)) with 0. ring.
  - eapply RoundsS_proper; [|apply (RoundsS_zero (xorb sa sb))].
    change (to_Q (S754_zero sb)) with 0. ring.
  - by apply SFmul_finite_RoundsS.
Qed.

Lemma RoundsS_valid x f : RoundsS x f -> valid f = true.
Proof.
  intros [[_ R] | [_ R]]; destruct (Rounds_valid _ _ R) as [Hv _]; [done|].
  by rewrite valid_SFopp in Hv.
Qed.

(** The operations keep the format: the result of an addition, a
    subtraction or a product of numbers of the format is one. *)
Lemma valid_SFadd (a b : f32) :
  valid a = true -> valid b = true -> valid (SFadd prec emax a b) = true.
Proof.
  intros Hva Hvb.
  destruct a as [sa|sa| |sa ma ea]; destruct b as [sb|sb| |sb mb eb];
    try reflexivity; try assumption;
    try (destruct sa, sb; reflexivity).
  eapply RoundsS_valid, (SFadd_RoundsS (S754_finite sa ma ea)
                             (S754_finite sb mb eb)); try assumption; exact I.
Qed.

Lemma valid_SFsub (a b : f32) :
  valid a = true -> valid b = true -> valid (SFsub prec emax a b) = true.
Proof.
  intros Hva Hvb.
  destruct a as [sa|sa| |sa ma ea]; destruct b as [sb|sb| |sb mb eb];
    try reflexivity; try assumption;
    try (destruct sa, sb; reflexivity).
  eapply RoundsS_valid, (SFsub_RoundsS (S754_finite sa ma ea)
                             (S754_finite sb mb eb)); try assumption; exact I.
Qed.

Lemma valid_SFmul (a b : f32) :
  valid a = true -> valid b = true -> valid (SFmul prec emax a b) = true.
Proof.
  intros Hva Hvb.
  destruct a as [sa|sa| |sa ma ea]; destruct b as [sb|sb| |sb mb eb];
    try reflexivity.
  eapply RoundsS_valid, (SFmul_finite_RoundsS sa ma ea sb mb eb); assumption.
Qed.

Lemma SFabs_cases (a : f32) :
  valid a = true -> is_finite a ->
  valid (SFabs a) = true /\ fin (SFabs a) /\ to_Q (SFabs a) == Qabs (to_Q a).
Proof.
  intros Hv Hf. destruct a as [s| | |s m e]; try (exfalso; exact Hf).
  - repeat split.
  - split; [|split; [exact I|]].
    + destruct s; exact Hv.
    + cbn [SFabs]. pose proof (to_Q_pos m e) as Hp. destruct s.
      * pose proof (to_Q_neg m e) as Hn. rewrite Hn.
        rewrite Qabs_opp. symmetry. apply Qabs_pos. lra.
      * symmetry. apply Qabs_pos. lra.
Qed.

(** A positive number of the format below one is at most [1 - 2^-24]. *)
Lemma below_one_gap m e :
  valid (S754_finite false m e) = true ->
  to_Q (S754_finite false m e) < 1 ->
  to_Q (S754_finite false m e) <= 1 - (1 # 16777216).
Proof.
  intros Hv Hlt. destruct (valid_Canon _ _ _ Hv) as [Hc _].
  pose proof (Canon_lt _ _ Hc) as Hm.
  rewrite to_Q_finite in *. cbn [cond_Zopp] in *.
  assert (Hm0 : 0 < inject_Z (Zpos m)) by (apply inject_Z_pos; lia).
  assert (Hm1 : inject_Z (Zpos m) <= 16777215).
  { change 16777215 with (inject_Z 16777215). rewrite <- Zle_Qle. lia. }
  destruct (Z_le_gt_dec e (-25)%Z) as [He|He].
  - pose proof (pow2_le e (-25)%Z He) as Hp. pose proof (pow2_pos e).
    change (pow2 (-25)) with (1 # 33554432) in Hp.
    assert (inject_Z (Zpos m) * pow2 e <= 16777215 * (1 # 33554432)) by nra.
    lra.
  - destruct (Z.eq_dec e (-24)%Z) as [->|Hne].
    + change (pow2 (-24)) with (1 # 16777216). lra.
    + exfalso. destruct Hc as (_ & _ & Hfe). rewrite fexp32_eq in Hfe.
      assert (Hd : Zdigits2 (Zpos m) = 24%Z) by lia.
      pose proof (Zdigits2_bounds (Zpos m) ltac:(lia)) as [Hlo _].
      rewrite Hd in Hlo. change (2 ^ (24 - 1))%Z with 8388608%Z in Hlo.
      assert (Hm2 : 8388608 <= inject_Z (Zpos m)).
      { change 8388608 with (inject_Z 8388608). rewrite <- Zle_Qle. lia. }
      pose proof (pow2_le (-23)%Z e ltac:(lia)) as Hp.
      change (pow2 (-23)) with (1 # 8388608) in Hp.
      assert (8388608 * (1 # 8388608) <= inject_Z (Zpos m) * pow2 e) by nra.
      lra.
Qed.
End ProductRounding.

Section ForceCurveFinite.
Import RoundSpec SignedRoundSpec F32 F32Spec sim_wgsl.
Local Open Scope Q_scope.

Lemma between_is_finite (a L U : f32) :
  is_finite L -> is_finite U ->
  SFleb L a = true -> SFleb a U = true -> is_finite a.
Proof.
  intros HL HU H1 H2.
  destruct a as [?|[|]| |]; try exact I; exfalso.
  - clear -HL H1. by destruct L as [?|[|]| |[|] ? ?].
  - clear -HU H2. by destruct U as [?|[|]| |[|] ? ?].
  - clear -H1. by destruct L as [?|[|]| |[|] ? ?].
Qed.

Local Ltac bnd E0 E1 E2 EP EB EO1 EO2 EOB :=
  rewrite ?E0, ?E1, ?E2, ?EP, ?EB, ?EO1, ?EO2, ?EOB; first [lra | nra].

(** The second branch of [forceCurve]. *)
Lemma forceCurve_mid (d b c : f32) :
  valid d = true -> valid b = true -> valid c = true ->
  is_nonneg d -> is_pos b ->
  SFltb d b = false -> SFltb d F1 = true ->
  SFleb (SFopp F1) c = true -> SFleb c F1 = true ->
  let f := SFmul prec emax c
             (SFsub prec emax F1
                (SFdiv prec emax
                   (SFabs (SFsub prec emax
                             (SFsub prec emax (SFmul prec emax F2 d) F1) b))
                   (SFsub prec emax F1 b))) in
  is_finite f /\ valid f = true /\ -33554432 <= to_Q f <= 33554432.
Proof.
  intros Hvd Hvb Hvc Hd Hb Hdb Hd1 Hc1 Hc2.
  set (Z0 := S754_zero false).

  set (P24 := S754_finite false 8388608 (-47)).
  set (B25 := S754_finite false 8388608 2).
  assert (E0 : to_Q Z0 == 0) by reflexivity.
  assert (E1 : to_Q F1 == 1) by reflexivity.
  assert (E2 : to_Q F2 == 2) by reflexivity.
  assert (EP : to_Q P24 == 1 # 16777216) by reflexivity.
  assert (EB : to_Q B25 == 33554432) by reflexivity.
  assert (EO1 : to_Q (SFopp F1) == -1) by reflexivity.
  assert (EO2 : to_Q (SFopp F2) == -2) by reflexivity.
  assert (EOB : to_Q (SFopp B25) == -33554432) by reflexivity.
  assert (Hv0 : valid Z0 = true) by reflexivity.
  assert (Hv1 : valid F1 = true) by reflexivity.
  assert (Hv2 : valid F2 = true) by reflexivity.
  assert (HvP : valid P24 = true) by reflexivity.
  assert (HvB : valid B25 = true) by reflexivity.
  assert (HvO1 : valid (SFopp F1) = true) by reflexivity.
  assert (HvO2 : valid (SFopp F2) = true) by reflexivity.
  assert (HvOB : valid (SFopp B25) = true) by reflexivity.
  (* the arguments as rationals *)
  assert (Hfd : is_finite d).
  { clear -Hd Hd1. by destruct d as [?|[|]| |]. }
  assert (Hfc : is_finite c).
  { exact (between_is_finite c (SFopp F1) F1 I I Hc1 Hc2). }
  destruct (is_pos_cases b Hb) as [E | (mb & eb & E)]; subst b.
  { exfalso. clear -Hfd Hdb. by destruct d as [?|[|]| |[|] ? ?]. }
  set (b := S754_finite false mb eb) in *.
  assert (Hfb : is_finite b) by exact I.
  pose proof (to_Q_pos mb eb) as Hb0. fold b in Hb0.
  assert (Qd0 : 0 <= to_Q d).
  { apply (SFleb_Q F0 d) in Hd; [|assumption || exact I || reflexivity..].
    exact Hd. }
  assert (Qd1 : to_Q d < 1).
  { apply (SFltb_Q d F1) in Hd1; [|assumption || exact I..]. lra. }
  assert (Qdb : to_Q b <= to_Q d).
  { by apply SFltb_false_Q. }
  assert (Qb1 : to_Q b <= 1 - (1 # 16777216)).
  { apply (below_one_gap mb eb); [assumption|]. change (to_Q b < 1). lra. }
  apply (SFleb_Q (SFopp F1) c) in Hc1; [|assumption || exact I..].
  apply (SFleb_Q c F1) in Hc2; [|assumption || exact I..].
  (* 2.0 * dist *)
  assert (Hlo : to_Q Z0 <= to_Q F2 * to_Q d) by (bnd E0 E1 E2 EP EB EO1 EO2 EOB).
  assert (Hhi : to_Q F2 * to_Q d <= to_Q F2) by (bnd E0 E1 E2 EP EB EO1 EO2 EOB).
  destruct (RoundsS_between _ _ Z0 F2 (SFmul_RoundsS F2 d Hv2 Hvd I Hfd)
              Hv0 I Hv2 I Hlo Hhi) as (Hf1 & Hva1 & Ha1).
  clear Hlo Hhi.
  rewrite ?E0, ?E1, ?E2, ?EP, ?EB, ?EO1, ?EO2, ?EOB in Ha1.
  match type of Ha1 with _ <= to_Q ?t <= _ => set (a1 := t) in * end.
  (* ... - 1.0 *)
  assert (Hlo : to_Q (SFopp F1) <= to_Q a1 - to_Q F1) by (bnd E0 E1 E2 EP EB EO1 EO2 EOB).
  assert (Hhi : to_Q a1 - to_Q F1 <= to_Q F1) by (bnd E0 E1 E2 EP EB EO1 EO2 EOB).
  destruct (RoundsS_between _ _ (SFopp F1) F1 (SFsub_RoundsS a1 F1 Hva1 Hv1 Hf1 I)
              HvO1 I Hv1 I Hlo Hhi) as (Hf2 & Hva2 & Ha2).
  clear Hlo Hhi.
  rewrite ?E0, ?E1, ?E2, ?EP, ?EB, ?EO1, ?EO2, ?EOB in Ha2.
  match type of Ha2 with _ <= to_Q ?t <= _ => set (a2 := t) in * end.
  (* ... - beta *)
  assert (Hlo : to_Q (SFopp F2) <= to_Q a2 - to_Q b) by (bnd E0 E1 E2 EP EB EO1 EO2 EOB).
  assert (Hhi : to_Q a2 - to_Q b <= to_Q F1) by (bnd E0 E1 E2 EP EB EO1 EO2 EOB).
  destruct (RoundsS_between _ _ (SFopp F2) F1 (SFsub_RoundsS a2 b Hva2 Hvb Hf2 Hfb)
              HvO2 I Hv1 I Hlo Hhi) as (Hf3 & Hva3 & Ha3).
  clear Hlo Hhi.
  rewrite ?E0, ?E1, ?E2, ?EP, ?EB, ?EO1, ?EO2, ?EOB in Ha3.
  match type of Ha3 with _ <= to_Q ?t <= _ => set (a3 := t) in * end.
  (* abs(...) *)
  destruct (SFabs_cases a3 Hva3 Hf3) as (Hva4 & Hf4 & Ea4).
  set (a4 := SFabs a3) in *.
  assert (Ha4 : 0 <= to_Q a4 <= 2).
  { rewrite Ea4. split; [apply Qabs_nonneg|]. apply Qabs_Qle_condition. lra. }
  (* 1.0 - beta *)
  assert (Hlo : to_Q P24 <= to_Q F1 - to_Q b) by (bnd E0 E1 E2 EP EB EO1 EO2 EOB).
  assert (Hhi : to_Q F1 - to_Q b <= to_Q F1) by (bnd E0 E1 E2 EP EB EO1 EO2 EOB).
  destruct (RoundsS_between _ _ P24 F1 (SFsub_RoundsS F1 b Hv1 Hvb I Hfb)
              HvP I Hv1 I Hlo Hhi) as (Hf5 & Hva5 & Ha5).
  clear Hlo Hhi.
  rewrite ?E0, ?E1, ?E2, ?EP, ?EB, ?EO1, ?EO2, ?EOB in Ha5.
  match type of Ha5 with _ <= to_Q ?t <= _ => set (a5 := t) in * end.
  (* the quotient *)
  assert (H6 : is_finite (SFdiv prec emax a4 a5) /\
               valid (SFdiv prec emax a4 a5) = true /\
               0 <= to_Q (SFdiv prec emax a4 a5) <= 33554432).
  { clearbody a4 a5. clear -Hva4 Hf4 Ha4 Hf5 Hva5 Ha5 EP EB E0 Hv0 HvB.
    destruct a5 as [s5| | |[|] m5 e5]; try (exfalso; exact Hf5).
    - exfalso. change (to_Q (S754_zero s5)) with 0 in Ha5. lra.
    - exfalso. pose proof (to_Q_pos m5 e5). pose proof (to_Q_neg m5 e5). lra.
    - pose proof (to_Q_pos m5 e5) as H5.
      destruct a4 as [[|]| | |[|] m4 e4]; try (exfalso; exact Hf4).
      + cbn [SFdiv xorb]. split; [exact I|]. split; [reflexivity|].
        change (to_Q (S754_zero false)) with 0. lra.
      + destruct (valid_Canon _ _ _ Hva4) as [(_ & Hd4 & _) _].
        pose proof (SFdiv_Rounds m4 e4 m5 e5 Hd4) as RQ.
        pose proof (to_Q_pos m4 e4) as H4.
        assert (Hlo : to_Q (S754_zero false) <=
                      to_Q (S754_finite false m4 e4) / to_Q (S754_finite false m5 e5)).
        { change (to_Q (S754_zero false)) with 0.
          apply Qle_shift_div_l; [assumption|]. lra. }
        assert (Hhi : to_Q (S754_finite false m4 e4) / to_Q (S754_finite false m5 e5)
                      <= to_Q B25).
        { rewrite EB. apply Qle_shift_div_r; [assumption|]. nra. }
        destruct (Rounds_between _ _ _ _ RQ Hv0 I HvB I Hlo Hhi) as (Hf & Hv & Hbd).
        split; [|split; [assumption|]].
        * clear -Hf. by destruct (SFdiv prec emax _ _) as [[|]| | |[|] ? ?].
        * rewrite EB in Hbd. change (to_Q (S754_zero false)) with 0 in Hbd.
          exact Hbd. }
  destruct H6 as (Hf6 & Hva6 & Ha6).
  set (a6 := SFdiv prec emax a4 a5) in *.
  (* 1.0 - ... *)
  assert (Hlo : to_Q (SFopp B25) <= to_Q F1 - to_Q a6) by (bnd E0 E1 E2 EP EB EO1 EO2 EOB).
  assert (Hhi : to_Q F1 - to_Q a6 <= to_Q F1) by (bnd E0 E1 E2 EP EB EO1 EO2 EOB).
  destruct (RoundsS_between _ _ (SFopp B25) F1 (SFsub_RoundsS F1 a6 Hv1 Hva6 I Hf6)
              HvOB I Hv1 I Hlo Hhi) as (Hf7 & Hva7 & Ha7).
  clear Hlo Hhi.
  rewrite ?E0, ?E1, ?E2, ?EP, ?EB, ?EO1, ?EO2, ?EOB in Ha7.
  match type of Ha7 with _ <= to_Q ?t <= _ => set (a7 := t) in * end.
  (* coeff * ... *)
  assert (Hlo : to_Q (SFopp B25) <= to_Q c * to_Q a7) by (rewrite EOB; nra).
  assert (Hhi : to_Q c * to_Q a7 <= to_Q B25) by (rewrite EB; nra).
  destruct (RoundsS_between _ _ (SFopp B25) B25 (SFmul_RoundsS c a7 Hvc Hva7 Hfc Hf7)
              HvOB I HvB I Hlo Hhi) as (Hf8 & Hva8 & Ha8).
  rewrite EOB, EB in Ha8.
  cbv zeta. split; [assumption|]. split; assumption.
Qed.

(** All three branches. *)
Lemma forceCurve_bounded (d b c : f32) :
  valid d = true -> valid b = true -> valid c = true ->
  is_nonneg d -> is_pos b ->
  SFleb (SFopp F1) c = true -> SFleb c F1 = true ->
  is_finite (forceCurve d b c) /\ valid (forceCurve d b c) = true /\
  -33554432 <= to_Q (forceCurve d b c) <= 33554432.
Proof.
  intros Hvd Hvb Hvc Hd Hb Hc1 Hc2.
  unfold forceCurve. cbn [f_lt scalar].
  destruct (SFltb d b) eqn:Hdb.
  - destruct (forceCurve_repulsion d b Hvd Hvb Hd Hdb) as (Hf & Hv & Hb1).
    split; [assumption|]. split; [assumption|].
    change (-1 <= to_Q (SFsub prec emax (SFdiv prec emax d b) F1) <= 0) in Hb1.
    change (-33554432 <= to_Q (SFsub prec emax (SFdiv prec emax d b) F1)
            <= 33554432).
    lra.
  - match goal with |- context [if ?t then _ else _] => destruct t eqn:Hd1 end.
    + exact (forceCurve_mid d b c Hvd Hvb Hvc Hd Hb Hdb Hd1 Hc1 Hc2).
    + split; [exact I|]. split; [reflexivity|].
      assert (E : to_Q F0 == 0) by reflexivity. rewrite E. lra.
Qed.
End ForceCurveFinite.

Section SqrtRounding.
Import RoundSpec SignedRoundSpec F32 F32Spec.
Local Open Scope Q_scope.

Lemma SFsqrt_core_eq m e :
  SFsqrt_core_binary prec emax m e =
    let d := Zdigits2 m in
    let e' := Z.min (fexp32 (Z.div2 (d + e + 1))) (Z.div2 e) in
    let s := (e - 2 * e')%Z in
    let m' := match s with
              | Zpos p => Z.shiftl m s
              | Z0 => m
              | Zneg _ => 0%Z
              end in
    let (q, r) := Z.sqrtrem m' in
    let l := if (r =? 0)%Z then loc_Exact
             else loc_Inexact (if (r <=? q)%Z then Lt else Gt) in
    (q, e', l).
Proof. reflexivity. Qed.

(** The number of digits of an integer square root. *)
Lemma Zdigits2_sqrt (n q r : Z) :
  (0 < n)%Z -> n = (q * q + r)%Z -> (0 <= r <= 2 * q)%Z ->
  (0 < q)%Z /\ Zdigits2 q = ((Zdigits2 n + 1) / 2)%Z.
Proof.
  intros Hn E Hr.
  assert (Hq : (0 < q)%Z) by nia.
  split; [exact Hq|].
  pose proof (Zdigits2_bounds n Hn) as [Hlo Hhi].
  pose proof (Zdigits2_ge_1 n Hn) as HD.
  set (D := Zdigits2 n) in *. set (k := ((D + 1) / 2)%Z).
  assert (Hk : (2 * k - 1 <= D <= 2 * k)%Z).
  { pose proof (Z.div_mod (D + 1) 2 ltac:(lia)).
    pose proof (Z.mod_pos_bound (D + 1) 2 ltac:(lia)). fold k in H. lia. }
  assert (Hk1 : (1 <= k)%Z) by lia.
  assert (P1 : (2 ^ (k - 1) * 2 ^ (k - 1) <= 2 ^ (D - 1))%Z).
  { rewrite <- Z.pow_add_r by lia. apply Z.pow_le_mono_r; lia. }
  assert (P2 : (2 ^ D <= 2 ^ k * 2 ^ k)%Z).
  { rewrite <- Z.pow_add_r by lia. apply Z.pow_le_mono_r; lia. }
  assert (0 < 2 ^ (k - 1))%Z by (apply Z.pow_pos_nonneg; lia).
  assert (0 < 2 ^ k)%Z by (apply Z.pow_pos_nonneg; lia).
  apply Zdigits2_unique; [exact Hq|]. split.
  - destruct (Z_le_gt_dec (2 ^ (k - 1)) q) as [|Hc]; [done|exfalso].
    assert ((q + 1) * (q + 1) <= 2 ^ (k - 1) * 2 ^ (k - 1))%Z by nia.
    nia.
  - destruct (Z_lt_le_dec q (2 ^ k)) as [|Hc]; [done|exfalso].
    assert (2 ^ k * 2 ^ k <= q * q)%Z by nia.
    nia.
Qed.

(** What [SFsqrt_core_binary] returns: a mantissa [q] and an exponent
    [e'] with [q * 2^e'] the square root truncated, and the place of a
    number [x] with the same rounding. *)
Lemma SFsqrt_core_spec (m : positive) (e : Z) :
  let v := inject_Z (Zpos m) * pow2 e in
  exists q e' l,
    SFsqrt_core_binary prec emax (Zpos m) e = (q, e', l) /\
    (0 < q)%Z /\ (e' <= fexp32 (Zdigits2 q + e'))%Z /\
    exists x,
      Located x e' (shr_record_of_loc q l) /\
      inject_Z q * pow2 e' <= x /\ x < (inject_Z q + 1) * pow2 e' /\
      (inject_Z q * pow2 e') * (inject_Z q * pow2 e') <= v /\
      v < ((inject_Z q + 1) * pow2 e') * ((inject_Z q + 1) * pow2 e') /\
      (x == inject_Z q * pow2 e' \/
       (inject_Z q * pow2 e') * (inject_Z q * pow2 e') < v).
Proof.
  intros v. rewrite SFsqrt_core_eq. cbv zeta.
  set (d := Zdigits2 (Zpos m)).
  set (e' := Z.min (fexp32 (Z.div2 (d + e + 1))) (Z.div2 e)).
  set (s := (e - 2 * e')%Z).
  assert (He' : (e' <= fexp32 (Z.div2 (d + e + 1)))%Z) by (unfold e'; lia).
  assert (Hs : (0 <= s)%Z).
  { unfold s, e'. rewrite (Z.div2_div e).
    pose proof (Z.div_mod e 2 ltac:(lia)).
    pose proof (Z.mod_pos_bound e 2 ltac:(lia)). lia. }
  set (m' := match s with
             | Zpos p => Z.shiftl (Zpos m) s
             | Z0 => Zpos m
             | Zneg _ => 0%Z
             end).
  assert (Hm' : m' = (Zpos m * 2 ^ s)%Z).
  { unfold m'. destruct s as [|p|p] eqn:Es; [lia | | lia].
    rewrite Z.shiftl_mul_pow2 by lia. reflexivity. }
  assert (Hm'0 : (0 < m')%Z).
  { rewrite Hm'. assert (0 < 2 ^ s)%Z by (apply Z.pow_pos_nonneg; lia). lia. }
  pose proof (Z.sqrtrem_spec m' ltac:(lia)) as Hsq.
  destruct (Z.sqrtrem m') as [q r]. destruct Hsq as [Eq Hr].
  destruct (Zdigits2_sqrt m' q r Hm'0 Eq Hr) as [Hq Hdq].
  eexists q, e', _. split; [reflexivity|]. split; [exact Hq|].
  split.
  { rewrite Hdq, Hm', Zdigits2_mul_pow2 by lia. fold d.
    replace ((d + s + 1) / 2 + e')%Z with (Z.div2 (d + e + 1)); [exact He'|].
    rewrite Z.div2_div. unfold s.
    replace (d + (e - 2 * e') + 1)%Z with (d + e + 1 + (- e') * 2)%Z by lia.
    rewrite Z.div_add by lia. lia. }
  pose proof (pow2_pos e') as HP.
  assert (Hv : v == inject_Z m' * (pow2 e' * pow2 e')).
  { unfold v. rewrite Hm', inject_Z_mult, <- (pow2_Z s) by lia.
    rewrite <- pow2_add. rewrite <- Qmult_assoc, <- pow2_add.
    replace (s + (e' + e'))%Z with e by (unfold s; lia). reflexivity. }
  assert (Hm'q : inject_Z m' == inject_Z q * inject_Z q + inject_Z r).
  { rewrite Eq, inject_Z_plus, inject_Z_mult. reflexivity. }
  assert (Hq0 : 1 <= inject_Z q).
  { change 1 with (inject_Z 1). rewrite <- Zle_Qle. lia. }
  assert (Hr0 : 0 <= inject_Z r).
  { change 0 with (inject_Z 0). rewrite <- Zle_Qle. lia. }
  assert (Hr2 : inject_Z r <= 2 * inject_Z q).
  { change 2 with (inject_Z 2). rewrite <- inject_Z_mult, <- Zle_Qle. lia. }
  assert (HPP : 0 < pow2 e' * pow2 e') by nra.
  assert (Hsq1 : inject_Z q * pow2 e' * (inject_Z q * pow2 e') <= v).
  { rewrite Hv, Hm'q. nra. }
  assert (Hsq2 : v < (inject_Z q + 1) * pow2 e' * ((inject_Z q + 1) * pow2 e')).
  { rewrite Hv, Hm'q.
    assert (Ex : (inject_Z q + 1) * pow2 e' * ((inject_Z q + 1) * pow2 e') ==
                 (inject_Z q * inject_Z q + 2 * inject_Z q + 1) *
                 (pow2 e' * pow2 e')) by ring.
    rewrite Ex. apply Qmult_lt_compat_r; [exact HPP|]. lra. }
  destruct (Z.eqb_spec r 0) as [Er|Er].
  - exists (inject_Z q * pow2 e'). split; [|split; [apply Qle_refl|]].
    + split; [simpl; lia|]. simpl. reflexivity.
    + split; [nra|]. split; [assumption|]. split; [assumption|].
      left. reflexivity.
  - assert (Hr1 : 1 <= inject_Z r).
    { change 1 with (inject_Z 1). rewrite <- Zle_Qle. lia. }
    assert (Hsq3 : inject_Z q * pow2 e' * (inject_Z q * pow2 e') < v).
    { rewrite Hv, Hm'q.
      assert (Ex : inject_Z q * pow2 e' * (inject_Z q * pow2 e') ==
                   (inject_Z q * inject_Z q) * (pow2 e' * pow2 e')) by ring.
      rewrite Ex. apply Qmult_lt_compat_r; [exact HPP|]. lra. }
    destruct (Z.leb_spec r q) as [Hrq|Hrq].
    + exists ((inject_Z q + (1 # 4)) * pow2 e'). split; [|split; [nra|]].
      * split; [simpl; lia|]. simpl. split; nra.
      * split; [nra|]. split; [assumption|]. split; [assumption|].
        right. assumption.
    + exists ((inject_Z q + (3 # 4)) * pow2 e'). split; [|split; [nra|]].
      * split; [simpl; lia|]. simpl. split; nra.
      * split; [nra|]. split; [assumption|]. split; [assumption|].
        right. assumption.
Qed.

Lemma Qsquare_lt (a b : Q) : 0 <= a -> 0 < b -> a * a < b * b -> a < b.
Proof. intros Ha Hb H. destruct (Qlt_le_dec a b) as [|Hc]; [done|]. nra. Qed.

Lemma Qsquare_le (a b : Q) : 0 < a -> 0 <= b -> a * a <= b * b -> a <= b.
Proof. intros Ha Hb H. destruct (Qlt_le_dec b a) as [Hc|]; [|done]. nra. Qed.

(** The square root of a positive number of the format is a positive
    number of the format, between [2^-76] and [2^65]. *)
Lemma SFsqrt_range m e :
  valid (S754_finite false m e) = true ->
  let f := SFsqrt prec emax (S754_finite false m e) in
  fin f /\ valid f = true /\ pow2 (-76) <= to_Q f /\ to_Q f <= pow2 65.
Proof.
  intros Hv f.
  destruct (valid_Canon _ _ _ Hv) as [Hc He].
  pose proof (Canon_lt _ _ Hc) as Hm. pose proof (Canon_emin _ _ Hc) as Hemin.
  destruct (SFsqrt_core_spec m e)
    as (q & e' & l & Ecore & Hq & Hfe & x & Hl & Hx1 & Hx2 & Hs1 & Hs2 & _).
  assert (R : Rounds x f).
  { unfold f, SFsqrt. rewrite Ecore.
    apply binary_round_aux_Rounds; [lia | exact Hl | exact Hfe]. }
  set (lo := inject_Z q * pow2 e') in *.
  set (hi := (inject_Z q + 1) * pow2 e') in *.
  set (v := inject_Z (Zpos m) * pow2 e) in *.
  pose proof (pow2_pos e') as HP. pose proof (pow2_pos e) as HPe.
  assert (Hq1 : 1 <= inject_Z q).
  { change 1 with (inject_Z 1). rewrite <- Zle_Qle. lia. }
  assert (Hlo : 0 < lo) by (unfold lo; nra).
  assert (Hhi : hi <= 2 * lo) by (unfold hi, lo; nra).
  assert (Hv1 : pow2 (-149) <= v).
  { pose proof (pow2_le (-149) e Hemin).
    assert (1 <= inject_Z (Zpos m)).
    { change 1 with (inject_Z 1). rewrite <- Zle_Qle. lia. }
    unfold v. nra. }
  assert (Hv2 : v < pow2 128).
  { pose proof (pow2_le e 104 He) as Hp.
    assert (Hm2 : inject_Z (Zpos m) < inject_Z (2 ^ 24)) by (rewrite <- Zlt_Qlt; lia).
    assert (E128 : pow2 128 == inject_Z (2 ^ 24) * pow2 104) by reflexivity.
    rewrite E128. unfold v.
    assert (0 < inject_Z (Zpos m)) by (apply inject_Z_pos; lia).
    nra. }
  assert (Hlo76 : pow2 (-76) <= lo).
  { assert (Hh : pow2 (-75) <= hi).
    { apply Qlt_le_weak, Qsquare_lt; [apply Qlt_le_weak, pow2_pos | lra |].
      assert (pow2 (-75) * pow2 (-75) < pow2 (-149)) by reflexivity. lra. }
    assert (pow2 (-75) == 2 * pow2 (-76)) by reflexivity. lra. }
  assert (Hlo64 : lo <= pow2 64).
  { apply Qsquare_le; [exact Hlo | apply Qlt_le_weak, pow2_pos |].
    assert (pow2 64 * pow2 64 == pow2 128) by reflexivity. lra. }
  assert (E65 : pow2 65 == 2 * pow2 64) by reflexivity.
  set (L := S754_finite false 8388608 (-99)).
  set (U := S754_finite false 8388608 42).
  assert (EL : to_Q L == pow2 (-76)) by reflexivity.
  assert (EU : to_Q U == pow2 65) by reflexivity.
  destruct (Rounds_between x f L U R eq_refl I eq_refl I) as (Hf & Hvf & Hb);
    [rewrite EL; lra | rewrite EU; lra |].
  rewrite EL, EU in Hb. split; [exact Hf|]. split; [exact Hvf|]. exact Hb.
Qed.

(** The binade of a positive rational is unique. *)
Lemma binade_unique (x : Q) (a b : Z) :
  pow2 (a - 1) <= x -> x < pow2 a -> pow2 (b - 1) <= x -> x < pow2 b -> a = b.
Proof.
  intros A1 A2 B1 B2.
  destruct (Z.lt_trichotomy a b) as [Hlt | [E | Hgt]]; [exfalso | exact E | exfalso].
  - pose proof (pow2_le a (b - 1) ltac:(lia)). lra.
  - pose proof (pow2_le b (a - 1) ltac:(lia)). lra.
Qed.

Lemma binade_of (n : Z) (e : Z) :
  (0 < n)%Z ->
  pow2 (Zdigits2 n + e - 1) <= inject_Z n * pow2 e /\
  inject_Z n * pow2 e < pow2 (Zdigits2 n + e).
Proof.
  intros Hn. pose proof (Zdigits2_bounds n Hn) as [Hlo Hhi].
  pose proof (Zdigits2_ge_1 n Hn) as Hd. pose proof (pow2_pos e) as HP.
  replace (Zdigits2 n + e - 1)%Z with ((Zdigits2 n - 1) + e)%Z by lia.
  rewrite !pow2_add.
  rewrite (pow2_Z (Zdigits2 n - 1)), (pow2_Z (Zdigits2 n)) by lia.
  rewrite Zle_Qle in Hlo. rewrite Zlt_Qlt in Hhi. split; nra.
Qed.

(** A number of the format that lies in one step of a grid at least as
    fine as the format's is the lower end of the step. *)
Lemma float_on_grid mr er (q e' : Z) :
  valid (S754_finite false mr er) = true ->
  (0 < q)%Z -> (e' <= fexp32 (Zdigits2 q + e'))%Z ->
  inject_Z q * pow2 e' <= to_Q (S754_finite false mr er) ->
  to_Q (S754_finite false mr er) < (inject_Z q + 1) * pow2 e' ->
  to_Q (S754_finite false mr er) == inject_Z q * pow2 e'.
Proof.
  intros Hv Hq Hfe H1 H2.
  destruct (valid_Canon _ _ _ Hv) as [(_ & _ & Hc) _].
  rewrite to_Q_finite in *. cbn [cond_Zopp] in *.
  pose proof (pow2_pos e') as HP. pose proof (pow2_pos er) as HPr.
  destruct (binade_of (Zpos mr) er ltac:(lia)) as [R1 R2].
  destruct (binade_of q e' Hq) as [Q1 _].
  assert (Q2 : (inject_Z q + 1) * pow2 e' <= pow2 (Zdigits2 q + e')).
  { pose proof (Zdigits2_bounds q Hq) as [_ Hhi].
    pose proof (Zdigits2_ge_1 q Hq).
    rewrite pow2_add, (pow2_Z (Zdigits2 q)) by lia.
    assert (inject_Z q + 1 <= inject_Z (2 ^ Zdigits2 q)).
    { change 1 with (inject_Z 1). rewrite <- inject_Z_plus, <- Zle_Qle. lia. }
    nra. }
  assert (Ek : (Zdigits2 (Zpos mr) + er = Zdigits2 q + e')%Z).
  { apply (binade_unique (inject_Z (Zpos mr) * pow2 er)); try assumption; lra. }
  rewrite Ek in Hc.
  set (j := (er - e')%Z). assert (Hj : (0 <= j)%Z) by (unfold j; lia).
  assert (Er : pow2 er == inject_Z (2 ^ j) * pow2 e').
  { rewrite <- (pow2_Z j), <- pow2_add by lia.
    replace (j + e')%Z with er by (unfold j; lia). reflexivity. }
  rewrite Er in *.
  assert (EN : inject_Z (Zpos mr) * (inject_Z (2 ^ j) * pow2 e') ==
               inject_Z (Zpos mr * 2 ^ j) * pow2 e').
  { rewrite inject_Z_mult. ring. }
  rewrite EN in *.
  set (N := (Zpos mr * 2 ^ j)%Z) in *.
  assert (HN1 : inject_Z q <= inject_Z N) by nra.
  assert (HN2 : inject_Z N < inject_Z q + 1) by nra.
  rewrite <- Zle_Qle in HN1. change 1 with (inject_Z 1) in HN2.
  rewrite <- inject_Z_plus, <- Zlt_Qlt in HN2.
  replace N with q by lia. reflexivity.
Qed.

(** The square root is not above a number of the format whose square
    holds the argument. *)
Lemma SFsqrt_le m e mr er :
  valid (S754_finite false m e) = true ->
  valid (S754_finite false mr er) = true ->
  to_Q (S754_finite false m e) <=
    to_Q (S754_finite false mr er) * to_Q (S754_finite false mr er) ->
  to_Q (SFsqrt prec emax (S754_finite false m e)) <=
    to_Q (S754_finite false mr er).
Proof.
  intros Hv Hvr Hle.
  set (rho := S754_finite false mr er) in *.
  pose proof (to_Q_pos mr er) as Hr0. fold rho in Hr0.
  destruct (SFsqrt_core_spec m e)
    as (q & e' & l & Ecore & Hq & Hfe & x & Hl & Hx1 & Hx2 & Hs1 & Hs2 & Hx).
  assert (R : Rounds x (SFsqrt prec emax (S754_finite false m e))).
  { unfold SFsqrt. rewrite Ecore.
    apply binary_round_aux_Rounds; [lia | exact Hl | exact Hfe]. }
  rewrite to_Q_finite in Hle. cbn [cond_Zopp] in Hle.
  set (v := inject_Z (Zpos m) * pow2 e) in *.
  set (lo := inject_Z q * pow2 e') in *.
  pose proof (pow2_pos e') as HP.
  assert (Hq1 : 1 <= inject_Z q).
  { change 1 with (inject_Z 1). rewrite <- Zle_Qle. lia. }
  assert (Hlo : 0 < lo) by (unfold lo; nra).
  assert (Hlor : lo <= to_Q rho).
  { apply Qsquare_le; [exact Hlo | exact (Qlt_le_weak _ _ Hr0) | exact (Qle_trans _ _ _ Hs1 Hle)]. }
  assert (Hxr : x <= to_Q rho).
  { destruct (Qlt_le_dec (to_Q rho) x) as [Hc|]; [|done]. exfalso.
    assert (E : to_Q rho == lo).
    { exact (float_on_grid mr er q e' Hvr Hq Hfe Hlor (Qlt_trans _ _ _ Hc Hx2)). }
    destruct Hx as [Hx | Hx]; [lra|].
    rewrite E in Hle. exact (Qlt_irrefl _ (Qlt_le_trans _ _ _ Hx Hle)). }
  destruct (Rounds_mono x (to_Q rho) _ rho R (valid_Rounds mr er Hvr) Hxr)
    as [Hinf | (_ & _ & Hfin)]; [discriminate Hinf | exact Hfin].
Qed.
End SqrtRounding.

Section PairDistance.
Import RoundSpec SignedRoundSpec F32 F32Spec sim_wgsl.
Local Open Scope Q_scope.

Lemma valid_wrapDiff (h d : f32) :
  valid h = true -> valid d = true -> valid (wrapDiff h d) = true.
Proof.
  intros Hh Hd. unfold wrapDiff. cbn [f_lt f_sub f_add f_mul f_neg scalar].
  pose proof (valid_SFmul h F2 Hh eq_refl) as HT.
  assert (H1 : valid (if SFltb h d then SFsub prec emax d (SFmul prec emax h F2)
                      else d) = true).
  { destruct (SFltb h d); [by apply valid_SFsub | exact Hd]. }
  cbv zeta. destruct (SFltb _ (SFopp h)); [by apply valid_SFadd | exact H1].
Qed.

Lemma valid_load (particles : list (Particle f32)) (j : Z) :
  (forall p, p ∈ particles ->
     valid (x4 (pos p)) = true /\ valid (y4 (pos p)) = true) ->
  valid (x4 (pos (load zeroParticle particles j))) = true /\
  valid (y4 (pos (load zeroParticle particles j))) = true.
Proof.
  intros Hall. unfold load. destruct (j <? 0)%Z; [by split|].
  destruct (particles !! Z.to_nat j) as [p|] eqn:E; [|by split].
  apply Hall. by eapply list_elem_of_lookup_2.
Qed.

(** [distSq] is a number of the format. *)
Lemma valid_distSqTo (sim : Sim f32) (particles : list (Particle f32))
    (from : vec2 f32) (j : Z) :
  valid (worldSize sim) = true ->
  valid (vx from) = true -> valid (vy from) = true ->
  (forall p, p ∈ particles ->
     valid (x4 (pos p)) = true /\ valid (y4 (pos p)) = true) ->
  valid (distSqTo sim particles from j) = true.
Proof.
  intros Hw Hfx Hfy Hall.
  destruct (valid_load particles j Hall) as [Hqx Hqy].
  unfold distSqTo, displacement, dot, vsub.
  set (q := load zeroParticle particles j) in *.
  cbn [f_sub f_add f_mul scalar xy vx vy].
  pose proof (valid_SFsub _ _ Hqx Hfx) as Hdx.
  pose proof (valid_SFsub _ _ Hqy Hfy) as Hdy.
  destruct (border sim =? 1)%Z; cbn [vx vy];
    apply valid_SFadd; apply valid_SFmul;
    try assumption; by apply valid_wrapDiff.
Qed.

(** What the guard admits is a positive finite number no greater than
    [r * r] computed exactly. *)
Lemma inRange_cases (sim : Sim f32) (distSq : f32) :
  inRange sim distSq = true ->
  exists m e, distSq = S754_finite false m e.
Proof.
  unfold inRange. cbn [f_lt f_mul scalar]. intros Hin.
  apply andb_true_iff in Hin as [H0 H1].
  destruct distSq as [[|]|[|]| |[|] m e];
    try (exfalso; clear -H0; discriminate).
  - exfalso. clear -H1. by destruct (SFmul prec emax _ _) as [?|[|]| |[|] ? ?].
  - by eexists _, _.
Qed.

Lemma inRange_below_square (sim : Sim f32) m e mr er :
  r sim = S754_finite false mr er -> valid (r sim) = true ->
  valid (S754_finite false m e) = true ->
  inRange sim (S754_finite false m e) = true ->
  to_Q (S754_finite false m e) <= to_Q (r sim) * to_Q (r sim).
Proof.
  intros Er Hvr Hv Hin. unfold inRange in Hin. cbn [f_lt f_mul scalar] in Hin.
  apply andb_true_iff in Hin as [_ H1]. rewrite Er in *.
  set (y := S754_finite false m e) in *. set (rho := S754_finite false mr er) in *.
  pose proof (to_Q_pos mr er) as Hr0. fold rho in Hr0.
  assert (R : Rounds (to_Q rho * to_Q rho) (SFmul prec emax rho rho)).
  { destruct (SFmul_finite_RoundsS false mr er false mr er Hvr Hvr)
      as [[_ R] | [Hneg _]]; [exact R|].
    exfalso. fold rho in Hneg. nra. }
  destruct (Qlt_le_dec (to_Q rho * to_Q rho) (to_Q y)) as [Hc|]; [|done].
  exfalso.
  destruct (Rounds_mono _ _ _ _ R (valid_Rounds m e Hv) (Qlt_le_weak _ _ Hc))
    as [Hinf | (Hf2 & _ & Hle)]; [discriminate Hinf|].
  destruct (Rounds_valid _ _ R) as [Hv2 _].
  apply SFltb_Q in H1; [| exact Hv | exact Hv2 | exact I |].
  - fold y in Hle. lra.
  - clear -Hf2. by destruct (SFmul prec emax rho rho) as [[|]| | |[|] ? ?].
Qed.

Lemma fin_is_nonneg (a : f32) : fin a -> is_nonneg a.
Proof. by destruct a as [[|]| | |[|] ? ?]. Qed.

Lemma fin_is_finite (a : f32) : fin a -> is_finite a.
Proof. by destruct a as [[|]| | |[|] ? ?]. Qed.

Lemma normalised_distance (sim : Sim f32) (distSq : f32) :
  valid (r sim) = true -> is_pos (r sim) -> valid distSq = true ->
  inRange sim distSq = true ->
  let dist := SFsqrt prec emax distSq in
  let normD := SFdiv prec emax dist (r sim) in
  (is_pos dist /\ is_finite dist /\ valid dist = true /\
   SFleb dist (r sim) = true) /\
  (is_nonneg normD /\ is_finite normD /\ valid normD = true /\
   0 <= to_Q normD <= 1).
Proof.
  intros Hvr Hr Hv Hin.
  destruct (inRange_cases sim distSq Hin) as (m & e & ->).
  destruct (SFsqrt_range m e Hv) as (Hfd & Hvd & Hd76 & _).
  cbv zeta in Hfd, Hvd, Hd76.
  assert (Hdpos : 0 < to_Q (SFsqrt prec emax (S754_finite false m e))).
  { pose proof (pow2_pos (-76)). lra. }
  destruct (is_pos_cases _ Hr) as [Er | (mr & er & Er)].
  - (* an infinite radius *)
    cbv zeta. rewrite Er.
    destruct (SFsqrt prec emax (S754_finite false m e)) as [[|]| | |[|] md ed];
      try (exfalso; exact Hfd).
    + exfalso. change (to_Q (S754_zero false)) with 0 in Hdpos. lra.
    + cbn [SFdiv xorb].
      split; [split; [reflexivity | split; [exact I | split; [exact Hvd | reflexivity]]]|].
      split; [reflexivity | split; [exact I | split; [reflexivity|]]].
      change (to_Q (S754_zero false)) with 0. lra.
  - pose proof (inRange_below_square sim m e mr er Er Hvr Hv Hin) as Hsq.
    rewrite Er in *.
    pose proof (SFsqrt_le m e mr er Hv Hvr Hsq) as Hle.
    pose proof (to_Q_pos mr er) as Hr0.
    cbv zeta.
    destruct (SFsqrt prec emax (S754_finite false m e)) as [[|]| | |[|] md ed];
      try (exfalso; exact Hfd).
    + exfalso. change (to_Q (S754_zero false)) with 0 in Hdpos. lra.
    + split.
      * split; [reflexivity|]. split; [exact I|]. split; [exact Hvd|].
        apply SFleb_Q; [exact Hvd | exact Hvr | exact I | exact I | exact Hle].
      * destruct (valid_Canon _ _ _ Hvd) as [(_ & Hdd & _) _].
        pose proof (SFdiv_Rounds md ed mr er Hdd) as RQ.
        assert (Hlo : to_Q (S754_zero false) <=
                      to_Q (S754_finite false md ed) / to_Q (S754_finite false mr er)).
        { change (to_Q (S754_zero false)) with 0.
          apply Qle_shift_div_l; [assumption|]. lra. }
        assert (Hhi : to_Q (S754_finite false md ed) / to_Q (S754_finite false mr er)
                      <= to_Q F1).
        { assert (E1 : to_Q F1 == 1) by reflexivity. rewrite E1.
          apply Qle_shift_div_r; [assumption|]. lra. }
        assert (Hv1 : valid F1 = true) by reflexivity.
        assert (E1 : to_Q F1 == 1) by reflexivity.
        destruct (Rounds_between _ _ (S754_zero false) F1 RQ eq_refl I Hv1 I
                    Hlo Hhi) as (Hf & Hvn & Hb).
        rewrite E1 in Hb. change (to_Q (S754_zero false)) with 0 in Hb.
        split; [by apply fin_is_nonneg|]. split; [by apply fin_is_finite|].
        split; [exact Hvn|]. exact Hb.
Qed.
End PairDistance.

Section PairForceTheorems.
Import RoundSpec SignedRoundSpec F32 F32Spec Examples sim_wgsl.

(** X18.  The force curve never yields a NaN or an infinity.  In
    binary32, for a distance that is not negative, a positive [beta] and a
    coefficient in [[-1, 1]] (numbers of the format), the value of
    [forceCurve] is a finite number of the format, whichever branch is
    taken: the divisor [1.0 - beta] of the second branch is reached only
    with [beta < 1]. *)
Theorem force_curve_is_finite (d b c : f32) :
  valid d = true -> valid b = true -> valid c = true ->
  is_nonneg d -> is_pos b ->
  SFleb (- F1)%F c = true -> SFleb c F1 = true ->
  is_finite (forceCurve d b c) /\ valid (forceCurve d b c) = true.
Proof.
  intros Hvd Hvb Hvc Hd Hb Hc1 Hc2.
  destruct (forceCurve_bounded d b c Hvd Hvb Hvc Hd Hb Hc1 Hc2) as (Hf & Hv & _).
  split; assumption.
Qed.

Lemma force_curve_is_finite_witness :
  is_finite (forceCurve (lit 6 10) (lit 3 10) (lit (-1) 2)) /\
  valid (forceCurve (lit 6 10) (lit 3 10) (lit (-1) 2)) = true.
Proof.
  apply (force_curve_is_finite (lit 6 10) (lit 3 10) (lit (-1) 2));
    reflexivity.
Defined.

(** X19.  The normalised distance is in [[0, 1]], and no pair is divided
    by zero.  In binary32, for a positive radius and coordinates that are
    numbers of the format: whenever the guard
    [distSq > 0.0 && distSq < r * r] admits a pair, [dist = sqrt(distSq)]
    is a positive finite number not above [r], and [normD = dist / r] is a
    finite number in [[0, 1]], rounding included. *)
Theorem normalised_distance_is_in_unit_interval (sim : Sim f32)
    (particles : list (Particle f32)) (from : vec2 f32) (j : Z) :
  valid (r sim) = true -> is_pos (r sim) ->
  valid (worldSize sim) = true ->
  valid (vx from) = true -> valid (vy from) = true ->
  (forall p, p ∈ particles ->
     valid (x4 (pos p)) = true /\ valid (y4 (pos p)) = true) ->
  let distSq := distSqTo sim particles from j in
  inRange sim distSq = true ->
  let dist := f_sqrt distSq in
  let normD := (dist / r sim)%F in
  (is_pos dist /\ is_finite dist /\ valid dist = true /\
   SFleb dist (r sim) = true) /\
  (is_nonneg normD /\ is_finite normD /\ valid normD = true /\
   (0 <= to_Q normD <= 1)%Q).
Proof.
  intros Hvr Hr Hw Hfx Hfy Hall distSq Hin.
  apply (normalised_distance sim distSq Hvr Hr); [|exact Hin].
  by apply valid_distSqTo.
Qed.

Lemma normalised_distance_is_in_unit_interval_witness :
  let from := Vec2 (lit 0 1) (lit 0 1) in
  let dist := f_sqrt (distSqTo sim4 four from 3) in
  let normD := (dist / r sim4)%F in
  (is_pos dist /\ is_finite dist /\ valid dist = true /\
   SFleb dist (r sim4) = true) /\
  (is_nonneg normD /\ is_finite normD /\ valid normD = true /\
   (0 <= to_Q normD <= 1)%Q).
Proof.
  apply (normalised_distance_is_in_unit_interval sim4 four
           (Vec2 (lit 0 1) (lit 0 1)) 3); try reflexivity.
  intros p Hp. unfold four in Hp.
  repeat (apply elem_of_cons in Hp as [-> | Hp]; [split; reflexivity|]).
  by apply elem_of_nil in Hp.
Defined.
End PairForceTheorems.

Section ExactNeighbours.
Import Exact construct_wgsl.
Local Open Scope Q_scope.



End ExactNeighbours.

Section Friction.
Import RoundSpec SignedRoundSpec F32 F32Spec Examples sim_wgsl.
Local Open Scope Q_scope.

(** One component of the velocity update when nothing accelerates the
    particle. *)
Lemma damped_component (v k a dt : f32) :
  valid v = true -> is_finite v ->
  valid k = true -> is_finite k -> 0 <= to_Q k <= 1 ->
  is_zero a -> is_finite dt ->
  let v' := SFadd prec emax (SFmul prec emax v k) (SFmul prec emax a dt) in
  is_finite v' /\ valid v' = true /\ Qabs (to_Q v') <= Qabs (to_Q v).
Proof.
  intros Hv Hf Hvk Hfk Hk [s ->] Hdt.
  assert (Hz : exists s', SFmul prec emax (S754_zero s) dt = S754_zero s').
  { destruct dt as [?|?| |? ? ?]; try (exfalso; exact Hdt); by eexists. }
  destruct Hz as [s' ->].
  destruct (SFabs_cases v Hv Hf) as (Hva & Hfa & Ea).
  pose proof (to_Q_SFopp (SFabs v)) as Eo.
  assert (Hvo : valid (SFopp (SFabs v)) = true) by (by rewrite valid_SFopp).
  assert (Hfa' : is_finite (SFabs v)) by (by apply fin_is_finite).
  assert (Hfo : is_finite (SFopp (SFabs v))) by (by apply is_finite_SFopp).
  pose proof (Qabs_nonneg (to_Q v)) as Hn.
  pose proof (Qle_Qabs (to_Q v)) as H1.
  pose proof (Qle_Qabs (- to_Q v)) as H2. rewrite Qabs_opp in H2.
  assert (Hlo : to_Q (SFopp (SFabs v)) <= to_Q v * to_Q k).
  { rewrite Eo, Ea. nra. }
  assert (Hhi : to_Q v * to_Q k <= to_Q (SFabs v)).
  { rewrite Ea. nra. }
  destruct (RoundsS_between _ _ _ _ (SFmul_RoundsS v k Hv Hvk Hf Hfk)
              Hvo Hfo Hva Hfa' Hlo Hhi) as (Hfp & Hvp & Hp).
  rewrite Eo, Ea in Hp. cbv zeta.
  destruct (SFmul prec emax v k) as [sp| | |sp mp ep];
    try (exfalso; exact Hfp).
  - split; [|split].
    + by destruct (SFadd prec emax (S754_zero sp) (S754_zero s')) eqn:E;
        destruct sp, s'; try discriminate E.
    + by destruct sp, s'.
    + assert (E : to_Q (SFadd prec emax (S754_zero sp) (S754_zero s')) == 0)
        by (by destruct sp, s').
      rewrite E. exact Hn.
  - change (SFadd prec emax (S754_finite sp mp ep) (S754_zero s'))
      with (S754_finite sp mp ep).
    split; [exact I|]. split; [exact Hvp|].
    apply Qabs_Qle_condition. lra.
Qed.

(** X21.  Friction never speeds a free particle up.  In binary32, for a
    friction in [[0, 1]], a finite time step and a finite velocity
    (numbers of the format), when the acceleration is zero the velocity
    after the integration step is finite and no component of it is larger
    in magnitude than before, rounding included. *)
Theorem friction_never_speeds_up_a_free_particle (sim : Sim f32)
    (pos vel acc : vec2 f32) :
  valid (friction sim) = true ->
  SFleb F0 (friction sim) = true -> SFleb (friction sim) F1 = true ->
  is_finite (delta sim) ->
  valid (vx vel) = true -> valid (vy vel) = true ->
  is_finite (vx vel) -> is_finite (vy vel) ->
  is_zero (vx acc) -> is_zero (vy acc) ->
  let vel' := (integrate sim pos vel acc).2 in
  (is_finite (vx vel') /\ valid (vx vel') = true /\
   Qabs (to_Q (vx vel')) <= Qabs (to_Q (vx vel))) /\
  (is_finite (vy vel') /\ valid (vy vel') = true /\
   Qabs (to_Q (vy vel')) <= Qabs (to_Q (vy vel))).
Proof.
  intros Hvf Hf0 Hf1 Hdt Hvx Hvy Hfx Hfy Hax Hay.
  assert (Hff : is_finite (friction sim)).
  { exact (between_is_finite _ F0 F1 I I Hf0 Hf1). }
  apply (SFleb_Q F0 (friction sim)) in Hf0; [|reflexivity || assumption || exact I..].
  apply (SFleb_Q (friction sim) F1) in Hf1; [|reflexivity || assumption || exact I..].
  assert (E0 : to_Q F0 == 0) by reflexivity.
  assert (E1 : to_Q F1 == 1) by reflexivity.
  assert (Hv0 : valid (S754_zero false) = true) by reflexivity.
  assert (Hv1 : valid F1 = true) by reflexivity.
  assert (Hlo : to_Q (S754_zero false) <= to_Q F1 - to_Q (friction sim)).
  { change (to_Q (S754_zero false)) with 0. lra. }
  assert (Hhi : to_Q F1 - to_Q (friction sim) <= to_Q F1) by lra.
  destruct (RoundsS_between _ _ _ _ (SFsub_RoundsS F1 (friction sim) Hv1 Hvf I Hff)
              Hv0 I Hv1 I Hlo Hhi) as (Hfk & Hvk & Hk).
  rewrite E1 in Hk. change (to_Q (S754_zero false)) with 0 in Hk.
  split.
  - exact (damped_component (vx vel) _ (vx acc) (delta sim)
             Hvx Hfx Hvk Hfk Hk Hax Hdt).
  - exact (damped_component (vy vel) _ (vy acc) (delta sim)
             Hvy Hfy Hvk Hfk Hk Hay Hdt).
Qed.

Lemma friction_never_speeds_up_a_free_particle_witness :
  let pos := Vec2 (lit 1 1) (lit 2 1) in
  let vel := Vec2 (lit 1 3) (lit (-5) 7) in
  let acc := Vec2 (lit 0 1) (lit 0 1) in
  let vel' := (integrate defaultSim pos vel acc).2 in
  (is_finite (vx vel') /\ valid (vx vel') = true /\
   Qabs (to_Q (vx vel')) <= Qabs (to_Q (vx vel)))%Q /\
  (is_finite (vy vel') /\ valid (vy vel') = true /\
   Qabs (to_Q (vy vel')) <= Qabs (to_Q (vy vel)))%Q.
Proof.
  apply (friction_never_speeds_up_a_free_particle defaultSim
           (Vec2 (lit 1 1) (lit 2 1)) (Vec2 (lit 1 3) (lit (-5) 7))
           (Vec2 (lit 0 1) (lit 0 1)));
    try reflexivity; try exact I; by eexists.
Defined.
End Friction.

Section SqrtBelow.
Import RoundSpec SignedRoundSpec F32 F32Spec.
Local Open Scope Q_scope.

(** The square root is not below a number of the format whose square the
    argument holds. *)
Lemma SFsqrt_ge m e mr er :
  valid (S754_finite false m e) = true ->
  valid (S754_finite false mr er) = true ->
  to_Q (S754_finite false mr er) * to_Q (S754_finite false mr er) <=
    to_Q (S754_finite false m e) ->
  to_Q (S754_finite false mr er) <=
    to_Q (SFsqrt prec emax (S754_finite false m e)).
Proof.
  intros Hv Hvr Hle.
  destruct (SFsqrt_range m e Hv) as (Hfin & _).
  set (rho := S754_finite false mr er) in *.
  pose proof (to_Q_pos mr er) as Hr0. fold rho in Hr0.
  destruct (SFsqrt_core_spec m e)
    as (q & e' & l & Ecore & Hq & Hfe & x & Hl & Hx1 & Hx2 & Hs1 & Hs2 & Hx).
  assert (R : Rounds x (SFsqrt prec emax (S754_finite false m e))).
  { unfold SFsqrt. rewrite Ecore.
    apply binary_round_aux_Rounds; [lia | exact Hl | exact Hfe]. }
  rewrite to_Q_finite in Hle. cbn [cond_Zopp] in Hle.
  set (v := inject_Z (Zpos m) * pow2 e) in *.
  set (lo := inject_Z q * pow2 e') in *.
  set (hi := (inject_Z q + 1) * pow2 e') in *.
  pose proof (pow2_pos e') as HP.
  assert (Hq1 : 1 <= inject_Z q).
  { change 1 with (inject_Z 1). rewrite <- Zle_Qle. lia. }
  assert (Hhi : 0 < hi) by (unfold hi; nra).
  assert (Hrx : to_Q rho <= x).
  { destruct (Qlt_le_dec lo (to_Q rho)) as [Hc|Hc];
      [|exact (Qle_trans _ _ _ Hc Hx1)].
    exfalso.
    assert (Hrh : to_Q rho < hi).
    { apply Qsquare_lt; [exact (Qlt_le_weak _ _ Hr0) | exact Hhi |].
      exact (Qle_lt_trans _ _ _ Hle Hs2). }
    pose proof (float_on_grid mr er q e' Hvr Hq Hfe (Qlt_le_weak _ _ Hc) Hrh) as E.
    fold rho lo in E. rewrite E in Hc. exact (Qlt_irrefl _ Hc). }
  destruct (Rounds_mono (to_Q rho) x rho _ (valid_Rounds mr er Hvr) R Hrx)
    as [Hinf | (_ & _ & Hfin')]; [|exact Hfin'].
  cbv zeta in Hfin. rewrite Hinf in Hfin. destruct Hfin.
Qed.

Lemma Canon_valid (m : positive) (e : Z) :
  Canon (Zpos m) e -> (e <= 104)%Z -> valid (S754_finite false m e) = true.
Proof.
  intros (_ & _ & Hc) He.
  unfold valid, valid_binary, bounded, canonical_mantissa.
  apply andb_true_iff. split.
  - apply Z.eqb_eq. exact Hc.
  - apply Z.leb_le. exact He.
Qed.

(** The powers of two of the format. *)
Lemma pow2_float (k : Z) :
  (-149 <= k <= 127)%Z ->
  exists m e, valid (S754_finite false m e) = true /\
              to_Q (S754_finite false m e) == pow2 k.
Proof.
  intros Hk. destruct (Z_le_gt_dec (-126) k) as [Hn|Hs].
  - exists 8388608%positive, (k - 23)%Z. split.
    + apply Canon_valid; [|lia]. split; [lia|].
      split; [change (Zdigits2 8388608) with 24%Z; change prec with 24%Z; lia|].
      rewrite fexp32_eq. change (Zdigits2 8388608) with 24%Z. lia.
    + rewrite to_Q_finite. cbn [cond_Zopp].
      change (inject_Z 8388608) with (pow2 23). rewrite <- pow2_add.
      replace (23 + (k - 23))%Z with k by lia. reflexivity.
  - assert (Hp : (0 < 2 ^ (k + 149))%Z) by (apply Z.pow_pos_nonneg; lia).
    exists (Z.to_pos (2 ^ (k + 149))), (-149)%Z.
    assert (Ep : Zpos (Z.to_pos (2 ^ (k + 149))) = (2 ^ (k + 149))%Z)
      by (apply Z2Pos.id; exact Hp).
    assert (Hd : Zdigits2 (2 ^ (k + 149)) = (k + 150)%Z).
    { rewrite Zdigits2_pow2 by lia. lia. }
    split.
    + apply Canon_valid; [|lia]. rewrite Ep. split; [lia|].
      split; [rewrite Hd; change prec with 24%Z; lia|].
      rewrite fexp32_eq, Hd. lia.
    + rewrite to_Q_finite. cbn [cond_Zopp]. rewrite Ep.
      rewrite <- (pow2_Z (k + 149)) by lia. rewrite <- pow2_add.
      replace (k + 149 + -149)%Z with k by lia. reflexivity.
Qed.

Lemma Rounds_finite_product (a : f32) sa ma ea :
  a = S754_finite sa ma ea -> valid a = true ->
  Rounds (to_Q a * to_Q a) (SFmul prec emax a a).
Proof.
  intros -> Hv.
  destruct (SFmul_finite_RoundsS sa ma ea sa ma ea Hv Hv) as [[_ R] | [Hneg _]];
    [exact R|].
  exfalso. cbv zeta in Hneg.
  pose proof (to_Q_pos ma ea) as Hp. pose proof (to_Q_neg ma ea) as Hn.
  destruct sa; nra.
Qed.

(** The square root of a number that holds the rounded square of [dx] is
    at least a quarter of [|dx|]. *)
Lemma sqrt_dominates (dx : f32) m e :
  valid dx = true -> is_finite dx ->
  valid (S754_finite false m e) = true ->
  is_finite (SFmul prec emax dx dx) ->
  to_Q (SFmul prec emax dx dx) <= to_Q (S754_finite false m e) ->
  Qabs (to_Q dx) <= 4 * to_Q (SFsqrt prec emax (S754_finite false m e)).
Proof.
  intros Hvx Hfx Hv Hfm Hle.
  destruct (SFsqrt_range m e Hv) as (Hfin & _ & H76 & _). cbv zeta in Hfin, H76.
  pose proof (fun m1 e1 => SFsqrt_ge m e m1 e1 Hv) as Hge.
  remember (SFsqrt prec emax (S754_finite false m e)) as dist eqn:Edist.
  clear Edist.
  pose proof (pow2_pos (-76)) as H76'.
  assert (E74 : pow2 (-74) == 4 * pow2 (-76)) by reflexivity.
  remember (pow2 (-76)) as c76 eqn:E76. clear E76.
  destruct dx as [s| | |s mx ex]; try (exfalso; exact Hfx).
  { change (to_Q (S754_zero s)) with 0. change (Qabs 0) with 0.
    clear -H76 H76'. lra. }
  assert (Eabs : Qabs (to_Q (S754_finite s mx ex)) == inject_Z (Zpos mx) * pow2 ex).
  { pose proof (to_Q_pos mx ex) as Hp. destruct s.
    - rewrite to_Q_neg, Qabs_opp. apply Qabs_pos. exact (Qlt_le_weak _ _ Hp).
    - apply Qabs_pos. exact (Qlt_le_weak _ _ Hp). }
  pose proof (Rounds_finite_product _ s mx ex eq_refl Hvx) as RP.
  remember (S754_finite s mx ex) as dx eqn:Edx. clear Edx Hfx Hvx.
  destruct (binade_of (Zpos mx) ex ltac:(lia)) as [B1 B2].
  remember (Zdigits2 (Zpos mx) + ex - 1)%Z as k eqn:Ek.
  replace (Zdigits2 (Zpos mx) + ex)%Z with (k + 1)%Z in B2 by lia.
  replace (Zdigits2 (Zpos mx) + ex - 1)%Z with k in B1 by lia.
  clear Ek.
  rewrite <- Eabs in B1, B2. clear Eabs.
  assert (E2 : pow2 (k + 1) == 2 * pow2 k) by apply pow2_succ.
  pose proof (pow2_pos k) as Hk0.
  assert (Hsq : pow2 (k + k) <= to_Q dx * to_Q dx).
  { rewrite pow2_add.
    assert (Es : to_Q dx * to_Q dx == Qabs (to_Q dx) * Qabs (to_Q dx)).
    { rewrite <- Qabs_Qmult. symmetry. apply Qabs_pos. nra. }
    rewrite Es. nra. }
  destruct (Z_le_gt_dec (-149)%Z (k + k)) as [Hn|Hu].
  - (* the square does not underflow *)
    assert (Hk127 : (k + k <= 127)%Z).
    { destruct (Z_le_gt_dec (k + k) 127%Z) as [|Hc]; [done|exfalso].
      pose proof (pow2_le 128 (k + k) ltac:(lia)) as Hp.
      rewrite (Rounds_overflow _ _ RP) in Hfm; [exact Hfm | lra]. }
    destruct (pow2_float (k + k) ltac:(lia)) as (m2 & e2 & Hv2 & Eq2).
    destruct (pow2_float k ltac:(lia)) as (m1 & e1 & Hv1 & Eq1).
    assert (Hp2 : pow2 (k + k) <= to_Q (SFmul prec emax dx dx)).
    { rewrite <- Eq2 in Hsq.
      destruct (Rounds_mono _ _ _ _ (valid_Rounds m2 e2 Hv2) RP Hsq)
        as [Hinf | (_ & _ & Hm)].
      - rewrite Hinf in Hfm. destruct Hfm.
      - rewrite Eq2 in Hm. exact Hm. }
    specialize (Hge m1 e1 Hv1).
    rewrite Eq1, <- pow2_add in Hge.
    assert (Hd : pow2 k <= to_Q dist) by (apply Hge; lra).
    lra.
  - (* a square below the format: the root is at least 2^-76 *)
    pose proof (pow2_le (k + 1) (-74) ltac:(lia)) as Hp.
    rewrite E74 in Hp. lra.
Qed.
End SqrtBelow.

Section PairFinite.
Import RoundSpec SignedRoundSpec F32 F32Spec sim_wgsl.
Local Open Scope Q_scope.

Lemma SFdiv_neg mx ex my ey :
  SFdiv prec emax (S754_finite true mx ex) (S754_finite false my ey) =
  SFopp (SFdiv prec emax (S754_finite false mx ex) (S754_finite false my ey)).
Proof.
  unfold SFdiv.
  destruct (SFdiv_core_binary prec emax (Zpos mx) ex (Zpos my) ey) as [[q e'] l].
  cbn [xorb]. apply binary_round_aux_opp.
Qed.

(** A quotient by a positive number of the format, bounded by a number of
    the format. *)
Lemma quotient_bounded (a : f32) md ed (B : f32) :
  valid a = true -> is_finite a ->
  valid (S754_finite false md ed) = true ->
  valid B = true -> is_finite B ->
  Qabs (to_Q a) <= to_Q B * to_Q (S754_finite false md ed) ->
  let q := SFdiv prec emax a (S754_finite false md ed) in
  is_finite q /\ valid q = true /\ Qabs (to_Q q) <= to_Q B.
Proof.
  intros Hva Hfa Hvd HvB HfB Hle.
  pose proof (to_Q_pos md ed) as Hd0.
  assert (HB0 : 0 <= to_Q B).
  { pose proof (Qabs_nonneg (to_Q a)). 
    destruct (Qlt_le_dec (to_Q B) 0) as [Hc|]; [|done]. exfalso. nra. }
  assert (Hpos : forall ma ea,
             valid (S754_finite false ma ea) = true ->
             to_Q (S754_finite false ma ea) <=
               to_Q B * to_Q (S754_finite false md ed) ->
             let q := SFdiv prec emax (S754_finite false ma ea)
                        (S754_finite false md ed) in
             fin q /\ valid q = true /\ 0 <= to_Q q <= to_Q B).
  { intros ma ea Hv Hl.
    destruct (valid_Canon _ _ _ Hv) as [(_ & Hdd & _) _].
    pose proof (SFdiv_Rounds ma ea md ed Hdd) as RQ.
    pose proof (to_Q_pos ma ea) as Ha0.
    assert (Hlo : to_Q (S754_zero false) <=
                  to_Q (S754_finite false ma ea) / to_Q (S754_finite false md ed)).
    { change (to_Q (S754_zero false)) with 0.
      apply Qle_shift_div_l; [assumption|]. lra. }
    assert (Hhi : to_Q (S754_finite false ma ea) / to_Q (S754_finite false md ed)
                  <= to_Q B).
    { apply Qle_shift_div_r; [assumption|]. exact Hl. }
    destruct (Rounds_between _ _ (S754_zero false) B RQ eq_refl I HvB HfB Hlo Hhi)
      as (Hf & Hvq & Hb).
    change (to_Q (S754_zero false)) with 0 in Hb. cbv zeta.
    split; [exact Hf|]. split; [exact Hvq | exact Hb]. }
  destruct a as [s| | |[|] ma ea]; try (exfalso; exact Hfa).
  - cbn [SFdiv]. split; [exact I|]. split; [reflexivity|].
    change (to_Q (S754_zero (xorb s false))) with 0. change (Qabs 0) with 0.
    exact HB0.
  - rewrite to_Q_neg, Qabs_opp, Qabs_pos in Hle
      by (apply Qlt_le_weak, to_Q_pos).
    destruct (Hpos ma ea Hva Hle) as (Hf & Hvq & Hb).
    cbv zeta. rewrite SFdiv_neg.
    split; [by apply is_finite_SFopp, fin_is_finite|].
    split; [by rewrite valid_SFopp|].
    rewrite to_Q_SFopp, Qabs_opp. apply Qabs_Qle_condition. lra.
  - rewrite Qabs_pos in Hle by (apply Qlt_le_weak, to_Q_pos).
    destruct (Hpos ma ea Hva Hle) as (Hf & Hvq & Hb).
    cbv zeta. split; [by apply fin_is_finite|]. split; [exact Hvq|].
    apply Qabs_Qle_condition. lra.
Qed.

(** Neither operand of a finite sum of two numbers that are not negative
    is above the sum. *)
Lemma sum_dominates (X Y : f32) :
  valid X = true -> valid Y = true -> fin X -> fin Y ->
  is_finite (SFadd prec emax X Y) ->
  to_Q X <= to_Q (SFadd prec emax X Y) /\
  to_Q Y <= to_Q (SFadd prec emax X Y).
Proof.
  intros HvX HvY HfX HfY Hfs.
  pose proof (fin_nonneg X HfX) as HX0. pose proof (fin_nonneg Y HfY) as HY0.
  assert (R : Rounds (to_Q X + to_Q Y) (SFadd prec emax X Y)).
  { destruct X as [[|]| | |[|] mx ex]; try (exfalso; exact HfX);
      destruct Y as [[|]| | |[|] my ey]; try (exfalso; exact HfY).
    - eapply Rounds_proper; [|apply Rounds_zero].
      change (to_Q (S754_zero false)) with 0. ring.
    - eapply Rounds_proper; [|by apply (valid_Rounds my ey)].
      change (to_Q (S754_zero false)) with 0. ring.
    - eapply Rounds_proper; [|by apply (valid_Rounds mx ex)].
      change (to_Q (S754_zero false)) with 0. ring.
    - apply (SFadd_Rounds false mx ex false my ey). cbv zeta.
      pose proof (to_Q_pos mx ex). pose proof (to_Q_pos my ey). lra. }
  destruct (nonneg_value_Rounds X HvX (fin_is_finite X HfX) HX0)
    as (X' & RX & _ & EX).
  destruct (nonneg_value_Rounds Y HvY (fin_is_finite Y HfY) HY0)
    as (Y' & RY & _ & EY).
  split.
  - destruct (Rounds_mono _ _ _ _ RX R ltac:(lra)) as [Hinf | (_ & _ & Hle)].
    + rewrite Hinf in Hfs. destruct Hfs.
    + lra.
  - destruct (Rounds_mono _ _ _ _ RY R ltac:(lra)) as [Hinf | (_ & _ & Hle)].
    + rewrite Hinf in Hfs. destruct Hfs.
    + lra.
Qed.

(** The square of a number of the format is not negative, and finite
    only if the number is. *)
Lemma square_cases (a : f32) :
  valid a = true -> is_finite (SFmul prec emax a a) ->
  is_finite a /\ fin (SFmul prec emax a a).
Proof.
  intros Hv Hf. destruct a as [s|s| |s ma ea]; try (exfalso; exact Hf).
  - split; [exact I|]. by destruct s.
  - split; [exact I|].
    pose proof (Rounds_finite_product _ s ma ea eq_refl Hv) as R.
    destruct (Rounds_valid _ _ R) as [_ [Hfin | Hinf]]; [exact Hfin|].
    rewrite Hinf in Hf. destruct Hf.
Qed.

Lemma finite_sum_cases (X Y : f32) :
  is_finite (SFadd prec emax X Y) -> is_finite X /\ is_finite Y.
Proof.
  destruct X as [?|[|]| |? ? ?], Y as [?|[|]| |? ? ?]; simpl; tauto.
Qed.

Lemma Qmult_bounds (a b A B : Q) :
  Qabs a <= A -> Qabs b <= B -> - (A * B) <= a * b /\ a * b <= A * B.
Proof.
  intros Ha Hb. pose proof (Qabs_nonneg a). pose proof (Qabs_nonneg b).
  assert (H1 : Qabs (a * b) <= A * B) by (rewrite Qabs_Qmult; nra).
  apply Qabs_Qle_condition in H1. exact H1.
Qed.

(** The close-range avoidance boost. *)
Lemma avoidance_boost_bounded (a : f32) md ed :
  valid (S754_finite false md ed) = true ->
  pow2 (-76) <= to_Q (S754_finite false md ed) ->
  valid a = true ->
  SFleb F0 a = true -> SFleb a (f_lit 16777216 1) = true ->
  let dist := S754_finite false md ed in
  let avoidF := if SFltb dist a
                then SFmul prec emax
                       (SFopp (SFsub prec emax (SFdiv prec emax a dist) F1))
                       (f_lit 1 2)
                else F0 in
  is_finite avoidF /\ valid avoidF = true /\
  - pow2 100 <= to_Q avoidF <= 1.
Proof.
  intros Hvd H76 Hva Ha0 Ha1 dist avoidF. subst avoidF.
  set (B100 := S754_finite false 8388608 77).
  set (A24 := @f_lit f32 scalar 16777216 1) in *.
  set (half := @f_lit f32 scalar 1 2).
  assert (EB : to_Q B100 == pow2 100) by reflexivity.
  assert (EA : to_Q A24 == 16777216) by reflexivity.
  assert (EH : to_Q half == 1 # 2) by reflexivity.
  assert (E1 : to_Q F1 == 1) by reflexivity.
  assert (EO1 : to_Q (SFopp F1) == -1) by reflexivity.
  assert (EOB : to_Q (SFopp B100) == - pow2 100) by reflexivity.
  assert (HvB : valid B100 = true) by reflexivity.
  assert (HvOB : valid (SFopp B100) = true) by reflexivity.
  assert (HvA : valid A24 = true) by reflexivity.
  assert (HvH : valid half = true) by reflexivity.
  assert (Hv1 : valid F1 = true) by reflexivity.
  assert (HvO1 : valid (SFopp F1) = true) by reflexivity.
  assert (HfH : is_finite half) by exact I.
  assert (E24 : pow2 100 * pow2 (-76) == 16777216) by reflexivity.
  pose proof (pow2_pos 100) as H100.
  assert (Hfa : is_finite a).
  { exact (between_is_finite a F0 A24 I I Ha0 Ha1). }
  apply (SFleb_Q F0 a) in Ha0; [|reflexivity || assumption || exact I..].
  apply (SFleb_Q a A24) in Ha1; [|reflexivity || assumption || exact I..].
  assert (E0 : to_Q F0 == 0) by reflexivity. rewrite E0 in Ha0. rewrite EA in Ha1.
  pose proof (to_Q_pos md ed) as Hd0. fold dist in Hd0, H76, Hvd.
  remember (pow2 100) as c100 eqn:Ec100. clear Ec100.
  remember (pow2 (-76)) as c76 eqn:Ec76. clear Ec76.
  destruct (SFltb dist a) eqn:Hlt; [|split; [exact I|]; split; [reflexivity|];
                                   rewrite E0; lra].
  (* avoidance / dist *)
  assert (Hq : Qabs (to_Q a) <= to_Q B100 * to_Q dist).
  { rewrite Qabs_pos by exact Ha0. rewrite EB. nra. }
  destruct (quotient_bounded a md ed B100 Hva Hfa Hvd HvB I Hq) as (Hf1 & Hv1' & Hb1).
  cbv zeta in Hf1, Hv1', Hb1. fold dist in Hf1, Hv1', Hb1.
  assert (Hq0 : 0 <= to_Q (SFdiv prec emax a dist)).
  { clear -Ha0 Hfa Hva. unfold dist.
    destruct a as [[|]| | |[|] ma ea]; try (exfalso; exact Hfa).
    - apply Qle_refl.
    - apply Qle_refl.
    - exfalso. pose proof (to_Q_pos ma ea). pose proof (to_Q_neg ma ea). lra.
    - destruct (valid_Canon _ _ _ Hva) as [(_ & Hdd & _) _].
      pose proof (SFdiv_Rounds ma ea md ed Hdd) as RQ.
      destruct (Rounds_valid _ _ RQ) as [_ [Hfin | Hinf]].
      + by apply fin_nonneg.
      + rewrite Hinf. apply Qle_refl. }
  apply Qabs_Qle_condition in Hb1. rewrite EB in Hb1.
  set (t1 := SFdiv prec emax a dist) in *.
  (* ... - 1.0 *)
  assert (Hlo : to_Q (SFopp F1) <= to_Q t1 - to_Q F1) by (rewrite EO1, E1; lra).
  assert (Hhi : to_Q t1 - to_Q F1 <= to_Q B100) by (rewrite EB, E1; lra).
  destruct (RoundsS_between _ _ _ _ (SFsub_RoundsS t1 F1 Hv1' Hv1 Hf1 I)
              HvO1 I HvB I Hlo Hhi) as (Hf2 & Hv2 & Hb2).
  clear Hlo Hhi. rewrite EO1, EB in Hb2.
  match type of Hb2 with _ <= to_Q ?t <= _ => set (t2 := t) in * end.
  (* -(...) *)
  pose proof (to_Q_SFopp t2) as E3.
  assert (Hv3 : valid (SFopp t2) = true) by (by rewrite valid_SFopp).
  assert (Hf3 : is_finite (SFopp t2)) by (by apply is_finite_SFopp).
  set (t3 := SFopp t2) in *.
  (* ... * 0.5 *)
  assert (Hlo : to_Q (SFopp B100) <= to_Q t3 * to_Q half)
    by (rewrite EOB, EH, E3; lra).
  assert (Hhi : to_Q t3 * to_Q half <= to_Q F1) by (rewrite E1, EH, E3; lra).
  destruct (RoundsS_between _ _ _ _ (SFmul_RoundsS t3 half Hv3 HvH Hf3 HfH)
              HvOB I Hv1 I Hlo Hhi) as (Hf4 & Hv4 & Hb4).
  rewrite EOB, E1 in Hb4.
  split; [exact Hf4|]. split; [exact Hv4 | exact Hb4].
Qed.

(** The force that one admitted pair adds, for a displacement [(dx, dy)]
    and a coefficient [coeff]. *)
Lemma pair_force_core (sim : Sim f32) (dx dy coeff : f32) :
  valid (r sim) = true -> is_pos (r sim) ->
  valid (beta sim) = true -> is_pos (beta sim) ->
  valid (avoidance sim) = true ->
  SFleb F0 (avoidance sim) = true ->
  SFleb (avoidance sim) (f_lit 16777216 1) = true ->
  valid dx = true -> valid dy = true ->
  valid coeff = true ->
  SFleb (SFopp F1) coeff = true -> SFleb coeff F1 = true ->
  let distSq := SFadd prec emax (SFmul prec emax dx dx) (SFmul prec emax dy dy) in
  inRange sim distSq = true ->
  let dist := SFsqrt prec emax distSq in
  let normD := SFdiv prec emax dist (r sim) in
  let f := forceCurve normD (beta sim) coeff in
  let avoidF := if SFltb dist (avoidance sim)
                then SFmul prec emax
                       (SFopp (SFsub prec emax
                                 (SFdiv prec emax (avoidance sim) dist) F1))
                       (f_lit 1 2)
                else F0 in
  let s := SFadd prec emax f avoidF in
  is_finite (SFmul prec emax (SFdiv prec emax dx dist) s) /\
  is_finite (SFmul prec emax (SFdiv prec emax dy dist) s).
Proof.
  intros Hvr Hr Hvb Hb Hva Ha0 Ha1 Hvx Hvy Hvc Hc1 Hc2 distSq Hin.
  pose proof (valid_SFmul dx dx Hvx Hvx) as HvX.
  pose proof (valid_SFmul dy dy Hvy Hvy) as HvY.
  pose proof (valid_SFadd _ _ HvX HvY) as HvS. fold distSq in HvS.
  destruct (normalised_distance sim distSq Hvr Hr HvS Hin)
    as (_ & Hn0 & Hfn & Hvn & _).
  cbv zeta in Hn0, Hfn, Hvn.
  destruct (forceCurve_bounded _ (beta sim) coeff Hvn Hvb Hvc Hn0 Hb Hc1 Hc2)
    as (Hff & Hvf & Hbf).
  destruct (inRange_cases sim distSq Hin) as (m & e & ES).
  assert (HfS : is_finite (SFadd prec emax (SFmul prec emax dx dx)
                             (SFmul prec emax dy dy))).
  { fold distSq. rewrite ES. exact I. }
  destruct (finite_sum_cases _ _ HfS) as [HfX HfY].
  destruct (square_cases dx Hvx HfX) as [Hfx HnX].
  destruct (square_cases dy Hvy HfY) as [Hfy HnY].
  destruct (sum_dominates _ _ HvX HvY HnX HnY HfS) as [HdX HdY].
  fold distSq in HdX, HdY. rewrite ES in HdX, HdY, HvS.
  pose proof (sqrt_dominates dx m e Hvx Hfx HvS HfX HdX) as H4x.
  pose proof (sqrt_dominates dy m e Hvy Hfy HvS HfY HdY) as H4y.
  destruct (SFsqrt_range m e HvS) as (Hfd & Hvd & H76 & _).
  cbv zeta in Hfd, Hvd, H76.
  intros dist normD f avoidF s.
  assert (Ed : dist = SFsqrt prec emax (S754_finite false m e)).
  { unfold dist. by rewrite ES. }
  change (is_finite f) in Hff. change (valid f = true) in Hvf.
  change (-33554432 <= to_Q f <= 33554432) in Hbf.
  clearbody f. clear normD Hn0 Hfn Hvn.
  rewrite <- Ed in *.
  assert (Hdp : exists md ed, dist = S754_finite false md ed).
  { clear -Hfd H76. pose proof (pow2_pos (-76)) as Hp.
    destruct dist as [[|]| | |[|] md ed]; try (exfalso; exact Hfd).
    - exfalso. change (to_Q (S754_zero false)) with 0 in H76. lra.
    - by eexists _, _. }
  destruct Hdp as (md & ed & Edist).
  assert (Hav : is_finite avoidF /\ valid avoidF = true /\
                - pow2 100 <= to_Q avoidF <= 1).
  { unfold avoidF. rewrite Edist. rewrite Edist in Hvd, H76.
    exact (avoidance_boost_bounded (avoidance sim) md ed Hvd H76 Hva Ha0 Ha1). }
  destruct Hav as (Hfa & Hvav & Hba). clearbody avoidF. clear Ed.
  (* f + avoidF *)
  set (B101 := S754_finite false 8388608 78).
  set (B103 := S754_finite false 8388608 80).
  set (F4 := S754_finite false 8388608 (-21)).
  assert (E101 : to_Q B101 == 2 * pow2 100) by reflexivity.
  assert (EO101 : to_Q (SFopp B101) == - (2 * pow2 100)) by reflexivity.
  assert (E103 : to_Q B103 == 4 * (2 * pow2 100)) by reflexivity.
  assert (EO103 : to_Q (SFopp B103) == - (4 * (2 * pow2 100))) by reflexivity.
  assert (E4 : to_Q F4 == 4) by reflexivity.
  assert (H25 : 33554432 + 1 <= pow2 100) by (clear; discriminate).
  remember (pow2 100) as c100 eqn:Ec100. clear Ec100.
  assert (Hlo : to_Q (SFopp B101) <= to_Q f + to_Q avoidF) by (rewrite EO101; lra).
  assert (Hhi : to_Q f + to_Q avoidF <= to_Q B101) by (rewrite E101; lra).
  destruct (RoundsS_between _ _ (SFopp B101) B101
              (SFadd_RoundsS f avoidF Hvf Hvav Hff Hfa)
              eq_refl I eq_refl I Hlo Hhi) as (Hfs & Hvs & Hbs).
  fold s in Hfs, Hvs, Hbs. clearbody s. clear Hlo Hhi.
  rewrite EO101, E101 in Hbs.
  assert (Hs : Qabs (to_Q s) <= 2 * c100) by (apply Qabs_Qle_condition; lra).
  (* dir * (f + avoidF) *)
  rewrite Edist in *.
  assert (Hcomp : forall d : f32,
             valid d = true -> is_finite d ->
             Qabs (to_Q d) <= 4 * to_Q (S754_finite false md ed) ->
             is_finite (SFmul prec emax
                          (SFdiv prec emax d (S754_finite false md ed)) s)).
  { intros d Hvdd Hfdd H4.
    rewrite <- E4 in H4.
    destruct (quotient_bounded d md ed F4 Hvdd Hfdd Hvd eq_refl I H4)
      as (Hfq & Hvq & Hbq).
    cbv zeta in Hfq, Hvq, Hbq. rewrite E4 in Hbq.
    destruct (Qmult_bounds _ _ _ _ Hbq Hs) as [Hl Hh].
    rewrite <- EO103 in Hl. rewrite <- E103 in Hh.
    destruct (RoundsS_between _ _ (SFopp B103) B103
                (SFmul_RoundsS _ s Hvq Hvs Hfq Hfs)
                eq_refl I eq_refl I Hl Hh) as (Hfc & _).
    exact Hfc. }
  split; [exact (Hcomp dx Hvx Hfx H4x) | exact (Hcomp dy Hvy Hfy H4y)].
Qed.
End PairFinite.

Section PairForceFiniteTheorem.
Import RoundSpec SignedRoundSpec F32 F32Spec Examples sim_wgsl.

Lemma valid_displacement (sim : Sim f32) (from : vec2 f32) (q : Particle f32) :
  valid (worldSize sim) = true ->
  valid (vx from) = true -> valid (vy from) = true ->
  valid (x4 (pos q)) = true -> valid (y4 (pos q)) = true ->
  valid (vx (displacement sim from q)) = true /\
  valid (vy (displacement sim from q)) = true.
Proof.
  intros Hw Hfx Hfy Hqx Hqy. unfold displacement, vsub.
  cbn [f_sub scalar xy vx vy].
  pose proof (valid_SFsub _ _ Hqx Hfx) as Hdx.
  pose proof (valid_SFsub _ _ Hqy Hfy) as Hdy.
  destruct (border sim =? 1)%Z; cbn [vx vy]; split;
    try assumption; by apply valid_wrapDiff.
Qed.

Lemma load_coefficient (P : f32 -> Prop) (matrix : list f32) (i : Z) :
  P F0 -> (forall c, c ∈ matrix -> P c) -> P (load F0 matrix i).
Proof.
  intros H0 Hall. unfold load. destruct (i <? 0)%Z; [exact H0|].
  destruct (matrix !! Z.to_nat i) as [c|] eqn:E; [|exact H0].
  apply Hall. by eapply list_elem_of_lookup_2.
Qed.

(** X22.  No pair ever adds a NaN or an infinity to the accumulator.  In
    binary32, for a positive radius, a positive [beta], an avoidance radius
    in [[0, 2^24]], coefficients in [[-1, 1]] and coordinates that are
    numbers of the format: whenever the guard admits a pair, both
    components of the force it adds, [dir * (f + avoidF)], are finite. *)
Theorem pair_force_is_finite (sim : Sim f32) (particles : list (Particle f32))
    (matrix : list f32) (colourIdx : list Z) (from : vec2 f32)
    (myColour j : Z) (df : vec2 f32) :
  valid (r sim) = true -> is_pos (r sim) ->
  valid (beta sim) = true -> is_pos (beta sim) ->
  valid (avoidance sim) = true ->
  SFleb F0 (avoidance sim) = true ->
  SFleb (avoidance sim) (lit 16777216 1) = true ->
  valid (worldSize sim) = true ->
  valid (vx from) = true -> valid (vy from) = true ->
  (forall p, p ∈ particles ->
     valid (x4 (pos p)) = true /\ valid (y4 (pos p)) = true) ->
  (forall c, c ∈ matrix ->
     valid c = true /\ SFleb (- F1)%F c = true /\ SFleb c F1 = true) ->
  pairForce sim particles matrix colourIdx from myColour j = Some df ->
  is_finite (vx df) /\ is_finite (vy df).
Proof.
  intros Hvr Hr Hvb Hb Hva Ha0 Ha1 Hw Hfx Hfy Hall Hmat Hpf.
  unfold pairForce in Hpf. cbv zeta in Hpf.
  destruct (valid_load particles j Hall) as [Hqx Hqy].
  destruct (valid_displacement sim from _ Hw Hfx Hfy Hqx Hqy) as [Hdx Hdy].
  set (diff := displacement sim from (load zeroParticle particles j)) in *.
  destruct (inRange sim (dot diff diff)) eqn:Hin; [|discriminate Hpf].
  injection Hpf as <-.
  set (coeff := load F0 matrix
                  (u32_wrap (myColour * colours sim + load 0%Z colourIdx j))).
  assert (Hc : valid coeff = true /\ SFleb (- F1)%F coeff = true /\
               SFleb coeff F1 = true).
  { apply (load_coefficient
             (fun c => valid c = true /\ SFleb (- F1)%F c = true /\
                       SFleb c F1 = true)); [by repeat split | exact Hmat]. }
  destruct Hc as (Hvc & Hc1 & Hc2).
  exact (pair_force_core sim (vx diff) (vy diff) coeff Hvr Hr Hvb Hb Hva Ha0 Ha1
           Hdx Hdy Hvc Hc1 Hc2 Hin).
Qed.

Lemma pair_force_is_finite_witness :
  exists df,
    pairForce sim4 four identityMatrix fourColours (Vec2 (lit 0 1) (lit 0 1))
      1 3 = Some df /\
    is_finite (vx df) /\ is_finite (vy df).
Proof.
  destruct (pairForce sim4 four identityMatrix fourColours
              (Vec2 (lit 0 1) (lit 0 1)) 1 3) as [df|] eqn:E.
  - exists df. split; [reflexivity|].
    apply (pair_force_is_finite sim4 four identityMatrix fourColours
             (Vec2 (lit 0 1) (lit 0 1)) 1 3 df); try reflexivity; try exact E.
    + intros p Hp. unfold four in Hp.
      repeat (apply elem_of_cons in Hp as [-> | Hp]; [split; reflexivity|]).
      apply elem_of_nil in Hp. destruct Hp.
    + intros c Hc. unfold identityMatrix in Hc.
      repeat (apply elem_of_cons in Hc as [-> | Hc];
              [split; [reflexivity | split; reflexivity]|]).
      apply elem_of_nil in Hc. destruct Hc.
  - exfalso. vm_compute in E. discriminate E.
Defined.
End PairForceFiniteTheorem.
